(** * carmi: the VM compiler's table builder and the runtime template

    A shallow embedding of
      - [buildProjectionData] of src/vm/vm-compiler.ts (the hash-consing
        tables, the projection builder, the setter compiler and the packer);
      - the runtime template ([ensurePath], [set], [$setter], [$endBatch],
        [$runInBatch], the listeners, [recalculate], [checkTypes]) and its
        library ([loopFunction], [recursiveMapValues], [mapValues],
        [filterBy], [groupBy], [mapKeys], [keyBy], [keys], [values],
        [size], [assign], [defaults], [range]).

    JavaScript objects used as dictionaries are association lists in insertion
    order: [Object.keys] enumerates string keys that are not array indices in
    the order they were added, and the keys here are hash digests and model
    property names. *)

From Stdlib Require Import ZArith List Bool Ascii Lia.
From stdpp Require Import base tactics option list strings pretty.
From Equations Require Import Equations.

Set Warnings "-register-all".

Local Open Scope string_scope.
Local Open Scope list_scope.
Local Open Scope Z_scope.

(** ** JavaScript objects as ordered dictionaries *)

Module JsObject.
Section Dict.
Context {V : Type}.

Definition t := list (string * V).

(** [_.has(o, k)] *)
Fixpoint has (o : list (string * V)) (k : string) : bool :=
  match o with
  | [] => false
  | (k', _) :: o' => if String.eqb k' k then true else has o' k
  end.

(** [o[k]], [None] standing for [undefined] *)
Fixpoint get (o : list (string * V)) (k : string) : option V :=
  match o with
  | [] => None
  | (k', v) :: o' => if String.eqb k' k then Some v else get o' k
  end.

(** [o[k] = v]: an existing key keeps its position, a new key goes last *)
Fixpoint set (o : list (string * V)) (k : string) (v : V) : list (string * V) :=
  match o with
  | [] => [(k, v)]
  | (k', v') :: o' =>
      if String.eqb k' k then (k', v) :: o' else (k', v') :: set o' k v
  end.

(** [Object.keys(o)] and [Object.values(o)] *)
Definition keys (o : list (string * V)) : list string := map fst o.
Definition values (o : list (string * V)) : list V := map snd o.
End Dict.
End JsObject.

(** [xs.indexOf(x)] on an array of strings: the first position, or [-1] *)
Fixpoint indexOf (xs : list string) (x : string) : Z :=
  match xs with
  | [] => -1
  | y :: ys =>
      if String.eqb y x then 0
      else let i := indexOf ys x in if i <? 0 then -1 else i + 1
  end.

(** ** Scalars and opaque data *)

(** The values the compiler interns as primitives.  Numbers are the integral
  ones; [VNaN] is kept apart because [_.defaultTo] singles it out. *)
Inductive value :=
| VUndefined
| VNull
| VNaN
| VBool (b : bool)
| VNum (n : Z)
| VStr (s : string)
| VObject (fields : list (string * value)).

(** [_.defaultTo(v, d)]: [d] when [v] is [NaN], [null] or [undefined] *)
Definition defaultTo (v d : value) : value :=
  match v with
  | VUndefined | VNull | VNaN => d
  | _ => v
  end.

(** ** The expression model *)

(** A [Token] carries its kind [$type], its source tag, the [$path] map from
  an invalidated path to the condition under which it invalidates (in
  insertion order), and the [$invalidates], [$tracked] and [$id] tags.  An
  [Expression] is an array whose first element is a token. *)
Inductive node :=
| Scalar (v : value)
| Tok (t : token)
| Expr (head : token) (args : list node)
with token :=
| Token (type : string) (source : option string)
  (path : list (list node * node))
  (invalidates tracked : bool) (id : value).

Definition t_type (t : token) : string := let 'Token ty _ _ _ _ _ := t in ty.
Definition t_source (t : token) : option string := let 'Token _ s _ _ _ _ := t in s.
Definition t_path (t : token) : list (list node * node) := let 'Token _ _ p _ _ _ := t in p.
Definition t_invalidates (t : token) : bool := let 'Token _ _ _ i _ _ := t in i.
Definition t_tracked (t : token) : bool := let 'Token _ _ _ _ tr _ := t in tr.
Definition t_id (t : token) : value := let 'Token _ _ _ _ _ i := t in i.

(** [new Token(type, source)] *)
Definition newToken (type source : string) : token :=
  Token type (Some source) [] false false VUndefined.

Definition undefined : node := Scalar VUndefined.

(** [xs[i]] on an array of nodes *)
Definition at_index (xs : list node) (i : nat) : node := nth i xs undefined.

(** A setter expression: its kind ([setterType()]) and its parts, the root
  token first. *)
Record SetterExpression := {
  setterType : string;
  parts : list node
}.

(** ** Intermediate tables *)

Inductive IntermediateReference :=
| Ints (ref : Z)
| Primitives (ref : string)
| Projections (ref : string).

(** [r.ref]: a number for [ints], a hash otherwise *)
Inductive refKey := RNum (n : Z) | RHash (h : string).

Definition ref_of (r : IntermediateReference) : refKey :=
  match r with
  | Ints n => RNum n
  | Primitives h | Projections h => RHash h
  end.

Record IntermediateMetaData := {
  md_invalidates : bool;
  md_paths : option (list (IntermediateReference * list IntermediateReference))
}.

Record IntermediateProjection := {
  p_type : string;
  p_metaData : string;
  p_source : option string;
  p_args : list IntermediateReference
}.

(** What [exprHash] is applied to. *)
Inductive hashable :=
| HValue (v : value)
| HMetaData (m : IntermediateMetaData)
| HExpr (e : node)
| HPath (p : list Z).

Record ProjectionData := {
  getters : list (list Z);
  primitives : list value;
  topLevelNames : list Z;
  topLevelProjections : list Z;
  metaData : list (list Z);
  paths : list (list Z);
  setters : list (list Z);
  sources : list (option string)
}.

(** The compiler object: [this.getters], [this.setters], the names returned by
  the inherited [getRealGetters()], and [this.options.debug]. *)
Record Compiler := {
  this_getters : list (string * node);
  this_setters : list (string * SetterExpression);
  getRealGetters : list string;
  options_debug : bool
}.

(** The nesting depth of a node: a bound under which [serializeProjection]
  reaches every part of it. *)
Fixpoint depth (e : node) : nat :=
  match e with
  | Scalar _ => 1
  | Tok t => S (S (depthToken t))
  | Expr head args => S (S (Nat.max (depthToken head) (list_max (map depth args))))
  end
with depthToken (t : token) : nat :=
  match t with
  | Token _ _ path _ _ _ =>
      list_max (map (fun pc => let '(p, c) := pc in
                               Nat.max (list_max (map depth p)) (depth c)) path)
  end.

(** A bound that is enough for [this]. *)
Definition enoughFuel (this : Compiler) : nat :=
  S (S (Nat.max
          (list_max (map (fun entry => depth (snd entry)) (this_getters this)))
          (list_max (map (fun entry => list_max (map depth (parts (snd entry))))
                         (this_setters this))))).

(** ** Outcomes of a compile *)

(** [IntegrityError] is the error kind the specification gives to a
  hash-table mismatch. *)
Inductive error := TypeError | IntegrityError.

Inductive result (A : Type) :=
| Ok (a : A)
| Throw (e : error)
| OutOfFuel.
Arguments Ok {A} a.
Arguments Throw {A} e.
Arguments OutOfFuel {A}.

(** The three tables owned by one call of [buildProjectionData]. *)
Record tables := {
  projectionsByHash : list (string * IntermediateProjection);
  primitivesByHash : list (string * value);
  metaDataByHash : list (string * IntermediateMetaData)
}.

Definition emptyTables : tables :=
  {| projectionsByHash := []; primitivesByHash := []; metaDataByHash := [] |}.

(** A computation that reads and updates the tables and may throw. *)
Definition M (A : Type) : Type := tables -> result (A * tables).

Definition ret {A} (a : A) : M A := fun st => Ok (a, st).

Definition bind {A B} (m : M A) (k : A -> M B) : M B :=
  fun st =>
    match m st with
    | Ok (a, st') => k a st'
    | Throw e => Throw e
    | OutOfFuel => OutOfFuel
    end.

Definition throw {A} (e : error) : M A := fun _ => Throw e.

Declare Scope compile_scope.
Delimit Scope compile_scope with compile.
Notation "x <- m ;; k" := (bind m (fun x => k))
  (at level 100, m at next level, right associativity) : compile_scope.

(** [xs.map(f)] for an [f] that touches the tables: left to right *)
Fixpoint mapM {A B} (f : A -> M B) (xs : list A) : M (list B) :=
  match xs with
  | [] => ret []
  | x :: xs' => (y <- f x ;; ys <- mapM f xs' ;; ret (y :: ys))%compile
  end.

(** The record a token with no retained invalidation path and no
  [$invalidates] tag hands to [addMetaData]: the object with the one field
  [paths], an empty array. *)
Definition noMetaData : IntermediateMetaData :=
  {| md_invalidates := false; md_paths := Some [] |}.

(** ** What vm-compiler.ts imports and inherits

    [exprHash] (../expr-hash), [pathMatches] (../expr-tagging), the packing
    helpers of ./vm-rt and the methods inherited from the optimizing compiler
    are defined in other modules: the development is parametric in them. *)
Class Imports := {
  exprHash : hashable -> string;
  pathMatches : list node -> SetterExpression -> bool;
  topLevelToIndex : Compiler -> node -> value;
  shortSource : option string -> string;
  canBeStoredInRef : Z -> bool;
  packPrimitiveIndex : Z -> Z;
  packProjectionIndex : Z -> Z;
  InvalidatesFlag : Z
}.

Module VMCompiler.
Section BuildProjectionData.
Context `{Imports}.
Variable this : Compiler.

Local Open Scope compile_scope.

(** *** Hash-consing *)

Definition addPrimitive (p : value) : M string :=
  fun st =>
    let hash := exprHash (HValue (defaultTo p VNull)) in
    if JsObject.has (primitivesByHash st) hash then Ok (hash, st)
    else Ok (hash,
             {| projectionsByHash := projectionsByHash st;
                primitivesByHash := JsObject.set (primitivesByHash st) hash p;
                metaDataByHash := metaDataByHash st |}).

Definition addMetaData (m : IntermediateMetaData) : M string :=
  fun st =>
    let mdHash := exprHash (HMetaData m) in
    if JsObject.has (metaDataByHash st) mdHash then Ok (mdHash, st)
    else Ok (mdHash,
             {| projectionsByHash := projectionsByHash st;
                primitivesByHash := primitivesByHash st;
                metaDataByHash := JsObject.set (metaDataByHash st) mdHash m |}).

(** [projectionsByHash[hash] = p] *)
Definition setProjection (hash : string) (p : IntermediateProjection) : M unit :=
  fun st =>
    Ok (tt,
        {| projectionsByHash := JsObject.set (projectionsByHash st) hash p;
           primitivesByHash := primitivesByHash st;
           metaDataByHash := metaDataByHash st |}).

Definition hasProjection (hash : string) : M bool :=
  fun st => Ok (JsObject.has (projectionsByHash st) hash, st).

(** *** Property reads that can throw *)

(** [x.$type]: a [TypeError] on [undefined] and [null], the kind of a token,
    [undefined] (here [None]) on anything else *)
Definition dollar_type (x : node) : M (option string) :=
  match x with
  | Scalar VUndefined | Scalar VNull => throw TypeError
  | Tok t => ret (Some (t_type t))
  | _ => ret None
  end.

(** [x[SourceTag]] *)
Definition source_tag (x : node) : M (option string) :=
  match x with
  | Scalar VUndefined | Scalar VNull => throw TypeError
  | Tok t => ret (t_source t)
  | _ => ret None
  end.

Definition is_type (ty : option string) (s : string) : bool :=
  match ty with
  | Some ty' => String.eqb ty' s
  | None => false
  end.

(** [x instanceof Token && x.$type === s] *)
Definition isTokenOfType (x : node) (s : string) : bool :=
  match x with
  | Tok t => String.eqb (t_type t) s
  | _ => false
  end.

(** [_.defaultTo(x, d)] on an argument *)
Definition defaultToNode (x : node) (d : value) : node :=
  match x with
  | Scalar v => Scalar (defaultTo v d)
  | _ => x
  end.

(** *** The projection builder, one level (the recursive calls go through
    [serializeProjection]) *)
Section OneLevel.
Variable serializeProjection : node -> M IntermediateReference.

(** The body of [pathsThatInvalidate.forEach]: the entry pushed on
    [paths], if any. *)
Definition invalidationPath (cond : node) (invalidatedPath : list node)
  : M (option (IntermediateReference * list IntermediateReference)) :=
  condProj <- serializeProjection cond ;;
  let root := at_index invalidatedPath 0 in
  rootType <- dollar_type root ;;
  if is_type rootType "context" then
    steps <- mapM serializeProjection
               (root :: Scalar (VNum 0) :: skipn 1 invalidatedPath) ;;
    ret (Some (condProj, steps))
  else if (1 <? length invalidatedPath)%nat && is_type rootType "topLevel" then
    steps <- mapM serializeProjection
               (root :: Scalar (topLevelToIndex this (at_index invalidatedPath 1))
                     :: skipn 2 invalidatedPath) ;;
    ret (Some (condProj, steps))
  else
    getOfTopLevel <-
      (if (1 <? length invalidatedPath)%nat then
         match root with
         | Expr head args =>
             if String.eqb (t_type head) "get" then
               objType <- dollar_type (at_index args 1) ;;
               ret (is_type objType "topLevel")
             else ret false
         | _ => ret false
         end
       else ret false) ;;
    if getOfTopLevel
       || (is_type rootType "root"
           && (1 <? length invalidatedPath)%nat
           && (0 <? length (List.filter (fun setter => pathMatches invalidatedPath setter)
                                   (JsObject.values (this_setters this))))%nat)
    then
      steps <- mapM serializeProjection invalidatedPath ;;
      ret (Some (condProj, steps))
    else ret None.

(** [pathsThatInvalidate.forEach(...)], collecting [paths] *)
Fixpoint invalidationPaths (pathsThatInvalidate : list (list node * node))
  : M (list (IntermediateReference * list IntermediateReference)) :=
  match pathsThatInvalidate with
  | [] => ret []
  | (invalidatedPath, cond) :: rest =>
      entry <- invalidationPath cond invalidatedPath ;;
      paths <- invalidationPaths rest ;;
      ret (match entry with Some e => e :: paths | None => paths end)
  end.

(** [prependID] *)
Definition prependID (currentToken : token) (args : list node) : list node :=
  Scalar (if t_tracked currentToken then t_id currentToken else VNum (-1)) :: args.

(** [argsManipulators[$type] || _.identity], applied to [args] *)
Definition argsManipulators (expression : node) (currentToken : token)
    (type : string) (args : list node) : M (list node) :=
  if String.eqb type "get" then
    let prop := at_index args 0 in
    let obj := at_index args 1 in
    ret [obj;
         if isTokenOfType obj "topLevel" then Scalar (topLevelToIndex this prop)
         else prop]
  else if String.eqb type "trace" then
    let inner :=
      if (length args =? 2)%nat then at_index args 0
      else match expression with
           | Expr head _ => Tok head
           | _ => undefined
           end in
    let nextToken :=
      match inner with
      | Expr head _ => Tok head
      | _ => inner
      end in
    nextSrc <- source_tag nextToken ;;
    let innerSrc :=
      shortSource (match nextSrc with
                   | None | Some EmptyString => t_source currentToken
                   | Some _ => nextSrc
                   end) in
    nextType <- dollar_type nextToken ;;
    ret [at_index args 0;
         Scalar (match nextType with Some ty => VStr ty | None => VUndefined end);
         Scalar (VStr innerSrc)]
  else if String.eqb type "and" || String.eqb type "or" || String.eqb type "ternary"
  then ret (prependID currentToken args)
  else if String.eqb type "range" then
    ret [at_index args 0;
         defaultToNode (at_index args 1) (VNum 0);
         defaultToNode (at_index args 2) (VNum 1)]
  else ret args.

Definition generateProjectionFromExpression (expression : node)
  : M IntermediateProjection :=
  match expression with
  | Scalar _ => throw TypeError
  | Tok _ | Expr _ _ =>
      let currentToken :=
        match expression with
        | Expr head _ => head
        | Tok t => t
        | Scalar _ => newToken EmptyString EmptyString
        end in
      let expressionArgs :=
        match expression with
        | Expr _ args => args
        | _ => []
        end in
      let type_ := t_type currentToken in
      paths <- invalidationPaths (t_path currentToken) ;;
      type <- addPrimitive (VStr type_) ;;
      metaData <- addMetaData {| md_invalidates := t_invalidates currentToken;
                                 md_paths := Some paths |} ;;
      manipulated <- argsManipulators expression currentToken type_ expressionArgs ;;
      args <- mapM serializeProjection manipulated ;;
      ret {| p_type := type;
             p_metaData := metaData;
             p_source := if options_debug this
                         then Some (shortSource (t_source currentToken))
                         else None;
             p_args := args |}
  end.

(** The body of [serializeProjection]. *)
Definition serializeProjectionStep (expression : node) : M IntermediateReference :=
  match expression with
  | Scalar v =>
      match v with
      | VNum n =>
          if canBeStoredInRef n then ret (Ints n)
          else (h <- addPrimitive v ;; ret (Primitives h))
      | _ => h <- addPrimitive v ;; ret (Primitives h)
      end
  | Tok _ | Expr _ _ =>
      let hash := exprHash (HExpr expression) in
      present <- hasProjection hash ;;
      if present then ret (Projections hash)
      else
        p <- generateProjectionFromExpression expression ;;
        _ <- setProjection hash p ;;
        ret (Projections hash)
  end.
End OneLevel.

(** [serializeProjection], the recursion bounded by the nesting depth *)
Fixpoint serializeProjection (fuel : nat) (expression : node)
  : M IntermediateReference :=
  match fuel with
  | O => fun _ => OutOfFuel
  | S fuel' => serializeProjectionStep (serializeProjection fuel') expression
  end.

(** The reference [serializeProjection] returns for [expression], which does
  not depend on the tables. *)
Definition refOf (expression : node) : IntermediateReference :=
  match expression with
  | Scalar v =>
      match v with
      | VNum n =>
          if canBeStoredInRef n then Ints n
          else Primitives (exprHash (HValue (defaultTo v VNull)))
      | _ => Primitives (exprHash (HValue (defaultTo v VNull)))
      end
  | Tok _ | Expr _ _ => Projections (exprHash (HExpr expression))
  end.

(** *** Top levels and setters *)

(** [name[0] !== '$'] *)
Definition notDollar (name : string) : bool :=
  match name with
  | String c _ => negb (Ascii.eqb c "$"%char)
  | EmptyString => true
  end.

(** [this.getters[name]] *)
Definition getter (name : string) : node :=
  match JsObject.get (this_getters this) name with
  | Some e => e
  | None => undefined
  end.

(** One element of [intermediateTopLevels]: [{name, hash}]. *)
Definition intermediateTopLevel (fuel : nat) (name : string)
  : M (option string * refKey) :=
  proj <- serializeProjection fuel (getter name) ;;
  nameHash <- (if options_debug this || notDollar name
               then (h <- addPrimitive (VStr name) ;; ret (Some h))
               else ret None) ;;
  ret (nameHash, ref_of proj).

Definition IntermediateSetter : Type :=
  string * string * list IntermediateReference * Z.

Definition isToken (part : node) : bool :=
  match part with
  | Tok _ => true
  | _ => false
  end.

Definition serializeSetter (fuel : nat) (setter : SetterExpression) (name : string)
  : M IntermediateSetter :=
  let numTokens := Z.of_nat (length (List.filter isToken (parts setter))) - 1 in
  setterProjection <-
    mapM (fun token =>
            if isTokenOfType token "key"
            then serializeProjection fuel
                   (Tok (newToken ("arg" +:+ pretty (numTokens - 1)) EmptyString))
            else serializeProjection fuel token)
         (skipn 1 (parts setter)) ;;
  typeHash <- addPrimitive (VStr (setterType setter)) ;;
  nameHash <- addPrimitive (VStr name) ;;
  ret (typeHash, nameHash, setterProjection, numTokens).

(** *** The packer *)
Section Packer.
Variable st : tables.

Definition projectionHashes : list string := JsObject.keys (projectionsByHash st).
Definition primitiveHashes : list string := JsObject.keys (primitivesByHash st).
Definition mdHashes : list string := EmptyString :: JsObject.keys (metaDataByHash st).

Definition packRef (r : IntermediateReference) : Z :=
  match r with
  | Ints n => n
  | Primitives h => packPrimitiveIndex (indexOf primitiveHashes h)
  | Projections h => packProjectionIndex (indexOf projectionHashes h)
  end.

Definition packProjection (p : IntermediateProjection) : list Z :=
  indexOf primitiveHashes (p_type p)
  :: (if String.eqb (p_metaData p) EmptyString then 0 else indexOf mdHashes (p_metaData p))
  :: map packRef (p_args p).

(** [addPath], on the table [pathByHash] of the packing phase *)
Definition addPath (path : list Z) (pathByHash : list (string * list Z))
  : string * list (string * list Z) :=
  let hash := exprHash (HPath path) in
  if JsObject.has pathByHash hash then (hash, pathByHash)
  else (hash, JsObject.set pathByHash hash path).

(** [(md.paths || []).map(... addPath ...)] *)
Fixpoint addPaths
    (mdPaths : list (IntermediateReference * list IntermediateReference))
    (pathByHash : list (string * list Z))
  : list string * list (string * list Z) :=
  match mdPaths with
  | [] => ([], pathByHash)
  | (cond, path) :: rest =>
      let '(hash, pathByHash1) := addPath (packRef cond :: map packRef path) pathByHash in
      let '(hashes, pathByHash2) := addPaths rest pathByHash1 in
      (hash :: hashes, pathByHash2)
  end.

Definition packMetaData (md : IntermediateMetaData)
    (pathByHash : list (string * list Z))
  : (Z * list string) * list (string * list Z) :=
  let '(hashes, pathByHash') :=
    addPaths (match md_paths md with Some ps => ps | None => [] end) pathByHash in
  ((if md_invalidates md then InvalidatesFlag else 0, hashes), pathByHash').

(** [metaData2]: index [0] is the sentinel; the others are
    [packMetaData(metaDataByHash[hash])] for [hash] ranging over the
    table's own keys, that is, the stored records in table order. *)
Fixpoint packMetaDatas (records : list (string * IntermediateMetaData))
    (pathByHash : list (string * list Z))
  : list (Z * list string) * list (string * list Z) :=
  match records with
  | [] => ([], pathByHash)
  | (_, md) :: rest =>
      let '(packed, pathByHash1) := packMetaData md pathByHash in
      let '(others, pathByHash2) := packMetaDatas rest pathByHash1 in
      (packed :: others, pathByHash2)
  end.

Definition metaData2 : list (Z * list string) * list (string * list Z) :=
  let '(packed, pathByHash) := packMetaDatas (metaDataByHash st) [] in
  ((0, []) :: packed, pathByHash).

(** [metaData]: [[flags, ...paths.map(hash => pathHashes.indexOf(hash))]] *)
Definition flattenMetaData (pathHashes : list string) (md : Z * list string)
  : list Z :=
  fst md :: map (indexOf pathHashes) (snd md).

Definition packSetter (s : IntermediateSetter) : list Z :=
  let '(typeHash, nameHash, projection, numTokens) := s in
  indexOf primitiveHashes typeHash
  :: indexOf primitiveHashes nameHash
  :: numTokens
  :: map packRef projection.

(** [projectionHashes.indexOf(hash)], [hash] being a number when the top
    level is an inline integer *)
Definition packTopLevelProjection (tl : option string * refKey) : Z :=
  match snd tl with
  | RHash h => indexOf projectionHashes h
  | RNum _ => -1
  end.

(** [name ? primitiveHashes.indexOf(name) : -1] *)
Definition packTopLevelName (tl : option string * refKey) : Z :=
  match fst tl with
  | Some h => if String.eqb h EmptyString then -1 else indexOf primitiveHashes h
  | None => -1
  end.

(** [projectionsByHash[hash].source || null] *)
Definition sourceOrNull (p : IntermediateProjection) : option string :=
  match p_source p with
  | Some EmptyString | None => None
  | Some s => Some s
  end.

Definition pack (intermediateTopLevels : list (option string * refKey))
    (intermediateSetters : list IntermediateSetter) : ProjectionData :=
  let '(md2, pathByHash) := metaData2 in
  let pathHashes := JsObject.keys pathByHash in
  {| getters := map packProjection (JsObject.values (projectionsByHash st));
     primitives := JsObject.values (primitivesByHash st);
     topLevelNames := map packTopLevelName intermediateTopLevels;
     topLevelProjections := map packTopLevelProjection intermediateTopLevels;
     metaData := map (flattenMetaData pathHashes) md2;
     paths := JsObject.values pathByHash;
     setters := map packSetter intermediateSetters;
     sources := if options_debug this
                then map sourceOrNull (JsObject.values (projectionsByHash st))
                else [] |}.
End Packer.

(** [_.map(this.setters, serializeSetter)] *)
Definition serializeSetters (fuel : nat) : M (list IntermediateSetter) :=
  mapM (fun entry => serializeSetter fuel (snd entry) (fst entry)) (this_setters this).

(** The table-building phase of [buildProjectionData]. *)
Definition buildTables (fuel : nat)
  : M (list (option string * refKey) * list IntermediateSetter) :=
  intermediateTopLevels <- mapM (intermediateTopLevel fuel) (getRealGetters this) ;;
  intermediateSetters <- serializeSetters fuel ;;
  ret (intermediateTopLevels, intermediateSetters).

Definition buildProjectionData (fuel : nat) : result ProjectionData :=
  match buildTables fuel emptyTables with
  | Ok ((intermediateTopLevels, intermediateSetters), st) =>
      Ok (pack st intermediateTopLevels intermediateSetters)
  | Throw e => Throw e
  | OutOfFuel => OutOfFuel
  end.
End BuildProjectionData.

(** *** What the properties below are stated with *)

Section Statements.
Context `{Imports}.

(** What the specification asks of the primitives table: a value whose hash
  is taken by a different stored value is refused with [IntegrityError]. *)
Definition verifiesBeforeReuse : Prop :=
  forall (p stored : value) (st : tables),
    JsObject.get (primitivesByHash st) (exprHash (HValue (defaultTo p VNull))) = Some stored ->
    stored <> p ->
    addPrimitive p st = Throw IntegrityError.

(** [null], [undefined] (and [NaN]): the values [_.defaultTo(p, null)] turns
  into [null] *)
Definition nullish (v : value) : bool :=
  match v with
  | VUndefined | VNull | VNaN => true
  | _ => false
  end.

(** Every successful run of [m] moves the tables along [R]. *)
Definition respects (R : tables -> tables -> Prop) {A} (m : M A) : Prop :=
  forall st a st', m st = Ok (a, st') -> R st st'.

(** The tables are well formed: keys are unique and every entry sits under
  the hash of its value; a stored projection refers to a stored metadata
  record. *)
Definition wf_primitives (st : tables) : Prop :=
  List.NoDup (JsObject.keys (primitivesByHash st))
  /\ Forall (fun kv => fst kv = exprHash (HValue (defaultTo (snd kv) VNull)))
            (primitivesByHash st).

Definition wf_metaData (st : tables) : Prop :=
  List.NoDup (JsObject.keys (metaDataByHash st))
  /\ Forall (fun kv => fst kv = exprHash (HMetaData (snd kv))) (metaDataByHash st).

(** A stored projection refers to a metadata record of the table. *)
Definition refersToMetaData (st : tables) (p : IntermediateProjection) : Prop :=
  In (p_metaData p) (JsObject.keys (metaDataByHash st))
  /\ exists m, p_metaData p = exprHash (HMetaData m).

Definition wf_projections (st : tables) : Prop :=
  List.NoDup (JsObject.keys (projectionsByHash st))
  /\ Forall (fun kv => refersToMetaData st (snd kv)) (projectionsByHash st).

Definition wf (st : tables) : Prop :=
  wf_primitives st /\ wf_metaData st /\ wf_projections st.

(** How the tables evolve during a compile. *)
Definition extends (st st' : tables) : Prop :=
  (wf st -> wf st')
  /\ incl (JsObject.keys (metaDataByHash st)) (JsObject.keys (metaDataByHash st')).

(** The reference [r] is an integer that fits a reference, or points at an
  entry of the tables. *)
Definition resolves (st : tables) (r : IntermediateReference) : Prop :=
  match r with
  | Ints n => canBeStoredInRef n = true
  | Primitives h => In h (JsObject.keys (primitivesByHash st))
  | Projections h => In h (JsObject.keys (projectionsByHash st))
  end.

Definition resolvesPath (st : tables)
    (entry : IntermediateReference * list IntermediateReference) : Prop :=
  resolves st (fst entry) /\ Forall (resolves st) (snd entry).

Definition resolvesMetaData (st : tables) (m : IntermediateMetaData) : Prop :=
  match md_paths m with
  | Some ps => Forall (resolvesPath st) ps
  | None => True
  end.

Definition resolvesProjection (st : tables) (p : IntermediateProjection) : Prop :=
  In (p_type p) (JsObject.keys (primitivesByHash st))
  /\ In (p_metaData p) (JsObject.keys (metaDataByHash st))
  /\ Forall (resolves st) (p_args p).

(** No stored projection and no stored metadata record holds a reference
  that leads nowhere. *)
Definition closed (st : tables) : Prop :=
  Forall (fun kv => resolvesProjection st (snd kv)) (projectionsByHash st)
  /\ Forall (fun kv => resolvesMetaData st (snd kv)) (metaDataByHash st).

(** [st'] is [st] with entries added at the end of its tables (a stored
  projection may have been replaced, in place). *)
Definition appends (st st' : tables) : Prop :=
  (exists more, primitivesByHash st' = primitivesByHash st ++ more)
  /\ (exists more, metaDataByHash st' = metaDataByHash st ++ more)
  /\ (exists more, JsObject.keys (projectionsByHash st')
                   = JsObject.keys (projectionsByHash st) ++ more).

Definition accumulates (st st' : tables) : Prop :=
  appends st st' /\ (closed st -> closed st').

(** A packed reference of [pd]: an integer that fits a reference, or the
  tagged index of one of the primitives or of one of the getters of [pd]. *)
Definition packedRef (pd : ProjectionData) (z : Z) : Prop :=
  canBeStoredInRef z = true
  \/ (exists i, z = packPrimitiveIndex i /\ 0 <= i < Z.of_nat (length (primitives pd)))
  \/ (exists j, z = packProjectionIndex j /\ 0 <= j < Z.of_nat (length (getters pd))).

(** [i] is an index of the array [xs]. *)
Definition indexes {A} (xs : list A) (i : Z) : Prop := 0 <= i < Z.of_nat (length xs).

(** What [intermediateTopLevels] holds for the top level [name], within the
  tables [st]: the hash of the name, interned, unless the name is hidden; and
  the key of a reference that resolves. *)
Definition topLevelOk (this : Compiler) (st : tables) (name : string)
    (tl : option string * refKey) : Prop :=
  match fst tl with
  | Some h => options_debug this || notDollar name = true
              /\ h = exprHash (HValue (VStr name))
              /\ In h (JsObject.keys (primitivesByHash st))
  | None => options_debug this || notDollar name = false
  end
  /\ snd tl = ref_of (refOf (getter this name))
  /\ resolves st (refOf (getter this name)).

(** What [intermediateSetters] holds for the setter [entry]. *)
Definition setterOk (st : tables) (entry : string * SetterExpression)
    (s : IntermediateSetter) : Prop :=
  let '(typeHash, nameHash, projection, numTokens) := s in
  In typeHash (JsObject.keys (primitivesByHash st))
  /\ In nameHash (JsObject.keys (primitivesByHash st))
  /\ Forall (resolves st) projection
  /\ length projection = length (skipn 1 (parts (snd entry)))
  /\ numTokens = Z.of_nat (length (List.filter isToken (parts (snd entry)))) - 1.

(** [m] does not stop for lack of fuel. *)
Definition finishes {A} (m : M A) : Prop := forall st, m st <> OutOfFuel.


(** [r'] is [r], unless [r] ran out of fuel. *)
Definition finishes_as {A} (r r' : result A) : Prop := r = OutOfFuel \/ r = r'.

Definition refines {A} (m m' : M A) : Prop := forall st, finishes_as (m st) (m' st).

End Statements.
End VMCompiler.

(** ** A concrete set of imports

    Used to run the compiler on examples. *)
Module Sample.

Fixpoint show_value (v : value) : string :=
  match v with
  | VUndefined => "undefined"
  | VNull => "null"
  | VNaN => "NaN"
  | VBool true => "true"
  | VBool false => "false"
  | VNum n => pretty n
  | VStr s => "'" +:+ s +:+ "'"
  | VObject fields =>
      "{" +:+ (fix go (fs : list (string * value)) : string :=
                 match fs with
                 | [] => EmptyString
                 | (k, x) :: fs' => k +:+ ":" +:+ show_value x +:+ "," +:+ go fs'
                 end) fields +:+ "}"
  end.

Definition show_bool (b : bool) : string := if b then "1" else "0".

Fixpoint show_node (e : node) : string :=
    match e with
    | Scalar v => show_value v
    | Tok t => show_token t
    | Expr head args =>
        "[" +:+ show_token head +:+
        (fix go (xs : list node) : string :=
           match xs with
           | [] => EmptyString
           | x :: xs' => "," +:+ show_node x +:+ go xs'
           end) args +:+ "]"
    end
  with show_token (t : token) : string :=
    match t with
    | Token type source path invalidates tracked id =>
        "*" +:+ type +:+ "/" +:+ show_bool invalidates +:+ show_bool tracked +:+
        show_value id +:+ "<" +:+
        (fix paths (ps : list (list node * node)) : string :=
           match ps with
           | [] => EmptyString
           | (p, c) :: ps' =>
               (fix go (xs : list node) : string :=
                  match xs with
                  | [] => EmptyString
                  | x :: xs' => show_node x +:+ "." +:+ go xs'
                  end) p +:+ "?" +:+ show_node c +:+ ";" +:+ paths ps'
           end) path +:+ ">"
    end.

Definition show_ref (r : IntermediateReference) : string :=
  match r with
  | Ints n => "i" +:+ pretty n
  | Primitives h => "p(" +:+ h +:+ ")"
  | Projections h => "e(" +:+ h +:+ ")"
  end.

Definition show_list {A} (f : A -> string) (xs : list A) : string :=
  fold_right (fun x acc => f x +:+ "," +:+ acc) EmptyString xs.

Definition show_metaData (m : IntermediateMetaData) : string :=
  show_bool (md_invalidates m) +:+
  match md_paths m with
  | Some ps =>
      "[" +:+ show_list (fun e => show_ref (fst e) +:+ ":" +:+ show_list show_ref (snd e)) ps
      +:+ "]"
  | None => "-"
  end.

(** Modelled from the spec: [exprHash] (../expr-hash), "a fixed hash of the
    canonical serialization"; here the tagged serialization itself. *)
Definition sample_exprHash (x : hashable) : string :=
  match x with
  | HValue v => "v:" +:+ show_value v
  | HMetaData m => "m:" +:+ show_metaData m
  | HExpr e => "e:" +:+ show_node e
  | HPath p => "q:" +:+ show_list pretty p
  end.

(** Modelled from the spec: [pathMatches] (../expr-tagging), the "prefix
    match against each setter's step sequence": the path and the setter
    agree step by step as far as both go. *)
Definition sample_pathMatches (path : list node) (setter : SetterExpression) : bool :=
  forallb (fun ab => String.eqb (show_node (fst ab)) (show_node (snd ab)))
          (combine path (parts setter)).

(** Modelled from the spec: [topLevelToIndex], the "top-level index" of a
    name, its position among the top levels. *)
Definition sample_topLevelToIndex (this : Compiler) (name : node) : value :=
  match name with
  | Scalar (VStr s) => VNum (indexOf (getRealGetters this) s)
  | _ => VUndefined
  end.

(** Modelled from the spec: the packing of ./vm-rt, "two tag bits plus a
    payload", with a payload of 24 bits. *)
#[export] Instance sample : Imports := {|
    exprHash := sample_exprHash;
    pathMatches := sample_pathMatches;
    topLevelToIndex := sample_topLevelToIndex;
    shortSource := fun s => match s with Some s' => s' | None => "?" end;
    canBeStoredInRef := fun n => (0 <=? n) && (n <? 2 ^ 24);
    packPrimitiveIndex := fun i => Z.lor i (2 ^ 24);
    packProjectionIndex := fun i => Z.lor i (2 ^ 25);
    InvalidatesFlag := 1
  |}.

Definition tok (type : string) : token := Token type None [] false false VUndefined.
Definition root : node := Tok (tok "root").
Definition str (s : string) : node := Scalar (VStr s).

(** [root.get('a')]: the expression [[get, 'a', root]] *)
Definition get_a : node := Expr (tok "get") [str "a"; root].

Definition setA : SetterExpression := {| setterType := "set"; parts := [root; str "a"] |}.

Definition model1 : Compiler :=
  {| this_getters := [("x", get_a)];
     this_setters := [("setA", setA)];
     getRealGetters := ["x"];
     options_debug := false |}.

(** What [buildProjectionData] returns for [model1]. *)
Definition compiled1 : ProjectionData :=
  {| getters := [[1; 1]; [0; 1; 33554432; 16777218]];
     primitives := [VStr "get"; VStr "root"; VStr "a"; VStr "x"; VStr "set"; VStr "setA"];
     topLevelNames := [3];
     topLevelProjections := [1];
     metaData := [[0]; [0]];
     paths := [];
     setters := [[4; 5; 0; 16777218]];
     sources := [] |}.

(** A getter whose head token is tagged: it invalidates, and its [$path]
  map says that it depends on [root.a], unconditionally. *)
Definition watched : token :=
  Token "get" None [([root; str "a"], Scalar (VBool true))] true false VUndefined.

Definition model2 : Compiler :=
  {| this_getters := [("x", Expr watched [str "a"; root]); ("$hidden", Scalar (VNum 7))];
     this_setters := [("setA", setA)];
     getRealGetters := ["x"; "$hidden"];
     options_debug := false |}.

(** What [buildProjectionData] returns for [model2]. *)
Definition compiled2 : ProjectionData :=
  {| getters := [[1; 1]; [3; 2; 33554432; 16777218]];
     primitives := [VBool true; VStr "root"; VStr "a"; VStr "get";
                    VStr "x"; VStr "set"; VStr "setA"];
     topLevelNames := [4; -1];
     topLevelProjections := [1; -1];
     metaData := [[0]; [0]; [1; 0]];
     paths := [[16777216; 33554432; 16777218]];
     setters := [[5; 6; 0; 16777218]];
     sources := [] |}.
End Sample.

(** ** The runtime template: the model *)

Module Runtime.

(** Values of the live model.  Objects and arrays live in a store and are held
  by reference, so that two places of the model may share one container. *)
Inductive val :=
| Undefined
| Null
| Bool (b : bool)
| Num (n : Z)
| Str (s : string)
| Ref (l : nat).

(** An element of a path: a string or a number ([typeof] tells them apart). *)
Inductive key := KStr (s : string) | KNum (n : Z).

(** The property a key names: [o[1]] and [o['1']] are the same property. *)
Definition propertyKey (k : key) : string :=
  match k with
  | KStr s => s
  | KNum n => pretty n
  end.

(** The names that [Object.prototype] defines (ECMAScript 2015, Annex B
  included). *)
Definition objectPrototype : list string :=
  ["constructor"; "hasOwnProperty"; "isPrototypeOf"; "propertyIsEnumerable";
   "toLocaleString"; "toString"; "valueOf";
   "__defineGetter__"; "__defineSetter__"; "__lookupGetter__"; "__lookupSetter__";
   "__proto__"].

Fixpoint position (name : string) (names : list string) : option nat :=
  match names with
  | [] => None
  | n :: names' =>
      if String.eqb n name then Some O
      else match position name names' with
           | Some i => Some (S i)
           | None => None
           end
  end.

(** A container: an array or a plain object, with its own properties in
  insertion order.  Inherited properties and the [length] of arrays are not
  part of the model: the keys of a path are names of data properties. *)
Record object := {
  isArray : bool;
  properties : list (string * val)
}.

Definition heap := list object.

(** JavaScript truthiness *)
Definition truthy (v : val) : bool :=
  match v with
  | Undefined | Null => false
  | Bool b => b
  | Num n => negb (n =? 0)
  | Str s => negb (String.eqb s EmptyString)
  | Ref _ => true
  end.

(** How a call ends: it returns or it throws; the store it leaves behind is
  kept in both cases. *)
Inductive outcome (A : Type) :=
| Returned (a : A)
| Threw (e : error).
Arguments Returned {A} a.
Arguments Threw {A} e.

Section Model.
(** [$model], and whether the template runs as strict-mode code (an
  assignment to a property of a primitive is then a [TypeError] instead of
  being ignored). *)
Variable model : val.
Variable strict : bool.

(** [v[k]] *)
Definition getProperty (h : heap) (v : val) (k : key) : outcome val :=
  match v with
  | Undefined | Null => Threw TypeError
  | Ref l =>
      match nth_error h l with
      | Some o =>
          Returned (match JsObject.get (properties o) (propertyKey k) with
                    | Some x => x
                    | None => Undefined
                    end)
      | None => Returned Undefined
      end
  | Bool _ | Num _ | Str _ => Returned Undefined
  end.

(** [keys.reduce(function(agg, p) {return agg[p];}, v)] *)
Fixpoint reduceGet (h : heap) (v : val) (keys : list key) : outcome val :=
  match keys with
  | [] => Returned v
  | p :: keys' =>
      match getProperty h v p with
      | Returned v' => reduceGet h v' keys'
      | Threw e => Threw e
      end
  end.

(** [getAssignableObject(path, index)] *)
Definition getAssignableObject (h : heap) (path : list key) (index : nat) : outcome val :=
  reduceGet h model (firstn index path).

(** [o.properties] with [name] set to [v] *)
Definition setOwn (o : object) (name : string) (v : val) : object :=
  {| isArray := isArray o; properties := JsObject.set (properties o) name v |}.

(** Replaces the object at [l]. *)
Fixpoint update (h : heap) (l : nat) (o : object) : heap :=
  match h, l with
  | [], _ => []
  | _ :: h', O => o :: h'
  | o' :: h', S l' => o' :: update h' l' o
  end.

(** [assignable[k] = lastType === 'number' ? [] : {}].  The fresh container
  is added to the store when it is stored in an object; assigned to a
  property of a primitive it is garbage at once. *)
Definition assignContainer (h : heap) (assignable : val) (k : key) (array : bool)
  : heap * outcome unit :=
  match assignable with
  | Undefined | Null => (h, Threw TypeError)
  | Ref l =>
      match nth_error h l with
      | Some o =>
          let fresh := length h in
          (update h l (setOwn o (propertyKey k) (Ref fresh))
             ++ [{| isArray := array; properties := [] |}],
           Returned tt)
      | None => (h, Returned tt)
      end
  | Bool _ | Num _ | Str _ =>
      (h, if strict then Threw TypeError else Returned tt)
  end.

(** [typeof k === 'number'] *)
Definition isNumber (k : key) : bool :=
  match k with
  | KNum _ => true
  | KStr _ => false
  end.

(** [path[i]]; the callers only read positions that exist *)
Definition keyAt (path : list key) (i : nat) : key := nth i path (KStr "undefined").

(** The part of [ensurePath] after the recursive call. *)
Definition ensureLast (path : list key) (h : heap) : heap * outcome unit :=
  let lastObjectKey := keyAt path (length path - 2) in
  match getAssignableObject h path (length path - 2) with
  | Threw e => (h, Threw e)
  | Returned assignable =>
      match getProperty h assignable lastObjectKey with
      | Threw e => (h, Threw e)
      | Returned present =>
          if truthy present then (h, Returned tt)
          else assignContainer h assignable lastObjectKey
                 (isNumber (keyAt path (length path - 1)))
      end
  end.

(** [path.slice(0, path.length - 1)] *)
Definition dropLast (path : list key) : list key := firstn (length path - 1) path.

Equations ensurePath (path : list key) (h : heap) : heap * outcome unit
  by wf (length path) lt :=
ensurePath path h with le_lt_dec 2 (length path) := {
  | right _ => (h, Returned tt)
  | left _ with le_lt_dec (length path) 2 := {
      | left _ => ensureLast path h
      | right _ with ensurePath (dropLast path) h := {
          | (h', Returned _) => ensureLast path h'
          | (h', Threw e) => (h', Threw e) } } }.
Next Obligation.
  unfold dropLast. rewrite length_firstn. lia.
Qed.
(** [delete o[k]] on a dictionary *)
Fixpoint deleteKey {V} (o : list (string * V)) (k : string) : list (string * V) :=
  match o with
  | [] => []
  | (k', v) :: o' => if String.eqb k' k then o' else (k', v) :: deleteKey o' k
  end.

(** [applySetter(object, key, value)] *)
Definition applySetter (h : heap) (object_ : val) (k : key) (value : val)
  : heap * outcome unit :=
  match object_ with
  | Undefined | Null => (h, Threw TypeError)
  | Ref l =>
      match nth_error h l with
      | Some o =>
          (update h l
             (match value with
              | Undefined =>
                  {| isArray := isArray o;
                     properties := deleteKey (properties o) (propertyKey k) |}
              | _ => setOwn o (propertyKey k) value
              end),
           Returned tt)
      | None => (h, Returned tt)
      end
  | Bool _ | Num _ | Str _ =>
      match value with
      | Undefined => (h, Returned tt)
      | _ => (h, if strict then Threw TypeError else Returned tt)
      end
  end.

(** [set(path, value)] *)
Definition set (path : list key) (value : val) (h : heap) : heap * outcome unit :=
  match ensurePath path h with
  | (h', Threw e) => (h', Threw e)
  | (h', Returned _) =>
      match getAssignableObject h' path (length path - 1) with
      | Threw e => (h', Threw e)
      | Returned object_ =>
          applySetter h' object_ (keyAt path (length path - 1)) value
      end
  end.
End Model.

(** *** What the properties below are stated with *)

(** A reference is allocated. *)
Definition valid (h : heap) (v : val) : Prop :=
  match v with
  | Ref l => (l < length h)%nat
  | _ => True
  end.

(** A model state: the model and every stored value refer to allocated
  containers only. *)
Definition wf_heap (model : val) (h : heap) : Prop :=
  valid h model
  /\ Forall (fun o => Forall (fun kv => valid h (snd kv)) (properties o)) h.

(** [h1] is [h] with more containers and with values given to properties that
  held none or held a falsy one. *)
Definition grows (h h1 : heap) : Prop :=
  (length h <= length h1)%nat
  /\ forall l o, nth_error h l = Some o ->
       exists o1, nth_error h1 l = Some o1
                  /\ forall name x, JsObject.get (properties o) name = Some x ->
                                    truthy x = true ->
                                    JsObject.get (properties o1) name = Some x.

Definition isPrimitive (v : val) : Prop :=
  match v with
  | Ref _ => False
  | _ => True
  end.

(** The values [keys.reduce(function(agg, p) {return agg[p];}, v)] reads a
  property of, in order. *)
Fixpoint readFrom (h : heap) (v : val) (keys : list key) : list val :=
  match keys with
  | [] => []
  | p :: keys' =>
      v :: match getProperty h v p with
           | Returned v' => readFrom h v' keys'
           | Threw _ => []
           end
  end.

(** The keys for which a container is no more than its own data properties:
  on a plain object, a number or a name that [Object.prototype] does not
  define; on an array, a number (a name may be [length] or one of the
  methods of [Array.prototype], which vary with the engine).  Numbers are
  those that [String] prints with all their digits and that a double holds
  exactly. *)
Definition ordinary (array : bool) (k : key) : bool :=
  match k with
  | KNum n => Z.abs n <=? 9007199254740992
  | KStr s => negb array && negb (existsb (String.eqb s) objectPrototype)
  end.

(** The walk [keys.reduce(function(agg, p) {return agg[p];}, v)] reads
  properties of containers of the store only, each under a key that is
  ordinary for it. *)
Fixpoint ordinaryWalk (h : heap) (v : val) (keys : list key) : bool :=
  match keys with
  | [] => true
  | p :: keys' =>
      match v with
      | Ref l =>
          match nth_error h l with
          | Some o =>
              ordinary (isArray o) p
              && match getProperty h v p with
                 | Returned v' => ordinaryWalk h v' keys'
                 | Threw _ => false
                 end
          | None => false
          end
      | _ => false
      end
  end.

(** The own properties of a string: [length] and the indices of its
  characters. *)
Definition ownOfString (s : string) (name : string) : bool :=
  String.eqb name "length"
  || existsb (fun i => String.eqb name (pretty (Z.of_nat i))) (seq 0 (String.length s)).

(** The store after [o[name] = fresh container] on the object [o] at [l]. *)
Definition written (h : heap) (l : nat) (o : object) (name : string) (array : bool) : heap :=
  update h l (setOwn o name (Ref (length h))) ++ [{| isArray := array; properties := [] |}].

End Runtime.

(** ** The runtime template: [loopFunction] and [recursiveMapValues]

    [resolved] and [res] are plain objects ([{}]): a read of a name they have
    no own property of finds what [Object.prototype] defines under that
    name, and an assignment to [__proto__] goes to the setter kept there. *)

Module Library.
Import Runtime.

(** The code of a user function [func(val, key, context, loop)], as far as
  the traversal can tell: it returns a value, or it calls [loop(key)] and
  goes on with what the call returned. *)
Inductive code :=
| Return (v : val)
| Loop (k : key) (next : val -> code).

(** What a plain object inherits under [name]: a function or, under
  [__proto__], [Object.prototype] itself.  It is an object in both cases,
  written as a reference (the place of the name in the list above). *)
Definition inherited (name : string) : option val :=
  match position name objectPrototype with
  | Some i => Some (Ref i)
  | None => None
  end.

(** [o[k]] for a plain object with the own properties [o] *)
Definition read (o : list (string * val)) (k : string) : val :=
  match JsObject.get o k with
  | Some v => v
  | None =>
      match inherited k with
      | Some v => v
      | None => Undefined
      end
  end.

(** [o[k] = v] for such an object.  [__proto__] is an accessor of
  [Object.prototype]: unless the object has an own property of that name,
  the assignment calls the setter, which creates no property (given an
  object or [null] it replaces the prototype of [o]; given anything else,
  as the [false] and [true] stored in [resolved], it does nothing). *)
Definition assign {V} (o : list (string * V)) (k : string) (v : V) : list (string * V) :=
  if String.eqb k "__proto__" && negb (JsObject.has o k) then o
  else JsObject.set o k v.

(** The two objects shared by all the calls of [loopFunction] made for one
  [recursiveMapValues], and what happened so far (kept only to state
  properties): the keys [func] was invoked for, in order; the keys whose
  invocation has not returned yet, innermost first; and what [loop]
  returned each time it was called for such a key. *)
Record traversal := {
  resolved : list (string * bool);
  res : list (string * val);
  invoked : list string;
  computing : list string;
  reentered : list (string * val)
}.

Section Traversal.
Variable func : val -> key -> val -> code.
Variable src : list (string * val).
Variable context : val.

(** [resolved[key]], as a condition *)
Definition isResolved (t : traversal) (k : string) : bool :=
  match JsObject.get (resolved t) k with
  | Some b => b
  | None =>
      match inherited k with
      | Some v => truthy v
      | None => false
      end
  end.

(** Runs the code of the user function, [loop] being what it was given. *)
Fixpoint runCode (loop : key -> traversal -> traversal * result val)
    (c : code) (t : traversal) : traversal * result val :=
  match c with
  | Return v => (t, Ok v)
  | Loop k next =>
      match loop k t with
      | (t', Ok v) => runCode loop (next v) t'
      | (t', Throw e) => (t', Throw e)
      | (t', OutOfFuel) => (t', OutOfFuel)
      end
  end.

(** [loopFunction(resolved, res, func, src, context, key)]; the [loop] handed
  to [func] is [loopFunction] bound to the same objects. *)
Fixpoint loopFunction (fuel : nat) (k : key) (t : traversal) : traversal * result val :=
  match fuel with
  | O => (t, OutOfFuel)
  | S fuel' =>
      let name := propertyKey k in
      if isResolved t name then
        let v := read (res t) name in
        ({| resolved := resolved t; res := res t; invoked := invoked t;
            computing := computing t;
            reentered := if existsb (String.eqb name) (computing t)
                         then reentered t ++ [(name, v)]
                         else reentered t |},
         Ok v)
      else
        let t1 := {| resolved := assign (resolved t) name true;
                     res := res t;
                     invoked := invoked t ++ [name];
                     computing := name :: computing t;
                     reentered := reentered t |} in
        match runCode (loopFunction fuel') (func (read src name) k context) t1 with
        | (t2, Ok v) =>
            let t3 := {| resolved := resolved t2;
                         res := assign (res t2) name v;
                         invoked := invoked t2;
                         computing := tl (computing t2);
                         reentered := reentered t2 |} in
            (t3, Ok (read (res t3) name))
        | (t2, Throw e) => (t2, Throw e)
        | (t2, OutOfFuel) => (t2, OutOfFuel)
        end
  end.

(** [keys.forEach(function(key) { loopFunction(resolved, res, func, src, context, key); })] *)
Fixpoint forEachKey (fuel : nat) (keys : list string) (t : traversal) : traversal * result unit :=
  match keys with
  | [] => (t, Ok tt)
  | k :: keys' =>
      match loopFunction fuel (KStr k) t with
      | (t', Ok _) => forEachKey fuel keys' t'
      | (t', Throw e) => (t', Throw e)
      | (t', OutOfFuel) => (t', OutOfFuel)
      end
  end.

(** [var res = {}; var resolved = {};
    Object.keys(src).forEach(function(key) { return (resolved[key] = false);})] *)
Definition start (keys : list string) : traversal :=
  {| resolved := fold_left (fun o k => assign o k false) keys [];
     res := []; invoked := []; computing := []; reentered := [] |}.

(** [recursiveMapValues(func, src, context)]: [src] is given by its own
  properties, in the order [Object.keys] lists them. *)
Definition recursiveMapValues (fuel : nat) : traversal * result unit :=
  let keys := JsObject.keys src in
  forEachKey fuel keys (start keys).
End Traversal.

(** *** What the properties below are stated with *)

(** A read of [name] that finds no own property. *)
Definition absent (name : string) : val := read [] name.

(** What holds of the shared objects between any two steps of a traversal. *)
Definition consistent (t : traversal) : Prop :=
  List.NoDup (invoked t)
  /\ JsObject.has (resolved t) "__proto__" = false
  /\ (forall n, JsObject.get (resolved t) n = Some true <-> In n (invoked t))
  /\ (forall n, JsObject.has (res t) n = true -> In n (invoked t))
  /\ (forall n, In n (computing t) ->
                In n (invoked t) /\ JsObject.has (res t) n = false)
  /\ (forall n v, In (n, v) (reentered t) -> v = absent n).

(** What a call of [loop] or of the user function does to them. *)
Definition advances (t t' : traversal) (returned : bool) : Prop :=
  consistent t'
  /\ (forall n, In n (invoked t) -> In n (invoked t'))
  /\ (forall n, JsObject.has (resolved t) n = true -> JsObject.has (resolved t') n = true)
  /\ (returned = true -> computing t' = computing t).

Definition returned {A} (r : result A) : bool :=
  match r with
  | Ok _ => true
  | _ => false
  end.

(** The source [{a, b, c}] with [a] looping to [b] (twice) and [b] looping
  back to [a]. *)
Definition cyclic : val -> key -> val -> code :=
  fun v k _ =>
    match k with
    | KStr "a" => Loop (KStr "b") (fun x => Loop (KStr "b") (fun y => Return (Str "done")))
    | KStr "b" => Loop (KStr "a") (fun x => Return x)
    | _ => Return v
    end.

(** The traversal of [cyclic] at the moment [b] calls [loop('a')]. *)
Definition midway : traversal :=
  {| resolved := [("a", true); ("b", true); ("c", false)];
     res := []; invoked := ["a"; "b"]; computing := ["b"; "a"]; reentered := [] |}.

(** [(val, key, context, loop) => loop(key)]: every value is defined as
  itself. *)
Definition selfReference : val -> key -> val -> code :=
  fun _ k _ => Loop k (fun x => Return x).

End Library.

(** ** The runtime template: the library of collection functions

    The functions of the library build their results afresh and never write
    to their arguments, so that a value is modelled as a tree.  An object is
    the list of its own properties in the order [Object.keys] gives them,
    its prototype being [Object.prototype]; an array is the list of its
    elements, a hole being [None]; a number is an integer that a double
    holds; strings are made of ASCII characters. *)

Module Collections.

Inductive data :=
| DUndefined
| DNull
| DBool (b : bool)
| DNum (n : Z)
| DStr (s : string)
| DArr (items : list (option data))
| DObj (fields : list (string * data)).

(** What a call may throw: [new Error(message)], a [TypeError] of the
  language, or whatever a user function throws. *)
Inductive exception :=
| JsError (message : string)
| JsTypeError
| Raised (v : data).

Inductive outcome (A : Type) :=
| Returned (a : A)
| Threw (e : exception).
Arguments Returned {A} a.
Arguments Threw {A} e.

(** A user function [func(val, key, context)] *)
Definition callback : Type := data -> data -> data -> outcome data.

Definition truthy (v : data) : bool :=
  match v with
  | DUndefined | DNull => false
  | DBool b => b
  | DNum n => negb (n =? 0)
  | DStr s => negb (String.eqb s EmptyString)
  | DArr _ | DObj _ => true
  end.

(** The name of the property [o[v]] reads or writes: [String(v)].  A number
  is printed with all its digits, which is what [String] does below
  [10^21]. *)
Fixpoint toString (v : data) : string :=
  match v with
  | DUndefined => "undefined"
  | DNull => "null"
  | DBool true => "true"
  | DBool false => "false"
  | DNum n => pretty n
  | DStr s => s
  | DArr items =>
      (fix join (xs : list (option data)) : string :=
         match xs with
         | [] => EmptyString
         | x :: xs' =>
             let item := match x with
                         | None | Some DUndefined | Some DNull => EmptyString
                         | Some y => toString y
                         end in
             match xs' with
             | [] => item
             | _ :: _ => item +:+ "," +:+ join xs'
             end
         end) items
  | DObj _ => "[object Object]"
  end.

(** The numbers that [toString] prints as [String] does, and that doubles
  add without rounding: those up to [2^53] in absolute value. *)
Definition exact (n : Z) : bool := Z.abs n <=? 9007199254740992.

(** [toString v] is [String(v)]: the numbers it prints are exact, and the
  objects have no property [toString] of their own (it would be called, or,
  not being a function, make [String] throw). *)
Fixpoint printable (v : data) : bool :=
  match v with
  | DNum n => exact n
  | DArr items =>
      forallb (fun x => match x with
                        | Some y => printable y
                        | None => true
                        end) items
  | DObj fields => negb (JsObject.has fields "toString")
  | _ => true
  end.

(** [typeof v] *)
Definition typeOf (v : data) : string :=
  match v with
  | DUndefined => "undefined"
  | DBool _ => "boolean"
  | DNum _ => "number"
  | DStr _ => "string"
  | DNull | DArr _ | DObj _ => "object"
  end.

(** [Array.isArray(v)] *)
Definition isArray (v : data) : bool :=
  match v with
  | DArr _ => true
  | _ => false
  end.

(** [o[k]] for an own property [k] of [o] *)
Definition read (o : list (string * data)) (k : string) : data :=
  match JsObject.get o k with
  | Some v => v
  | None => DUndefined
  end.

(** The characters of a string *)
Fixpoint characters (s : string) : list data :=
  match s with
  | EmptyString => []
  | String c s' => DStr (String c EmptyString) :: characters s'
  end.

(** The index properties of an array or of a string, from the index [i] on:
  a hole is no property. *)
Fixpoint indexedFrom (i : nat) (xs : list (option data)) : list (string * data) :=
  match xs with
  | [] => []
  | Some x :: xs' => (pretty (Z.of_nat i), x) :: indexedFrom (S i) xs'
  | None :: xs' => indexedFrom (S i) xs'
  end.

(** [Object.keys(src)], each key with [src[key]] *)
Definition ownProperties (src : data) : outcome (list (string * data)) :=
  match src with
  | DUndefined | DNull => Threw JsTypeError
  | DBool _ | DNum _ => Returned []
  | DStr s => Returned (indexedFrom 0 (map Some (characters s)))
  | DArr items => Returned (indexedFrom 0 items)
  | DObj fields => Returned (map (fun key => (key, read fields key)) (JsObject.keys fields))
  end.

(** [xs.reduce(step, acc)], for a step that may throw *)
Fixpoint reduce {A B} (step : B -> A -> outcome B) (xs : list A) (acc : B) : outcome B :=
  match xs with
  | [] => Returned acc
  | x :: xs' =>
      match step acc x with
      | Returned acc' => reduce step xs' acc'
      | Threw e => Threw e
      end
  end.

(** *** Objects under construction

    The accumulators start as [{}] and are filled by assignments
    [acc[name] = v].  [Object.prototype] keeps an accessor under
    [__proto__]: an assignment to that name calls its setter, which
    replaces the prototype of [acc] (when [v] is an object or [null]) and
    creates no property; unless [acc] has such a property already, or the
    chain of its prototypes, having been replaced, holds a data property of
    that name or does not lead to [Object.prototype] any more. *)

Inductive prototype :=
| ObjectPrototype
| Replaced (v : data)
| NoPrototype.

Record building := {
  own : list (string * data);
  proto : prototype
}.

(** [{}] *)
Definition empty : building := {| own := []; proto := ObjectPrototype |}.

(** An assignment to [__proto__] that goes up the chain from the prototype
  [p] does not reach the accessor. *)
Definition shadowsAccessor (p : prototype) : bool :=
  match p with
  | ObjectPrototype => false
  | Replaced (DObj fields) => JsObject.has fields "__proto__"
  | Replaced _ => false
  | NoPrototype => true
  end.

(** [acc[name] = v] *)
Definition assignProperty (acc : building) (name : string) (v : data) : building :=
  if negb (String.eqb name "__proto__") || JsObject.has (own acc) name
     || shadowsAccessor (proto acc)
  then {| own := JsObject.set (own acc) name v; proto := proto acc |}
  else {| own := own acc;
          proto := match v with
                   | DObj _ | DArr _ => Replaced v
                   | DNull => NoPrototype
                   | _ => proto acc
                   end |}.



(** [xs.reduce(step, acc)], for a step that may throw or leave the model
  ([None]) *)
Fixpoint reduceWithin {A B} (step : B -> A -> option (outcome B)) (xs : list A) (acc : B)
  : option (outcome B) :=
  match xs with
  | [] => Some (Returned acc)
  | x :: xs' =>
      match step acc x with
      | Some (Returned acc') => reduceWithin step xs' acc'
      | Some (Threw e) => Some (Threw e)
      | None => None
      end
  end.

(** One step of [groupBy]: [acc[newKey] = acc[newKey] || {};
  acc[newKey][key] = src[key]].  The accumulator holds the groups put in it,
  each an object under construction.  When it has no group under [newKey]
  and [Object.prototype] defines that name, [acc[newKey]] reads as the
  member of [Object.prototype], and it is that member that is written to:
  the call then changes an object of the engine, which a tree does not
  show, and the model does not follow it ([None]). *)
Definition groupStep (func : callback) (context : data)
    (acc : list (string * building)) (kv : string * data)
  : option (outcome (list (string * building))) :=
  match func (snd kv) (DStr (fst kv)) context with
  | Threw e => Some (Threw e)
  | Returned r =>
      let newKey := toString r in
      match JsObject.get acc newKey with
      | Some group =>
          Some (Returned (JsObject.set acc newKey (assignProperty group (fst kv) (snd kv))))
      | None =>
          if existsb (String.eqb newKey) Runtime.objectPrototype then None
          else Some (Returned (JsObject.set acc newKey
                                 (assignProperty empty (fst kv) (snd kv))))
      end
  end.

Definition groupBy (func : callback) (src context : data) : option (outcome data) :=
  match src with
  | DArr _ => Some (Threw (JsError "groupBy only works on objects"))
  | _ =>
      match ownProperties src with
      | Threw e => Some (Threw e)
      | Returned props =>
          match reduceWithin (groupStep func context) props [] with
          | Some (Returned acc) =>
              Some (Returned (DObj (map (fun g => (fst g, DObj (own (snd g)))) acc)))
          | Some (Threw e) => Some (Threw e)
          | None => None
          end
      end
  end.

Definition mapKeys (func : callback) (src context : data) : outcome data :=
  match ownProperties src with
  | Threw e => Threw e
  | Returned props =>
      match reduce (fun acc kv =>
                      match func (snd kv) (DStr (fst kv)) context with
                      | Returned r => Returned (assignProperty acc (toString r) (snd kv))
                      | Threw e => Threw e
                      end) props empty with
      | Returned acc => Returned (DObj (own acc))
      | Threw e => Threw e
      end
  end.

(** The elements of an array with their indices, from the index [i] on;
  [reduce] and [forEach] skip the holes. *)
Fixpoint elementsFrom (i : nat) (xs : list (option data)) : list (nat * data) :=
  match xs with
  | [] => []
  | Some x :: xs' => (i, x) :: elementsFrom (S i) xs'
  | None :: xs' => elementsFrom (S i) xs'
  end.

(** [src.reduce] exists on arrays only. *)
Definition keyBy (func : callback) (src context : data) : outcome data :=
  match src with
  | DArr items =>
      match reduce (fun acc iv =>
                      match func (snd iv) (DNum (Z.of_nat (fst iv))) context with
                      | Returned r => Returned (assignProperty acc (toString r) (snd iv))
                      | Threw e => Threw e
                      end) (elementsFrom 0 items) empty with
      | Returned acc => Returned (DObj (own acc))
      | Threw e => Threw e
      end
  | _ => Threw JsTypeError
  end.

(** [Array.from(Object.keys(src))] *)
Definition keys (src : data) : outcome data :=
  match ownProperties src with
  | Returned props => Returned (DArr (map (fun kv => Some (DStr (fst kv))) props))
  | Threw e => Threw e
  end.

(** [Array.isArray(src) ? src : Array.from(Object.values(src))] *)
Definition values (src : data) : outcome data :=
  match src with
  | DArr _ => Returned src
  | _ =>
      match ownProperties src with
      | Returned props => Returned (DArr (map (fun kv => Some (snd kv)) props))
      | Threw e => Threw e
      end
  end.


(** [...src]: the elements of an array, a hole giving [undefined], or the
  characters of a string; nothing else that [data] holds can be spread. *)
Definition spread (src : data) : outcome (list data) :=
  match src with
  | DArr items =>
      Returned (map (fun x => match x with
                              | Some v => v
                              | None => DUndefined
                              end) items)
  | DStr s => Returned (characters s)
  | _ => Threw JsTypeError
  end.

(** One source of [Object.assign(target, ...sources)]: its own properties
  are assigned to the target in order; [null] and [undefined] are skipped. *)
Definition assignFrom (target : building) (source : data) : building :=
  match ownProperties source with
  | Returned props =>
      fold_left (fun acc kv => assignProperty acc (fst kv) (snd kv)) props target
  | Threw _ => target
  end.

(** [Object.assign({}, ...src)] *)
Definition assign (src : data) : outcome data :=
  match spread src with
  | Returned sources => Returned (DObj (own (fold_left assignFrom sources empty)))
  | Threw e => Threw e
  end.


(** The double nearest to the integer [z]: [z] itself up to [2^53] in
  absolute value; beyond, [z] rounded to 53 significant bits, a tie going
  to the even one. *)
Definition nearestDouble (z : Z) : Z :=
  let a := Z.abs z in
  if exact z then z
  else
    let dropped := Z.log2 a - 52 in
    let q := Z.shiftr a dropped in
    let r := a - Z.shiftl q dropped in
    let half := Z.shiftl 1 (dropped - 1) in
    let q' := if (half <? r) || (r =? half) && Z.odd q then q + 1 else q in
    Z.sgn z * Z.shiftl q' dropped.

(** The loop of [range]: [for (val = start; (step > 0 && val < end) ||
  (step < 0 && val > end); val += step) res.push(val)], on integers that
  are doubles.  The sum is rounded, so that the loop need not end: [fuel]
  bounds the number of its turns, and [None] is a loop still running. *)
Fixpoint rangeLoop (fuel : nat) (end_ step val : Z) : option (list Z) :=
  match fuel with
  | O => None
  | S fuel' =>
      if (0 <? step) && (val <? end_) || (step <? 0) && (end_ <? val)
      then match rangeLoop fuel' end_ step (nearestDouble (val + step)) with
           | Some res => Some (val :: res)
           | None => None
           end
      else Some []
  end.

(** [range(end, start = 0, step = 1)]; a missing argument is [None] *)
Definition range (fuel : nat) (end_ : Z) (start step : option Z) : option (list Z) :=
  rangeLoop fuel end_
    (match step with Some s => s | None => 1 end)
    (match start with Some s => s | None => 0 end).

(** [checkTypes(input, name, types, functionName, source)]; [name],
  [functionName] and [source] only make the message of the error. *)
Definition checkTypes (input : data) (types : list string) : outcome unit :=
  if existsb (fun type =>
                String.eqb type "array" && isArray input
                || String.eqb type (typeOf input) && negb (isArray input)) types
  then Returned tt
  else Threw JsTypeError.

(** *** What the properties below are stated with *)

(** [o[g][k]] on the result of [groupBy], for own properties *)
Definition member (o : data) (g k : string) : option data :=
  match o with
  | DObj groups =>
      match JsObject.get groups g with
      | Some (DObj fields) => JsObject.get fields k
      | _ => None
      end
  | _ => None
  end.

(** The own property [k] of an object, if it has it *)
Definition property (o : data) (k : string) : option data :=
  match o with
  | DObj fields => JsObject.get fields k
  | _ => None
  end.

(** A name other than [__proto__] *)
Definition plainName (name : string) : bool := negb (String.eqb name "__proto__").



End Collections.

(** ** The runtime template: the instance *)

Module Instance.
Import Runtime.

Section Machine.
(** The functions that the [SETTERS] placeholder binds to [$setter] are
  generated code, not part of the template: [func] names one of them and
  [applyFunc f args] is what [f.apply($res, args)] does to the store of the
  model. *)
Variable func : Type.
Variable applyFunc : func -> list val -> heap -> heap * outcome unit.

(** What a callback (a listener, a batching strategy, the body of
  [$runInBatch]) may do to the instance: a sequence of calls of its
  exported surface.  A listener is a function object; [id] stands for its
  identity and [body] for its code. *)
Inductive action :=
| CallSetter (f : func) (args : list val)
| StartBatch
| EndBatch
| RunInBatch (body : list action)
| AddListener (id : nat) (body : list action)
| RemoveListener (id : nat)
| SetBatchingStrategy (strategy : option (list action)).

(** An element of [$batchPending]: [{func, args}] *)
Record pending := {
  pending_func : func;
  pending_args : list val
}.

(** What the instance did, in order; kept only to state properties. *)
Inductive event :=
| Enqueued (c : pending)
| StrategyInvoked
| Applied (c : pending)
| Recomputed
| Notified (id : nat).

(** The variables of one instance.  [listeners] is the [Set] [$listeners] in
  insertion order, a deleted entry leaving [None] behind (an iteration under
  way skips it, and sees the entries added after it began). *)
Record instance := {
  store : heap;
  inBatch : bool;
  inRecalculate : bool;
  batchPending : list pending;
  batchingStrategy : option (list action);
  listeners : list (option (nat * list action));
  log : list event
}.

Definition I (A : Type) : Type := instance -> instance * result A.

Definition setStore (h : heap) (s : instance) : instance :=
  {| store := h; inBatch := inBatch s; inRecalculate := inRecalculate s;
     batchPending := batchPending s; batchingStrategy := batchingStrategy s;
     listeners := listeners s; log := log s |}.

Definition setInBatch (b : bool) (s : instance) : instance :=
  {| store := store s; inBatch := b; inRecalculate := inRecalculate s;
     batchPending := batchPending s; batchingStrategy := batchingStrategy s;
     listeners := listeners s; log := log s |}.

Definition setInRecalculate (b : bool) (s : instance) : instance :=
  {| store := store s; inBatch := inBatch s; inRecalculate := b;
     batchPending := batchPending s; batchingStrategy := batchingStrategy s;
     listeners := listeners s; log := log s |}.

Definition setBatchPending (q : list pending) (s : instance) : instance :=
  {| store := store s; inBatch := inBatch s; inRecalculate := inRecalculate s;
     batchPending := q; batchingStrategy := batchingStrategy s;
     listeners := listeners s; log := log s |}.

Definition setBatchingStrategy (f : option (list action)) (s : instance) : instance :=
  {| store := store s; inBatch := inBatch s; inRecalculate := inRecalculate s;
     batchPending := batchPending s; batchingStrategy := f;
     listeners := listeners s; log := log s |}.

Definition setListeners (ls : list (option (nat * list action))) (s : instance) : instance :=
  {| store := store s; inBatch := inBatch s; inRecalculate := inRecalculate s;
     batchPending := batchPending s; batchingStrategy := batchingStrategy s;
     listeners := ls; log := log s |}.

Definition record (e : event) (s : instance) : instance :=
  {| store := store s; inBatch := inBatch s; inRecalculate := inRecalculate s;
     batchPending := batchPending s; batchingStrategy := batchingStrategy s;
     listeners := listeners s; log := log s ++ [e] |}.

(** [m; k] *)
Definition andThen (m : I unit) (k : I unit) : I unit :=
  fun s =>
    match m s with
    | (s', Ok _) => k s'
    | (s', Throw e) => (s', Throw e)
    | (s', OutOfFuel) => (s', OutOfFuel)
    end.

(** [func.apply($res, args)] *)
Definition applyCall (c : pending) : I unit :=
  fun s =>
    match applyFunc (pending_func c) (pending_args c) (store s) with
    | (h, Returned _) => (record (Applied c) (setStore h s), Ok tt)
    | (h, Threw e) => (setStore h s, Throw e)
    end.

(** [$batchPending.forEach(function (_ref) { ... func.apply($res, args); })] *)
Fixpoint applyAll (calls : list pending) : I unit :=
  match calls with
  | [] => fun s => (s, Ok tt)
  | c :: calls' => andThen (applyCall c) (applyAll calls')
  end.

(** [$listeners.add(func)] *)
Definition hasListener (id : nat) (ls : list (option (nat * list action))) : bool :=
  existsb (fun entry => match entry with
                        | Some (id', _) => Nat.eqb id' id
                        | None => false
                        end) ls.

Definition addListener (id : nat) (body : list action) (s : instance) : instance :=
  if hasListener id (listeners s) then s
  else setListeners (listeners s ++ [Some (id, body)]) s.

(** [$listeners.delete(func)] *)
Definition removeListener (id : nat) (s : instance) : instance :=
  setListeners
    (map (fun entry => match entry with
                       | Some (id', body) =>
                           if Nat.eqb id' id then None else Some (id', body)
                       | None => None
                       end) (listeners s)) s.

(** The calls that go through a function of the instance or through a
  callback, one level down. *)
Record Calls := {
  run : list action -> I unit;
  recalculate : I unit;
  endBatch : I unit;
  notifyFrom : nat -> I unit
}.

Section OneLevel.
Variable self : Calls.

(** [$listeners.forEach(function(callback) {return callback();})], from the
  [i]-th entry on *)
Definition notifyFromBody (i : nat) : I unit :=
  fun s =>
    match nth_error (listeners s) i with
    | None => (s, Ok tt)
    | Some None => notifyFrom self (S i) s
    | Some (Some (id, body)) =>
        andThen (run self body) (notifyFrom self (S i)) (record (Notified id) s)
    end.

(** [recalculate()]; [Recomputed] stands for the [DERIVED] and [RESET]
  placeholders. *)
Definition recalculateBody : I unit :=
  fun s =>
    if inBatch s then (s, Ok tt)
    else
      match notifyFrom self 0 (record Recomputed (setInRecalculate true s)) with
      | (s', Ok _) =>
          let s'' := setInRecalculate false s' in
          match batchPending s'' with
          | [] => (s'', Ok tt)
          | _ :: _ => endBatch self s''
          end
      | (s', Throw e) => (s', Throw e)
      | (s', OutOfFuel) => (s', OutOfFuel)
      end.

(** [$endBatch()] *)
Definition endBatchBody : I unit :=
  fun s =>
    let s1 := setInBatch false s in
    match batchPending s1 with
    | [] => (s1, Ok tt)
    | _ :: _ =>
        match applyAll (batchPending s1) s1 with
        | (s2, Ok _) => recalculate self (setBatchPending [] s2)
        | (s2, Throw e) => (s2, Throw e)
        | (s2, OutOfFuel) => (s2, OutOfFuel)
        end
    end.

(** The truthiness of [$batchingStrategy] *)
Definition installed (strategy : option (list action)) : bool :=
  match strategy with
  | Some _ => true
  | None => false
  end.

(** [$setter(func, ...args)] *)
Definition setter (f : func) (args : list val) : I unit :=
  fun s =>
    let c := {| pending_func := f; pending_args := args |} in
    if inBatch s || inRecalculate s || installed (batchingStrategy s) then
      let s1 := record (Enqueued c) (setBatchPending (batchPending s ++ [c]) s) in
      if negb (inBatch s1) && negb (inRecalculate s1) then
        match batchingStrategy s1 with
        | Some body => run self body (record StrategyInvoked (setInBatch true s1))
        | None => (s1, Ok tt)
        end
      else (s1, Ok tt)
    else andThen (applyCall c) (recalculate self) s.

Definition runAction (a : action) : I unit :=
  match a with
  | CallSetter f args => setter f args
  | StartBatch => fun s => (setInBatch true s, Ok tt)
  | EndBatch => endBatch self
  | RunInBatch body =>
      andThen (fun s => (setInBatch true s, Ok tt))
        (andThen (run self body) (endBatch self))
  | AddListener id body => fun s => (addListener id body s, Ok tt)
  | RemoveListener id => fun s => (removeListener id s, Ok tt)
  | SetBatchingStrategy f => fun s => (setBatchingStrategy f s, Ok tt)
  end.

Fixpoint runBody (actions : list action) : I unit :=
  match actions with
  | [] => fun s => (s, Ok tt)
  | a :: actions' => andThen (runAction a) (runBody actions')
  end.
End OneLevel.

Definition outOfFuel : I unit := fun s => (s, OutOfFuel).

(** User code that only calls setters: one call for each of [cs], in
  order. *)
Definition callSetters (cs : list pending) : list action :=
  map (fun c => CallSetter (pending_func c) (pending_args c)) cs.

(** The listeners of the [Set], in insertion order. *)
Definition liveIds (ls : list (option (nat * list action))) : list nat :=
  flat_map (fun entry => match entry with
                         | Some (id, _) => [id]
                         | None => []
                         end) ls.

(** Listeners that only look: their code calls nothing of the instance. *)
Definition passive (ls : list (option (nat * list action))) : Prop :=
  Forall (fun entry => match entry with
                       | Some (_, body) => body = []
                       | None => True
                       end) ls.

(** The functions of the instance, their nesting bounded by [fuel]. *)
Fixpoint calls (fuel : nat) : Calls :=
  match fuel with
  | O => {| run := fun _ => outOfFuel; recalculate := outOfFuel;
            endBatch := outOfFuel; notifyFrom := fun _ => outOfFuel |}
  | S fuel' =>
      {| run := runBody (calls fuel');
         recalculate := recalculateBody (calls fuel');
         endBatch := endBatchBody (calls fuel');
         notifyFrom := notifyFromBody (calls fuel') |}
  end.
End Machine.

Arguments CallSetter {func} f args.
Arguments StartBatch {func}.
Arguments EndBatch {func}.
Arguments RunInBatch {func} body.
Arguments AddListener {func} id body.
Arguments RemoveListener {func} id.
Arguments SetBatchingStrategy {func} strategy.
Arguments Enqueued {func} c.
Arguments StrategyInvoked {func}.
Arguments Applied {func} c.
Arguments Recomputed {func}.
Arguments Notified {func} id.
Arguments store {func} _.
Arguments inBatch {func} _.
Arguments inRecalculate {func} _.
Arguments batchPending {func} _.
Arguments batchingStrategy {func} _.
Arguments listeners {func} _.
Arguments log {func} _.
Arguments setInBatch {func} _ _.
Arguments setInRecalculate {func} _ _.
Arguments setBatchPending {func} _ _.
Arguments setStore {func} _ _.
Arguments record {func} _ _.
Arguments installed {func} _.
Arguments callSetters {func} cs.
Arguments liveIds {func} ls.
Arguments passive {func} ls.
End Instance.

(** An instance to run examples on: a setter function is the path it sets,
  and the model is the object at the first place of the store. *)
Module SampleInstance.
Import Runtime Instance.

Definition func : Type := list key.

Definition applyFunc (path : func) (args : list val) (h : heap) : heap * outcome unit :=
  Runtime.set (Ref 0) false path (nth 0 args Undefined) h.

Definition fresh : instance func :=
  {| store := [{| isArray := false; properties := [] |}];
     inBatch := false; inRecalculate := false;
     batchPending := []; batchingStrategy := None;
     listeners := []; log := [] |}.

Definition setA (v : val) : action func := CallSetter [KStr "a"] [v].
Definition setB (v : val) : action func := CallSetter [KStr "b"] [v].
Definition callA (v : val) : pending func := {| pending_func := [KStr "a"]; pending_args := [v] |}.
Definition callB (v : val) : pending func := {| pending_func := [KStr "b"]; pending_args := [v] |}.

(** User code: run [actions] against the instance. *)
Definition exec (fuel : nat) (actions : list (action func)) (s : instance func)
  : instance func * result unit :=
  runBody func applyFunc (calls func applyFunc fuel) actions s.
End SampleInstance.

(* ================================================================== *)
(** * Properties *)

(** ** Dictionaries *)

Module JsObjectFacts.
Section Dict.
Context {V : Type}.
Implicit Types (o : list (string * V)) (k : string) (v : V).

Lemma has_In o k : JsObject.has o k = true <-> In k (JsObject.keys o).
Proof.
  induction o as [|[k' v'] o IH]; simpl.
  - split; [discriminate | tauto].
  - destruct (String.eqb_spec k' k) as [->|Hne].
    + split; auto.
    + rewrite IH. split; [auto | intros [?|?]; congruence].
Qed.

Lemma has_get o k : JsObject.has o k = true <-> exists v, JsObject.get o k = Some v.
Proof.
  induction o as [|[k' v'] o IH]; simpl.
  - split; [discriminate | intros [? ?]; discriminate].
  - destruct (String.eqb k' k); [split; eauto | exact IH].
Qed.

Lemma has_false_get o k : JsObject.has o k = false -> JsObject.get o k = None.
Proof.
  induction o as [|[k' v'] o IH]; simpl; [reflexivity|].
  destruct (String.eqb k' k); [discriminate | exact IH].
Qed.

Lemma set_absent o k v : JsObject.has o k = false -> JsObject.set o k v = o ++ [(k, v)].
Proof.
  induction o as [|[k' v'] o IH]; simpl; [reflexivity|].
  destruct (String.eqb k' k); [discriminate|]. intros Hk. now rewrite IH.
Qed.

Lemma keys_set_present o k v : JsObject.has o k = true ->
  JsObject.keys (JsObject.set o k v) = JsObject.keys o.
Proof.
  induction o as [|[k' v'] o IH]; simpl; [discriminate|].
  destruct (String.eqb k' k); simpl; [reflexivity|].
  intros Hk. now rewrite IH.
Qed.

Lemma keys_set o k v :
  JsObject.keys (JsObject.set o k v)
  = if JsObject.has o k then JsObject.keys o else JsObject.keys o ++ [k].
Proof.
  destruct (JsObject.has o k) eqn:Hk.
  - now apply keys_set_present.
  - rewrite set_absent by assumption. unfold JsObject.keys. now rewrite map_app.
Qed.

Lemma get_set_same o k v : JsObject.get (JsObject.set o k v) k = Some v.
Proof.
  induction o as [|[k' v'] o IH]; simpl.
  - now rewrite String.eqb_refl.
  - destruct (String.eqb k' k) eqn:E; simpl; rewrite E; [reflexivity | exact IH].
Qed.

Lemma get_set_other o k k' v : k <> k' ->
  JsObject.get (JsObject.set o k v) k' = JsObject.get o k'.
Proof.
  intros Hne. induction o as [|[k1 v1] o IH]; simpl.
  - destruct (String.eqb_spec k k'); [contradiction | reflexivity].
  - destruct (String.eqb_spec k1 k) as [->|Hk]; simpl.
    + destruct (String.eqb_spec k k'); [contradiction | reflexivity].
    + now rewrite IH.
Qed.

Lemma get_In o k v : JsObject.get o k = Some v -> In (k, v) o.
Proof.
  induction o as [|[k' v'] o IH]; simpl; [discriminate|].
  destruct (String.eqb_spec k' k) as [->|Hne].
  - intros [= ->]. now left.
  - intros Hg. right. now apply IH.
Qed.

Lemma In_get o k v : List.NoDup (JsObject.keys o) -> In (k, v) o -> JsObject.get o k = Some v.
Proof.
  induction o as [|[k' v'] o IH]; simpl; [tauto|].
  intros Hnd [Heq|Hin].
  - injection Heq as -> ->. now rewrite String.eqb_refl.
  - apply NoDup_cons_iff in Hnd as [Hk' Hnd].
    destruct (String.eqb_spec k' k) as [->|Hne].
    + exfalso. apply Hk'. change (In k (map fst o)). apply in_map_iff.
      exists (k, v). auto.
    + now apply IH.
Qed.

Lemma NoDup_keys_set o k v :
  List.NoDup (JsObject.keys o) -> List.NoDup (JsObject.keys (JsObject.set o k v)).
Proof.
  intros Hnd. rewrite keys_set.
  destruct (JsObject.has o k) eqn:Hk; [assumption|].
  apply List.NoDup_app; auto.
  - constructor; [intros [] | constructor].
  - intros x Hx [<-|[]]. apply has_In in Hx. congruence.
Qed.

Lemma Forall_set (P : string * V -> Prop) o k v :
  Forall P o -> P (k, v) -> Forall P (JsObject.set o k v).
Proof.
  intros Ho Hv. induction o as [|[k' v'] o IH]; simpl.
  - constructor; auto.
  - inversion Ho; subst.
    destruct (String.eqb_spec k' k) as [->|Hne]; constructor; auto.
Qed.

End Dict.
End JsObjectFacts.

(** ** Running table computations *)

Lemma bind_Ok {A B} (m : M A) (k : A -> M B) st b st' :
  bind m k st = Ok (b, st') ->
  exists a st1, m st = Ok (a, st1) /\ k a st1 = Ok (b, st').
Proof.
  unfold bind. destruct (m st) as [[a st1]| |]; try discriminate. eauto.
Qed.

Lemma ret_Ok {A} (a b : A) st st' : ret a st = Ok (b, st') -> a = b /\ st = st'.
Proof. unfold ret. intros [= -> ->]. auto. Qed.

Ltac inv_run :=
  repeat match goal with
    | H : bind _ _ _ = Ok _ |- _ =>
        let a := fresh "a" in let st := fresh "st" in
        let H1 := fresh "Hrun" in let H2 := fresh "Hrun" in
        apply bind_Ok in H as (a & st & H1 & H2)
    | H : ret _ _ = Ok _ |- _ => apply ret_Ok in H as [? ?]; subst
    | H : throw _ _ = Ok _ |- _ => discriminate H
    | H : Ok _ = Ok _ |- _ => injection H as ? ?; subst
    end.

Module VMCompilerFacts.
Import VMCompiler.

Section Interning.
Context `{Imports}.

Lemma addPrimitive_present p st :
  JsObject.has (primitivesByHash st) (exprHash (HValue (defaultTo p VNull))) = true ->
  addPrimitive p st = Ok (exprHash (HValue (defaultTo p VNull)), st).
Proof. intros Hhas. unfold addPrimitive. now rewrite Hhas. Qed.

Lemma addPrimitive_absent p st :
  JsObject.has (primitivesByHash st) (exprHash (HValue (defaultTo p VNull))) = false ->
  addPrimitive p st
  = Ok (exprHash (HValue (defaultTo p VNull)),
        {| projectionsByHash := projectionsByHash st;
           primitivesByHash :=
             primitivesByHash st ++ [(exprHash (HValue (defaultTo p VNull)), p)];
           metaDataByHash := metaDataByHash st |}).
Proof.
  intros Hhas. unfold addPrimitive. rewrite Hhas.
  now rewrite JsObjectFacts.set_absent.
Qed.

Lemma addPrimitive_Ok p st :
  exists st', addPrimitive p st = Ok (exprHash (HValue (defaultTo p VNull)), st')
              /\ JsObject.has (primitivesByHash st') (exprHash (HValue (defaultTo p VNull))) = true
              /\ projectionsByHash st' = projectionsByHash st
              /\ metaDataByHash st' = metaDataByHash st
              /\ exists more, primitivesByHash st' = primitivesByHash st ++ more.
Proof.
  destruct (JsObject.has (primitivesByHash st) (exprHash (HValue (defaultTo p VNull)))) eqn:Hhas.
  - exists st. rewrite addPrimitive_present by assumption.
    repeat split; auto. exists []. now rewrite app_nil_r.
  - eexists. rewrite addPrimitive_absent by assumption. split; [reflexivity|].
    simpl. repeat split; eauto.
    apply JsObjectFacts.has_In. unfold JsObject.keys. rewrite map_app.
    apply in_or_app. right. now left.
Qed.

Lemma has_app {V} (o more : list (string * V)) k :
  JsObject.has o k = true -> JsObject.has (o ++ more) k = true.
Proof.
  rewrite !JsObjectFacts.has_In. unfold JsObject.keys. rewrite map_app.
  intros. apply in_or_app. now left.
Qed.

Lemma get_app {V} (o more : list (string * V)) k v :
  JsObject.get o k = Some v -> JsObject.get (o ++ more) k = Some v.
Proof.
  induction o as [|[k' v'] o IH]; simpl; [discriminate|].
  destruct (String.eqb k' k); auto.
Qed.

Lemma indexOf_app xs more k :
  In k xs -> indexOf (xs ++ more) k = indexOf xs k /\ 0 <= indexOf xs k < Z.of_nat (length xs).
Proof.
  induction xs as [|x xs IH]; simpl; [tauto|].
  intros Hin. destruct (String.eqb_spec x k) as [->|Hne]; [lia|].
  destruct Hin as [?|Hin]; [contradiction|].
  destruct (IH Hin) as [-> Hr].
  destruct (Z.ltb_spec (indexOf xs k) 0); lia.
Qed.

Lemma addMetaData_present m st :
  JsObject.has (metaDataByHash st) (exprHash (HMetaData m)) = true ->
  addMetaData m st = Ok (exprHash (HMetaData m), st).
Proof. intros Hhas. unfold addMetaData. now rewrite Hhas. Qed.

Lemma addPath_present path pathByHash :
  JsObject.has pathByHash (exprHash (HPath path)) = true ->
  addPath path pathByHash = (exprHash (HPath path), pathByHash).
Proof. intros Hhas. unfold addPath. now rewrite Hhas. Qed.

Lemma serializeProjection_present this fuel e st :
  (forall v, e <> Scalar v) ->
  JsObject.has (projectionsByHash st) (exprHash (HExpr e)) = true ->
  serializeProjection this (S fuel) e st = Ok (Projections (exprHash (HExpr e)), st).
Proof.
  intros Hobj Hhas. simpl. unfold serializeProjectionStep.
  destruct e as [v|t|head args]; [now destruct (Hobj v)| |];
    unfold bind, hasProjection; now rewrite Hhas.
Qed.

(** C1, as the code has it: a value whose hash is already a key of its
    table (primitives, metadata, paths, projections) reuses the slot as it
    is.  The table is left unchanged, so the stored value is kept whether or
    not it equals the new one; the hash is returned and nothing is raised. *)
Theorem interning_reuses_slot_unchecked
    (this : Compiler) (fuel : nat) (p : value) (m : IntermediateMetaData)
    (path : list Z) (e : node) (st : tables) (pathByHash : list (string * list Z)) :
  (JsObject.has (primitivesByHash st) (exprHash (HValue (defaultTo p VNull))) = true ->
   addPrimitive p st = Ok (exprHash (HValue (defaultTo p VNull)), st))
  /\ (JsObject.has (metaDataByHash st) (exprHash (HMetaData m)) = true ->
      addMetaData m st = Ok (exprHash (HMetaData m), st))
  /\ (JsObject.has pathByHash (exprHash (HPath path)) = true ->
      addPath path pathByHash = (exprHash (HPath path), pathByHash))
  /\ ((forall v, e <> Scalar v) ->
      JsObject.has (projectionsByHash st) (exprHash (HExpr e)) = true ->
      serializeProjection this (S fuel) e st = Ok (Projections (exprHash (HExpr e)), st)).
Proof.
  split; [|split; [|split]].
  - apply addPrimitive_present.
  - apply addMetaData_present.
  - apply addPath_present.
  - apply serializeProjection_present.
Qed.
End Interning.

#[local] Existing Instance Sample.sample.

(** C1 fails on the code: with [null] stored, [undefined] has the same hash
  and is a different value, and interning it returns the slot of [null]
  instead of raising [IntegrityError]. *)
Lemma addPrimitive_no_IntegrityError :
  let st := {| projectionsByHash := [];
               primitivesByHash := [("v:null", VNull)];
               metaDataByHash := [] |} in
  addPrimitive VNull emptyTables = Ok ("v:null", st)
  /\ JsObject.get (primitivesByHash st)
       (exprHash (HValue (defaultTo VUndefined VNull))) = Some VNull
  /\ VNull <> VUndefined
  /\ addPrimitive VUndefined st = Ok ("v:null", st)
  /\ ~ verifiesBeforeReuse.
Proof.
  repeat split; try reflexivity; try discriminate.
  intros Hspec.
  specialize (Hspec VUndefined VNull
                {| projectionsByHash := []; primitivesByHash := [("v:null", VNull)];
                   metaDataByHash := [] |} eq_refl).
  discriminate Hspec. discriminate.
Qed.

Lemma interning_reuses_slot_unchecked_witness :
  let st := {| projectionsByHash :=
                 [("e:*root/00undefined<>",
                   {| p_type := "v:'root'"; p_metaData := "m:0[]";
                      p_source := None; p_args := [] |})];
               primitivesByHash := [("v:null", VNull)];
               metaDataByHash := [("m:0[]", {| md_invalidates := false; md_paths := Some [] |})] |} in
  addPrimitive VUndefined st = Ok ("v:null", st)
  /\ addMetaData {| md_invalidates := false; md_paths := Some [] |} st = Ok ("m:0[]", st)
  /\ addPath [1; 2] [("q:1,2,", [1; 2])] = ("q:1,2,", [("q:1,2,", [1; 2])])
  /\ serializeProjection Sample.model1 1 Sample.root st
     = Ok (Projections "e:*root/00undefined<>", st).
Proof.
  intros st.
  destruct (interning_reuses_slot_unchecked Sample.model1 0 VUndefined
              {| md_invalidates := false; md_paths := Some [] |} [1; 2] Sample.root st
              [("q:1,2,", [1; 2])]) as (H1 & H2 & H3 & H4).
  split; [|split; [|split]].
  - apply H1. reflexivity.
  - apply H2. reflexivity.
  - apply H3. reflexivity.
  - apply H4; [discriminate | reflexivity].
Defined.

(** ** Invariants of the tables *)

Section Respects.
Variable R : tables -> tables -> Prop.
Context `{!PreOrder R}.

Lemma respects_ret {A} (a : A) : respects R (ret a).
Proof. intros st b st' Hrun. inv_run. reflexivity. Qed.

Lemma respects_throw {A} e : respects R (@throw A e).
Proof. intros st b st' Hrun. discriminate. Qed.

Lemma respects_bind {A B} (m : M A) (k : A -> M B) :
  respects R m -> (forall a, respects R (k a)) -> respects R (bind m k).
Proof.
  intros Hm Hk st b st' Hrun. inv_run.
  transitivity st0; [eapply Hm | eapply Hk]; eassumption.
Qed.

Lemma respects_mapM {A B} (f : A -> M B) xs :
  (forall x, respects R (f x)) -> respects R (mapM f xs).
Proof.
  intros Hf. induction xs as [|x xs IH]; simpl.
  - apply respects_ret.
  - apply respects_bind; [apply Hf | intros y].
    apply respects_bind; [apply IH | intros ys]. apply respects_ret.
Qed.
End Respects.

Ltac respects_step :=
  first
    [ assumption
    | apply respects_ret; typeclasses eauto
    | apply respects_throw
    | apply respects_mapM; [ typeclasses eauto | intros ? ]
    | apply respects_bind; [ typeclasses eauto | | intros ? ]
    | match goal with
      | |- respects _ (if ?b then _ else _) => destruct b
      | |- respects _ (match ?x with _ => _ end) => destruct x
      end ].

Section TableInvariants.
Context `{Imports}.
Variable this : Compiler.

#[local] Instance extends_preorder : PreOrder extends.
Proof.
  split.
  - intros st. split; [auto | apply incl_refl].
  - intros st1 st2 st3 [H12 I12] [H23 I23]. split; [auto | eapply incl_tran; eauto].
Qed.

Lemma wf_emptyTables : wf emptyTables.
Proof.
  repeat split; simpl; constructor.
Qed.

Lemma keys_incl_set {V} (o : list (string * V)) k v :
  incl (JsObject.keys o) (JsObject.keys (JsObject.set o k v)).
Proof.
  rewrite JsObjectFacts.keys_set. destruct (JsObject.has o k).
  - apply incl_refl.
  - apply incl_appl, incl_refl.
Qed.

Lemma In_keys_set {V} (o : list (string * V)) k v :
  In k (JsObject.keys (JsObject.set o k v)).
Proof.
  apply JsObjectFacts.has_In, JsObjectFacts.has_get. exists v.
  apply JsObjectFacts.get_set_same.
Qed.

Lemma refersToMetaData_mono st st' p :
  incl (JsObject.keys (metaDataByHash st)) (JsObject.keys (metaDataByHash st')) ->
  refersToMetaData st p -> refersToMetaData st' p.
Proof. intros Hincl [Hin Hm]. split; auto. Qed.

Lemma addPrimitive_extends p : respects extends (addPrimitive p).
Proof.
  intros st h st'. unfold addPrimitive.
  destruct (JsObject.has _ _) eqn:Hhas; intros [= <- <-]; [reflexivity|].
  split; [|apply incl_refl].
  intros ((Hnd & Hk) & Hmd & Hpr). repeat split; simpl; try apply Hmd; try apply Hpr.
  - now apply JsObjectFacts.NoDup_keys_set.
  - now apply JsObjectFacts.Forall_set.
Qed.

Lemma addMetaData_extends m st h st' :
  addMetaData m st = Ok (h, st') ->
  extends st st'
  /\ h = exprHash (HMetaData m)
  /\ In h (JsObject.keys (metaDataByHash st')).
Proof.
  unfold addMetaData.
  destruct (JsObject.has _ _) eqn:Hhas; intros [= <- <-].
  - split; [reflexivity | split; [reflexivity|]]. now apply JsObjectFacts.has_In.
  - split; [|split; [reflexivity | apply In_keys_set]].
    split; [|apply keys_incl_set].
    intros (Hp & (Hnd & Hk) & (Hnp & Hpr)). repeat split; simpl; try apply Hp.
    + now apply JsObjectFacts.NoDup_keys_set.
    + now apply JsObjectFacts.Forall_set.
    + assumption.
    + eapply List.Forall_impl; [|exact Hpr]. intros kv.
      apply refersToMetaData_mono. simpl. apply keys_incl_set.
Qed.

Lemma setProjection_extends hash p st u st' :
  setProjection hash p st = Ok (u, st') ->
  refersToMetaData st p ->
  extends st st'.
Proof.
  unfold setProjection. intros [= <- <-] Hp.
  split; [|apply incl_refl].
  intros (Hprim & Hmd & (Hnd & Hpr)). repeat split; simpl; try apply Hprim; try apply Hmd.
  - now apply JsObjectFacts.NoDup_keys_set.
  - apply JsObjectFacts.Forall_set; assumption.
Qed.

Lemma dollar_type_state x st a st' : dollar_type x st = Ok (a, st') -> st' = st.
Proof.
  destruct x as [[]| |]; simpl; unfold ret, throw; intros [=]; congruence.
Qed.

Lemma source_tag_state x st a st' : source_tag x st = Ok (a, st') -> st' = st.
Proof.
  destruct x as [[]| |]; simpl; unfold ret, throw; intros [=]; congruence.
Qed.

Lemma dollar_type_respects R `{!PreOrder R} x : respects R (dollar_type x).
Proof. intros st a st' Hrun. apply dollar_type_state in Hrun as ->. reflexivity. Qed.

Lemma source_tag_respects R `{!PreOrder R} x : respects R (source_tag x).
Proof. intros st a st' Hrun. apply source_tag_state in Hrun as ->. reflexivity. Qed.

Lemma hasProjection_respects R `{!PreOrder R} h : respects R (hasProjection h).
Proof. intros st a st' [= <- <-]. reflexivity. Qed.

Section OneLevel.
Variable self : node -> M IntermediateReference.
Hypothesis self_extends : forall e, respects extends (self e).

Lemma invalidationPath_extends cond invalidatedPath :
  respects extends (invalidationPath this self cond invalidatedPath).
Proof.
  pose proof (dollar_type_respects extends) as Hty.
  unfold invalidationPath.
  repeat first [ apply self_extends | apply Hty | respects_step ].
Qed.

Lemma invalidationPaths_extends pathsThatInvalidate :
  respects extends (invalidationPaths this self pathsThatInvalidate).
Proof.
  induction pathsThatInvalidate as [|[invalidatedPath cond] rest IH]; simpl.
  - respects_step.
  - apply respects_bind; [typeclasses eauto | apply invalidationPath_extends | intros entry].
    apply respects_bind; [typeclasses eauto | apply IH | intros paths]. respects_step.
Qed.

Lemma argsManipulators_extends expression currentToken type args :
  respects extends (argsManipulators this expression currentToken type args).
Proof.
  pose proof (dollar_type_respects extends) as Hty.
  pose proof (source_tag_respects extends) as Hsrc.
  unfold argsManipulators.
  repeat first [ apply Hty | apply Hsrc | respects_step ].
Qed.

Lemma generateProjectionFromExpression_extends expression st p st' :
  generateProjectionFromExpression this self expression st = Ok (p, st') ->
  extends st st' /\ refersToMetaData st' p.
Proof.
  unfold generateProjectionFromExpression.
  destruct expression as [v|t|head args]; [discriminate| |]; intros Hrun; inv_run.
  all: match goal with
       | Hp : invalidationPaths _ _ _ _ = Ok _,
         Ht : addPrimitive _ _ = Ok _,
         Hm : addMetaData _ _ = Ok _,
         Ha : argsManipulators _ _ _ _ _ _ = Ok _,
         Hs : mapM _ _ _ = Ok _ |- _ =>
           apply invalidationPaths_extends in Hp;
           apply addPrimitive_extends in Ht;
           apply addMetaData_extends in Hm as (Hm & Hh & Hin);
           apply argsManipulators_extends in Ha;
           apply (respects_mapM extends) in Hs; [|exact self_extends]
       end.
  all: split;
    [ repeat (etransitivity; [eassumption|]); reflexivity
    | split; simpl; [|eexists; eassumption] ].
  all: match goal with
       | Ha : extends ?s1 ?s2, Hs : extends ?s2 ?s3 |- In _ (JsObject.keys (metaDataByHash ?s3)) =>
           apply (proj2 Hs), (proj2 Ha); assumption
       end.
Qed.

Lemma serializeProjectionStep_extends expression :
  respects extends (serializeProjectionStep this self expression).
Proof.
  assert (Hobj : forall e hash,
             respects extends
               (bind (hasProjection hash)
                  (fun present =>
                     if present then ret (Projections hash)
                     else bind (generateProjectionFromExpression this self e)
                            (fun p => bind (setProjection hash p)
                                        (fun _ => ret (Projections hash)))))).
  { intros e hash st r st' Hrun. inv_run.
    match goal with Hh : hasProjection _ _ = Ok _ |- _ => injection Hh as <- <- end.
    destruct (JsObject.has _ _); inv_run; [reflexivity|].
    match goal with
    | Hg : generateProjectionFromExpression _ _ _ _ = Ok _,
      Hs : setProjection _ _ _ = Ok _ |- _ =>
        apply generateProjectionFromExpression_extends in Hg as [Hg Hp];
        eapply setProjection_extends in Hs; [|exact Hp];
        etransitivity; eassumption
    end. }
  unfold serializeProjectionStep.
  destruct expression as [v|t|head args]; [|apply Hobj..].
  pose proof addPrimitive_extends as Hadd.
  destruct v; repeat first [ apply Hadd | respects_step ].
Qed.
End OneLevel.

Lemma serializeProjection_extends fuel expression :
  respects extends (serializeProjection this fuel expression).
Proof.
  revert expression. induction fuel as [|fuel IH]; intros expression; simpl.
  - intros st r st' Hrun. discriminate.
  - now apply serializeProjectionStep_extends.
Qed.

Lemma intermediateTopLevel_extends fuel name :
  respects extends (intermediateTopLevel this fuel name).
Proof.
  pose proof addPrimitive_extends as Hadd.
  pose proof (serializeProjection_extends fuel) as Hser.
  unfold intermediateTopLevel.
  repeat first [ apply Hadd | apply Hser | respects_step ].
Qed.

Lemma serializeSetter_extends fuel setter name :
  respects extends (serializeSetter this fuel setter name).
Proof.
  pose proof addPrimitive_extends as Hadd.
  pose proof (serializeProjection_extends fuel) as Hser.
  unfold serializeSetter.
  repeat first [ apply Hadd | apply Hser | respects_step ].
Qed.

Lemma buildTables_extends fuel : respects extends (buildTables this fuel).
Proof.
  unfold buildTables, serializeSetters.
  repeat first [ apply intermediateTopLevel_extends | apply serializeSetter_extends
               | respects_step ].
Qed.

Lemma buildTables_wf fuel r st :
  buildTables this fuel emptyTables = Ok (r, st) -> wf st.
Proof.
  intros Hrun. apply buildTables_extends in Hrun as [Hwf _].
  apply Hwf, wf_emptyTables.
Qed.

Lemma indexOf_In xs k : In k xs -> 0 <= indexOf xs k < Z.of_nat (length xs).
Proof. intros Hin. now destruct (indexOf_app xs [] k Hin). Qed.

Lemma indexOf_nth_error xs k i :
  List.NoDup xs -> nth_error xs i = Some k -> indexOf xs k = Z.of_nat i.
Proof.
  revert i. induction xs as [|x xs IH]; intros [|i] Hnd Hi; simpl in *; try discriminate.
  - injection Hi as ->. now rewrite String.eqb_refl.
  - apply NoDup_cons_iff in Hnd as [Hx Hnd].
    destruct (String.eqb_spec x k) as [->|Hne].
    + exfalso. apply Hx. eapply nth_error_In; eassumption.
    + rewrite (IH i Hnd Hi). destruct (Z.ltb_spec (Z.of_nat i) 0); lia.
Qed.

Lemma buildProjectionData_Ok fuel pd :
  buildProjectionData this fuel = Ok pd ->
  exists intermediateTopLevels intermediateSetters st,
    buildTables this fuel emptyTables = Ok ((intermediateTopLevels, intermediateSetters), st)
    /\ wf st
    /\ pd = pack this st intermediateTopLevels intermediateSetters.
Proof.
  unfold buildProjectionData.
  destruct (buildTables this fuel emptyTables) as [[[tls sts] st]| |] eqn:Hrun;
    intros [= <-].
  exists tls, sts, st. split; [reflexivity|]. split; [|reflexivity].
  eapply buildTables_wf; eassumption.
Qed.

Lemma pack_primitives st tls sts :
  primitives (pack this st tls sts) = JsObject.values (primitivesByHash st).
Proof. unfold pack. now destruct (metaData2 st). Qed.

Lemma get_app_absent {V} (o more : list (string * V)) k :
  JsObject.has o k = false -> JsObject.get (o ++ more) k = JsObject.get more k.
Proof.
  induction o as [|[k' v'] o IH]; simpl; [reflexivity|].
  destruct (String.eqb k' k); [discriminate | exact IH].
Qed.

Lemma nullish_defaultTo v : nullish v = true -> defaultTo v VNull = VNull.
Proof. now destruct v. Qed.

(** C10: [addPrimitive] hashes [undefined] as [null].  Interning one of them
  returns the hash of [null]; if the slot was free it now stores that value;
  and once this is done, interning the other one, at any later stage of the
  table, returns the same hash and leaves the table as it is, so the slot
  keeps its index and its entry.  As a result the [primitives] array of a
  compiled [ProjectionData] has at most one entry among [null] and
  [undefined]. *)
Theorem null_undefined_share_slot
    (x y : value) (st st2 : tables) (more : list (string * value))
    (Hx : nullish x = true) (Hy : nullish y = true) :
  let hash := exprHash (HValue VNull) in
  (exists st1,
      addPrimitive x st = Ok (hash, st1)
      /\ (JsObject.has (primitivesByHash st) hash = false ->
          JsObject.get (primitivesByHash st1) hash = Some x)
      /\ (primitivesByHash st2 = primitivesByHash st1 ++ more ->
          addPrimitive y st2 = Ok (hash, st2)
          /\ JsObject.get (primitivesByHash st2) hash = JsObject.get (primitivesByHash st1) hash
          /\ indexOf (primitiveHashes st2) hash = indexOf (primitiveHashes st1) hash))
  /\ (forall fuel pd i j vi vj,
        buildProjectionData this fuel = Ok pd ->
        nth_error (primitives pd) i = Some vi ->
        nth_error (primitives pd) j = Some vj ->
        nullish vi = true -> nullish vj = true ->
        i = j).
Proof.
  intros hash. split.
  - pose proof (nullish_defaultTo x Hx) as Ex.
    pose proof (nullish_defaultTo y Hy) as Ey.
    destruct (addPrimitive_Ok x st) as (st1 & Hrun & Hhas & _ & _ & _).
    pose proof (addPrimitive_absent x st) as Habs.
    pose proof (addPrimitive_present y st2) as Hpres.
    rewrite Ex in Hrun, Hhas, Habs. rewrite Ey in Hpres.
    fold hash in Hrun, Hhas, Habs, Hpres.
    exists st1. split; [exact Hrun|]. split.
    + intros Hfree. rewrite (Habs Hfree) in Hrun. injection Hrun as <-. simpl.
      rewrite get_app_absent by exact Hfree. simpl.
      now rewrite String.eqb_refl.
    + intros Hlater. split; [|split].
      * apply Hpres. rewrite Hlater. now apply has_app.
      * apply JsObjectFacts.has_get in Hhas as [v Hv].
        rewrite Hlater, Hv. now apply get_app.
      * unfold primitiveHashes, JsObject.keys. rewrite Hlater, map_app.
        apply indexOf_app. now apply JsObjectFacts.has_In.
  - intros fuel pd i j vi vj Hpd Hi Hj Hvi Hvj.
    apply buildProjectionData_Ok in Hpd as (tls & sts & stf & _ & (Hprim & _) & ->).
    rewrite pack_primitives in Hi, Hj. unfold JsObject.values in Hi, Hj.
    destruct Hprim as [Hnd Hkeyed].
    assert (Hkey : forall n v, nth_error (map snd (primitivesByHash stf)) n = Some v ->
                     nullish v = true ->
                     nth_error (JsObject.keys (primitivesByHash stf)) n = Some hash).
    { intros n v Hn Hv. unfold JsObject.keys.
      rewrite nth_error_map in Hn |- *.
      destruct (nth_error (primitivesByHash stf) n) as [[k v']|] eqn:Hnth; [|discriminate].
      simpl in Hn. injection Hn as ->. simpl. f_equal.
      rewrite List.Forall_forall in Hkeyed.
      specialize (Hkeyed _ (nth_error_In _ _ Hnth)). simpl in Hkeyed.
      now rewrite (nullish_defaultTo v Hv) in Hkeyed. }
    pose proof (Hkey i vi Hi Hvi) as Hki. pose proof (Hkey j vj Hj Hvj) as Hkj.
    eapply NoDup_nth_error; eauto.
    + apply nth_error_Some. congruence.
    + congruence.
Qed.

Lemma indexOf_lookup xs k :
  In k xs -> nth_error xs (Z.to_nat (indexOf xs k)) = Some k.
Proof.
  induction xs as [|x xs IH]; simpl; [tauto|].
  intros Hin. destruct (String.eqb_spec x k) as [->|Hne]; [reflexivity|].
  destruct Hin as [?|Hin]; [contradiction|].
  pose proof (indexOf_In xs k Hin) as Hr.
  destruct (Z.ltb_spec (indexOf xs k) 0); [lia|].
  replace (Z.to_nat (indexOf xs k + 1)) with (S (Z.to_nat (indexOf xs k))) by lia.
  simpl. now apply IH.
Qed.

Lemma packMetaDatas_nth st records pathByHash i k :
  nth_error records i = Some (k, noMetaData) ->
  nth_error (fst (packMetaDatas st records pathByHash)) i = Some (0, []).
Proof.
  revert pathByHash i. induction records as [|[k' md] records IH];
    intros pathByHash [|i] Hi; simpl in *; try discriminate.
  - injection Hi as -> ->. unfold packMetaData. simpl.
    now destruct (packMetaDatas st records pathByHash).
  - destruct (packMetaData st md pathByHash) as [packed pathByHash1].
    specialize (IH pathByHash1 i Hi).
    now destruct (packMetaDatas st records pathByHash1).
Qed.

Lemma packMetaDatas_length st records pathByHash :
  length (fst (packMetaDatas st records pathByHash)) = length records.
Proof.
  revert pathByHash. induction records as [|[k md] records IH]; intros pathByHash; simpl.
  - reflexivity.
  - destruct (packMetaData st md pathByHash) as [packed pathByHash1].
    specialize (IH pathByHash1).
    destruct (packMetaDatas st records pathByHash1). simpl in *. now rewrite IH.
Qed.

Lemma pack_metaData st tls sts :
  metaData (pack this st tls sts)
  = [0] :: map (flattenMetaData (JsObject.keys (snd (packMetaDatas st (metaDataByHash st) []))))
             (fst (packMetaDatas st (metaDataByHash st) [])).
Proof.
  unfold pack, metaData2.
  now destruct (packMetaDatas st (metaDataByHash st) []).
Qed.

Lemma pack_getters st tls sts :
  getters (pack this st tls sts)
  = map (packProjection st) (JsObject.values (projectionsByHash st)).
Proof. unfold pack. now destruct (metaData2 st). Qed.

(** C2, as the code has it.  In every compiled [ProjectionData],
  [metaData[0]] is the sentinel, flags [0] and no paths.  No compiled
  projection carries the metadata index [0] (the hash of a metadata record
  being a non-empty string): each carries the index, at least [1], of the
  record interned for it.  For a projection with no invalidation
  contribution this is the slot of the record with empty [paths], whose
  packed form is that of the sentinel (no other record sharing its hash). *)
Theorem metaData_sentinel_and_references
    (fuel : nat) (pd : ProjectionData)
    (Hpd : buildProjectionData this fuel = Ok pd) :
  nth_error (metaData pd) 0 = Some [0]
  /\ exists intermediateTopLevels intermediateSetters st,
       buildTables this fuel emptyTables
       = Ok ((intermediateTopLevels, intermediateSetters), st)
       /\ length (getters pd) = length (projectionsByHash st)
       /\ ((forall m, exprHash (HMetaData m) <> EmptyString) ->
           forall i hash p,
             nth_error (projectionsByHash st) i = Some (hash, p) ->
             exists type idx args,
               nth_error (getters pd) i = Some (type :: idx :: args)
               /\ 1 <= idx < Z.of_nat (length (metaData pd))
               /\ (p_metaData p = exprHash (HMetaData noMetaData) ->
                   (forall m, exprHash (HMetaData m) = exprHash (HMetaData noMetaData) ->
                              m = noMetaData) ->
                   nth_error (metaData pd) (Z.to_nat idx) = Some [0])).
Proof.
  apply buildProjectionData_Ok in Hpd as (tls & sts & st & Hrun & Hwf & ->).
  split; [now rewrite pack_metaData|].
  exists tls, sts, st. split; [exact Hrun|].
  rewrite pack_getters, pack_metaData. unfold JsObject.values.
  split; [now rewrite !length_map|].
  intros Hne i hash p Hi.
  destruct Hwf as (_ & (Hmnd & Hmk) & (_ & Hrefs)).
  rewrite List.Forall_forall in Hrefs.
  destruct (Hrefs _ (nth_error_In _ _ Hi)) as [Hin [m Hm]]. simpl in Hin, Hm.
  pose proof (indexOf_In _ _ Hin) as Hrange.
  assert (Hidx : (if String.eqb (p_metaData p) EmptyString then 0
                  else indexOf (mdHashes st) (p_metaData p))
                 = indexOf (JsObject.keys (metaDataByHash st)) (p_metaData p) + 1).
  { destruct (String.eqb_spec (p_metaData p) EmptyString) as [E|_];
      [rewrite Hm in E; now destruct (Hne m)|].
    unfold mdHashes. cbn [indexOf].
    destruct (String.eqb_spec EmptyString (p_metaData p)) as [E|_];
      [rewrite Hm in E; now destruct (Hne m)|].
    cbv zeta.
    destruct (Z.ltb_spec (indexOf (JsObject.keys (metaDataByHash st)) (p_metaData p)) 0); lia. }
  eexists _, _, _. split; [|split].
  - rewrite !nth_error_map, Hi. simpl. unfold packProjection. rewrite Hidx. reflexivity.
  - cbn [length]. rewrite length_map, packMetaDatas_length.
    unfold JsObject.keys in *. rewrite length_map in Hrange. lia.
  - intros Hnone Hinj.
    replace (Z.to_nat (indexOf (JsObject.keys (metaDataByHash st)) (p_metaData p) + 1))
      with (S (Z.to_nat (indexOf (JsObject.keys (metaDataByHash st)) (p_metaData p))))
      by lia.
    simpl. rewrite nth_error_map.
    pose proof (indexOf_lookup _ _ Hin) as Hk. unfold JsObject.keys in Hk.
    rewrite nth_error_map in Hk.
    destruct (nth_error (metaDataByHash st) _) as [[k md]|] eqn:Hnth; [|discriminate].
    simpl in Hk. injection Hk as ->.
    rewrite List.Forall_forall in Hmk.
    specialize (Hmk _ (nth_error_In _ _ Hnth)). simpl in Hmk.
    assert (md = noMetaData) as -> by (apply Hinj; congruence).
    erewrite packMetaDatas_nth by eassumption. reflexivity.
Qed.
End TableInvariants.

Lemma sample_exprHash_nonempty (m : IntermediateMetaData) :
  exprHash (HMetaData m) <> EmptyString.
Proof. discriminate. Qed.

Lemma sample_exprHash_noMetaData (m : IntermediateMetaData) :
  exprHash (HMetaData m) = exprHash (HMetaData noMetaData) -> m = noMetaData.
Proof.
  destruct m as [[|] [[|[[n|h|h] steps] ps]|]]; cbn; try discriminate.
  reflexivity.
Qed.

Lemma null_undefined_share_slot_witness :
  let st1 := {| projectionsByHash := [];
                primitivesByHash := [("v:null", VNull)];
                metaDataByHash := [] |} in
  let st2 := {| projectionsByHash := [];
                primitivesByHash := [("v:null", VNull); ("v:'a'", VStr "a")];
                metaDataByHash := [] |} in
  addPrimitive VNull emptyTables = Ok ("v:null", st1)
  /\ addPrimitive VUndefined st2 = Ok ("v:null", st2)
  /\ JsObject.get (primitivesByHash st2) "v:null" = Some VNull.
Proof.
  intros st1 st2.
  destruct (null_undefined_share_slot Sample.model1 VNull VUndefined emptyTables st2
              [("v:'a'", VStr "a")] eq_refl eq_refl)
    as [(st1' & Hrun & Hstored & Hlater) _].
  injection Hrun as <-.
  destruct (Hlater eq_refl) as (Hy & Hget & _).
  split; [reflexivity|]. split; [exact Hy|].
  etransitivity; [exact Hget | apply Hstored; reflexivity].
Defined.

(** C2 fails on the code: the [root] token of [model1] has no invalidation
  path and no [$invalidates] tag, and its compiled projection, [getters[0]],
  carries the metadata index [1]. *)
Lemma getter_without_invalidation_not_at_sentinel :
  buildProjectionData Sample.model1 5 = Ok Sample.compiled1
  /\ JsObject.keys (projectionsByHash
       match buildTables Sample.model1 5 emptyTables with
       | Ok (_, st) => st
       | _ => emptyTables
       end)
     = [exprHash (HExpr Sample.root); exprHash (HExpr Sample.get_a)]
  /\ t_path (Sample.tok "root") = []
  /\ t_invalidates (Sample.tok "root") = false
  /\ nth_error (getters Sample.compiled1) 0 = Some [1; 1]
  /\ (1 : Z) <> 0.
Proof. repeat split; discriminate. Qed.

Lemma metaData_sentinel_and_references_witness :
  nth_error (metaData Sample.compiled1) 0 = Some [0]
  /\ nth_error (getters Sample.compiled1) 0 = Some [1; 1]
  /\ nth_error (metaData Sample.compiled1) 1 = Some [0].
Proof.
  assert (Hpd : buildProjectionData Sample.model1 5 = Ok Sample.compiled1)
    by (vm_compute; reflexivity).
  destruct (metaData_sentinel_and_references Sample.model1 5 Sample.compiled1 Hpd)
    as (Hsentinel & tls & sts & st & Hrun & _ & Hrefs).
  split; [exact Hsentinel|].
  injection Hrun as <- <- <-.
  destruct (Hrefs sample_exprHash_nonempty 0%nat _ _ eq_refl)
    as (type & idx & args & Hgetter & _ & Hrecord).
  injection Hgetter as <- <- <-.
  split; [reflexivity|].
  exact (Hrecord eq_refl sample_exprHash_noMetaData).
Defined.

(** ** What the projection builder returns *)

Section Builder.
Context `{Imports}.
Variable this : Compiler.

Lemma addPrimitive_hash p st h st' :
  addPrimitive p st = Ok (h, st') -> h = exprHash (HValue (defaultTo p VNull)).
Proof.
  unfold addPrimitive. destruct (JsObject.has _ _); intros [= <- _]; reflexivity.
Qed.

Lemma serializeProjectionStep_ref self e st r st' :
  serializeProjectionStep this self e st = Ok (r, st') -> r = refOf e.
Proof.
  unfold serializeProjectionStep, refOf.
  destruct e as [v|t|head args].
  - destruct v; try destruct (canBeStoredInRef n); intros Hrun; inv_run;
      try reflexivity;
      match goal with
      | Ha : addPrimitive _ _ = Ok _ |- _ => apply addPrimitive_hash in Ha as ->
      end; reflexivity.
  - intros Hrun; inv_run. destruct a; inv_run; reflexivity.
  - intros Hrun; inv_run. destruct a; inv_run; reflexivity.
Qed.

Lemma serializeProjection_ref fuel e st r st' :
  serializeProjection this fuel e st = Ok (r, st') -> r = refOf e.
Proof.
  destruct fuel as [|fuel]; simpl; [discriminate|].
  apply serializeProjectionStep_ref.
Qed.

Lemma mapM_serializeProjection_refs fuel es st rs st' :
  mapM (serializeProjection this fuel) es st = Ok (rs, st') -> rs = map refOf es.
Proof.
  revert st rs. induction es as [|e es IH]; intros st rs Hrun; simpl in Hrun; inv_run.
  - reflexivity.
  - simpl. f_equal.
    + eapply serializeProjection_ref; eassumption.
    + eapply IH; eassumption.
Qed.

(** C7: for a [get] node the builder hands [(object, key)] to the
  serialization, the object being the second argument of the node and the
  key the first; the key is replaced by [topLevelToIndex(key)] when the
  object is the [topLevel] token and is kept as it is for every other
  object.  The projection built for the node has these two references as
  its arguments. *)
Theorem get_arguments_reordered
    (fuel : nat) (head : token) (args : list node)
    (st st' : tables) (p : IntermediateProjection)
    (Hget : t_type head = "get")
    (Hrun : generateProjectionFromExpression this (serializeProjection this fuel)
              (Expr head args) st = Ok (p, st')) :
  let prop := at_index args 0 in
  let obj := at_index args 1 in
  let key := if isTokenOfType obj "topLevel"
             then Scalar (topLevelToIndex this prop) else prop in
  (forall st0, argsManipulators this (Expr head args) head (t_type head) args st0
               = Ok ([obj; key], st0))
  /\ p_args p = [refOf obj; refOf key]
  /\ (isTokenOfType obj "topLevel" = true -> key = Scalar (topLevelToIndex this prop))
  /\ (isTokenOfType obj "topLevel" = false -> key = prop).
Proof.
  intros prop obj key.
  assert (Hmanip : forall st0, argsManipulators this (Expr head args) head (t_type head) args st0
                               = Ok ([obj; key], st0)).
  { intros st0. unfold argsManipulators. rewrite Hget. reflexivity. }
  split; [exact Hmanip|]. split.
  - unfold generateProjectionFromExpression in Hrun. inv_run.
    match goal with
    | Ha : argsManipulators _ _ _ _ _ _ = Ok _ |- _ => rewrite Hmanip in Ha; injection Ha as <- <-
    end.
    match goal with
    | Hs : mapM _ _ _ = Ok _ |- _ => apply mapM_serializeProjection_refs in Hs as ->
    end.
    reflexivity.
  - split; intros Hobj; unfold key; now rewrite Hobj.
Qed.

Lemma filter_nonempty_existsb {A} (f : A -> bool) (xs : list A) :
  (0 <? length (List.filter f xs))%nat = existsb f xs.
Proof.
  induction xs as [|x xs IH]; simpl; [reflexivity|].
  destruct (f x); simpl; [reflexivity | exact IH].
Qed.

(** C8, as the code has it: an invalidation path whose root is the [root]
  token is kept, verbatim (condition and steps serialized one by one), exactly
  when it has more than one element and [pathMatches] holds of it and of
  some registered setter; otherwise it is discarded, and a discarded path
  adds nothing to the [paths] of the metadata. *)
Theorem root_path_kept_iff_long_and_matched
    (fuel : nat) (cond : node) (invalidatedPath : list node) (t : token)
    (st st' : tables)
    (entry : option (IntermediateReference * list IntermediateReference))
    (Hroot : at_index invalidatedPath 0 = Tok t)
    (Htype : t_type t = "root")
    (Hrun : invalidationPath this (serializeProjection this fuel) cond invalidatedPath st
            = Ok (entry, st')) :
  entry = (if (1 <? length invalidatedPath)%nat
              && existsb (pathMatches invalidatedPath) (JsObject.values (this_setters this))
           then Some (refOf cond, map refOf invalidatedPath)
           else None)
  /\ forall rest paths st'',
       invalidationPaths this (serializeProjection this fuel) rest st' = Ok (paths, st'') ->
       invalidationPaths this (serializeProjection this fuel)
         ((invalidatedPath, cond) :: rest) st
       = Ok (match entry with Some e => e :: paths | None => paths end, st'').
Proof.
  split.
  - unfold invalidationPath in Hrun. rewrite Hroot in Hrun. simpl in Hrun.
    rewrite Htype in Hrun.
    apply bind_Ok in Hrun as (condProj & st1 & Hcond & Hrun).
    apply serializeProjection_ref in Hcond as ->.
    apply bind_Ok in Hrun as (rootType & st2 & Hty & Hrun).
    apply ret_Ok in Hty as [<- <-]. simpl in Hrun.
    rewrite andb_false_r in Hrun.
    rewrite filter_nonempty_existsb in Hrun.
    apply bind_Ok in Hrun as (getOfTopLevel & st3 & Hg & Hrun).
    assert (getOfTopLevel = false /\ st3 = st1) as [-> ->]
      by (destruct (1 <? length invalidatedPath)%nat; apply ret_Ok in Hg as [<- <-]; auto).
    simpl in Hrun.
    destruct ((1 <? length invalidatedPath)%nat && existsb _ _); inv_run; [|reflexivity].
    match goal with
    | Hs : mapM _ _ _ = Ok _ |- _ => apply mapM_serializeProjection_refs in Hs as ->
    end.
    reflexivity.
  - intros rest paths st'' Hrest. simpl. unfold bind at 1. rewrite Hrun.
    unfold bind at 1. rewrite Hrest. reflexivity.
Qed.
End Builder.

Lemma get_arguments_reordered_witness :
  (exists p st,
      generateProjectionFromExpression Sample.model1
        (serializeProjection Sample.model1 2) Sample.get_a emptyTables = Ok (p, st)
      /\ p_args p = [Projections "e:*root/00undefined<>"; Primitives "v:'a'"])
  /\ (exists p st,
         generateProjectionFromExpression Sample.model1
           (serializeProjection Sample.model1 2)
           (Expr (Sample.tok "get") [Sample.str "x"; Tok (Sample.tok "topLevel")])
           emptyTables = Ok (p, st)
         /\ p_args p = [Projections "e:*topLevel/00undefined<>"; Ints 0]).
Proof.
  split.
  - destruct (generateProjectionFromExpression Sample.model1
                (serializeProjection Sample.model1 2) Sample.get_a emptyTables)
      as [[p st]| |] eqn:Hrun; try (vm_compute in Hrun; discriminate Hrun).
    exists p, st. split; [reflexivity|].
    exact (proj1 (proj2 (get_arguments_reordered Sample.model1 2 (Sample.tok "get")
                           [Sample.str "a"; Sample.root] emptyTables st p eq_refl Hrun))).
  - destruct (generateProjectionFromExpression Sample.model1
                (serializeProjection Sample.model1 2)
                (Expr (Sample.tok "get") [Sample.str "x"; Tok (Sample.tok "topLevel")])
                emptyTables)
      as [[p st]| |] eqn:Hrun; try (vm_compute in Hrun; discriminate Hrun).
    exists p, st. split; [reflexivity|].
    exact (proj1 (proj2 (get_arguments_reordered Sample.model1 2 (Sample.tok "get")
                           [Sample.str "x"; Tok (Sample.tok "topLevel")]
                           emptyTables st p eq_refl Hrun))).
Defined.

(** C8 fails on the code: the path made of the [root] token alone is matched
  by the registered setter [setA], and is discarded. *)
Lemma root_alone_discarded :
  JsObject.values (this_setters Sample.model1) = [Sample.setA]
  /\ pathMatches [Sample.root] Sample.setA = true
  /\ exists st,
       invalidationPath Sample.model1 (serializeProjection Sample.model1 2)
         (Scalar (VBool true)) [Sample.root] emptyTables
       = Ok (None, st).
Proof.
  split; [reflexivity|]. split; [reflexivity|].
  eexists. vm_compute. reflexivity.
Qed.

Lemma root_path_kept_iff_long_and_matched_witness :
  exists st,
    invalidationPath Sample.model1 (serializeProjection Sample.model1 2)
      (Scalar (VBool true)) [Sample.root; Sample.str "a"] emptyTables
    = Ok (Some (Primitives "v:true",
                [Projections "e:*root/00undefined<>"; Primitives "v:'a'"]), st).
Proof.
  destruct (invalidationPath Sample.model1 (serializeProjection Sample.model1 2)
              (Scalar (VBool true)) [Sample.root; Sample.str "a"] emptyTables)
    as [[entry st]| |] eqn:Hrun; try (vm_compute in Hrun; discriminate Hrun).
  exists st. f_equal. f_equal.
  exact (proj1 (root_path_kept_iff_long_and_matched Sample.model1 2 (Scalar (VBool true))
                  [Sample.root; Sample.str "a"] (Sample.tok "root") emptyTables st entry
                  eq_refl eq_refl Hrun)).
Defined.

(** ** Enough fuel *)

Lemma finishes_ret {A} (a : A) : finishes (ret a).
Proof. intros st. discriminate. Qed.

Lemma finishes_throw {A} e : finishes (@throw A e).
Proof. intros st. discriminate. Qed.

Lemma finishes_bind {A B} (m : M A) (k : A -> M B) :
  finishes m ->
  (forall a st st', m st = Ok (a, st') -> finishes (k a)) ->
  finishes (bind m k).
Proof.
  intros Hm Hk st. unfold bind. specialize (Hm st).
  destruct (m st) as [[a st']| |] eqn:Hrun; [|discriminate|contradiction].
  eapply Hk; eassumption.
Qed.

Lemma finishes_mapM {A B} (f : A -> M B) xs :
  Forall (fun x => finishes (f x)) xs -> finishes (mapM f xs).
Proof.
  induction 1 as [|x xs Hx Hxs IH]; simpl.
  - apply finishes_ret.
  - apply finishes_bind; [exact Hx | intros y _ _ _].
    apply finishes_bind; [exact IH | intros ys _ _ _]. apply finishes_ret.
Qed.

Lemma le_list_max {A} (f : A -> nat) (x : A) (xs : list A) :
  In x xs -> (f x <= list_max (map f xs))%nat.
Proof.
  induction xs as [|y xs IH]; simpl; [tauto|].
  intros [->|Hin]; [lia|]. specialize (IH Hin). lia.
Qed.

Section Termination.
Context `{Imports}.
Variable this : Compiler.

Lemma addPrimitive_finishes p : finishes (addPrimitive p).
Proof. intros st. unfold addPrimitive. destruct (JsObject.has _ _); discriminate. Qed.

Lemma addMetaData_finishes m : finishes (addMetaData m).
Proof. intros st. unfold addMetaData. destruct (JsObject.has _ _); discriminate. Qed.

Lemma dollar_type_finishes x : finishes (dollar_type x).
Proof. intros st. destruct x as [[]| |]; discriminate. Qed.

Lemma source_tag_finishes x : finishes (source_tag x).
Proof. intros st. destruct x as [[]| |]; discriminate. Qed.

Lemma depth_at_index xs i n :
  (1 <= n)%nat -> Forall (fun x => (depth x <= n)%nat) xs -> (depth (at_index xs i) <= n)%nat.
Proof.
  intros Hn Hxs. unfold at_index.
  destruct (nth_in_or_default i xs undefined) as [Hin| ->]; [|exact Hn].
  rewrite List.Forall_forall in Hxs. now apply Hxs.
Qed.

Lemma Forall_skipn {A} (P : A -> Prop) n xs : Forall P xs -> Forall P (skipn n xs).
Proof.
  revert xs. induction n as [|n IH]; intros xs Hxs; [exact Hxs|].
  destruct Hxs as [|x xs Hx Hxs]; simpl; [constructor | now apply IH].
Qed.

Section OneLevel.
Variable self : node -> M IntermediateReference.
Variable n : nat.
Hypothesis n_positive : (1 <= n)%nat.
Hypothesis self_finishes : forall e, (depth e <= n)%nat -> finishes (self e).

Lemma mapM_self_finishes xs :
  Forall (fun x => (depth x <= n)%nat) xs -> finishes (mapM self xs).
Proof.
  intros Hxs. apply finishes_mapM.
  eapply List.Forall_impl; [|exact Hxs]. intros x. apply self_finishes.
Qed.

Lemma invalidationPath_finishes cond invalidatedPath :
  (depth cond <= n)%nat ->
  Forall (fun x => (depth x <= n)%nat) invalidatedPath ->
  finishes (invalidationPath this self cond invalidatedPath).
Proof.
  intros Hcond Hpath. unfold invalidationPath.
  pose proof (depth_at_index invalidatedPath 0 n n_positive Hpath) as Hroot.
  apply finishes_bind; [now apply self_finishes | intros condProj _ _ _].
  apply finishes_bind; [apply dollar_type_finishes | intros rootType _ _ _].
  destruct (is_type rootType "context").
  { apply finishes_bind; [|intros; apply finishes_ret].
    apply mapM_self_finishes. constructor; [exact Hroot|].
    constructor; [exact n_positive | now apply Forall_skipn]. }
  destruct ((1 <? length invalidatedPath)%nat && is_type rootType "topLevel").
  { apply finishes_bind; [|intros; apply finishes_ret].
    apply mapM_self_finishes. constructor; [exact Hroot|].
    constructor; [exact n_positive | now apply Forall_skipn]. }
  apply finishes_bind.
  { destruct (1 <? length invalidatedPath)%nat; [|apply finishes_ret].
    destruct (at_index invalidatedPath 0); try apply finishes_ret.
    destruct (String.eqb (t_type head) "get"); [|apply finishes_ret].
    apply finishes_bind; [apply dollar_type_finishes | intros; apply finishes_ret]. }
  intros getOfTopLevel _ _ _.
  destruct (getOfTopLevel || _); [|apply finishes_ret].
  apply finishes_bind; [|intros; apply finishes_ret].
  now apply mapM_self_finishes.
Qed.

Lemma invalidationPaths_finishes pathsThatInvalidate :
  Forall (fun pc => Forall (fun x => (depth x <= n)%nat) (fst pc)
                    /\ (depth (snd pc) <= n)%nat) pathsThatInvalidate ->
  finishes (invalidationPaths this self pathsThatInvalidate).
Proof.
  induction 1 as [|[p c] rest [Hp Hc] Hrest IH]; simpl.
  - apply finishes_ret.
  - apply finishes_bind; [now apply invalidationPath_finishes | intros entry _ _ _].
    apply finishes_bind; [exact IH | intros; apply finishes_ret].
Qed.

Lemma argsManipulators_finishes expression currentToken type args :
  finishes (argsManipulators this expression currentToken type args).
Proof.
  unfold argsManipulators.
  destruct (String.eqb type "get"); [apply finishes_ret|].
  destruct (String.eqb type "trace").
  { apply finishes_bind; [apply source_tag_finishes | intros nextSrc _ _ _].
    apply finishes_bind; [apply dollar_type_finishes | intros; apply finishes_ret]. }
  destruct (_ || _); [apply finishes_ret|].
  destruct (String.eqb type "range"); apply finishes_ret.
Qed.

Lemma argsManipulators_depth expression currentToken type args st manipulated st' :
  Forall (fun x => (depth x <= n)%nat) args ->
  argsManipulators this expression currentToken type args st = Ok (manipulated, st') ->
  Forall (fun x => (depth x <= n)%nat) manipulated.
Proof.
  intros Hargs. unfold argsManipulators.
  pose proof (fun i => depth_at_index args i n n_positive Hargs) as Hat.
  destruct (String.eqb type "get").
  { intros Hrun. inv_run. constructor; [apply Hat|]. constructor; [|constructor].
    destruct (isTokenOfType _ _); [exact n_positive | apply Hat]. }
  destruct (String.eqb type "trace").
  { intros Hrun. inv_run. repeat constructor; try exact n_positive. apply Hat. }
  destruct (_ || _).
  { intros Hrun. inv_run. constructor; [exact n_positive | exact Hargs]. }
  destruct (String.eqb type "range"); intros Hrun; inv_run; [|exact Hargs].
  constructor; [apply Hat|].
  constructor; [|constructor; [|constructor]].
  - specialize (Hat 1%nat). destruct (at_index args 1); simpl in *; lia.
  - specialize (Hat 2%nat). destruct (at_index args 2); simpl in *; lia.
Qed.

Lemma depthToken_path t p c :
  In (p, c) (t_path t) ->
  Forall (fun x => (depth x <= depthToken t)%nat) p /\ (depth c <= depthToken t)%nat.
Proof.
  destruct t as [ty so path inv tr id]. simpl. intros Hin.
  pose proof (le_list_max
                (fun pc : list node * node =>
                   let '(p, c) := pc in Nat.max (list_max (map depth p)) (depth c))
                (p, c) path Hin) as Hle.
  simpl in Hle. split; [|lia].
  apply List.Forall_forall. intros x Hx.
  pose proof (le_list_max depth x p Hx). lia.
Qed.

Lemma generateProjectionFromExpression_finishes expression :
  (depth expression <= S n)%nat ->
  finishes (generateProjectionFromExpression this self expression).
Proof.
  intros Hdepth. unfold generateProjectionFromExpression.
  destruct expression as [v|t|head args]; [apply finishes_throw| |].
  - simpl in Hdepth.
    apply finishes_bind.
    { apply invalidationPaths_finishes. apply List.Forall_forall. intros [p c] Hin.
      destruct (depthToken_path t p c Hin) as [Hp Hc]. simpl. split; [|lia].
      eapply List.Forall_impl; [|exact Hp]. intros x Hx. simpl in Hx. lia. }
    intros paths _ _ _.
    apply finishes_bind; [apply addPrimitive_finishes | intros type _ _ _].
    apply finishes_bind; [apply addMetaData_finishes | intros metaData _ _ _].
    apply finishes_bind; [apply argsManipulators_finishes | intros manipulated st st' Hm].
    apply finishes_bind; [|intros; apply finishes_ret].
    apply mapM_self_finishes.
    eapply argsManipulators_depth; [|exact Hm]. constructor.
  - simpl in Hdepth.
    apply finishes_bind.
    { apply invalidationPaths_finishes. apply List.Forall_forall. intros [p c] Hin.
      destruct (depthToken_path head p c Hin) as [Hp Hc]. simpl. split; [|lia].
      eapply List.Forall_impl; [|exact Hp]. intros x Hx. simpl in Hx. lia. }
    intros paths _ _ _.
    apply finishes_bind; [apply addPrimitive_finishes | intros type _ _ _].
    apply finishes_bind; [apply addMetaData_finishes | intros metaData _ _ _].
    apply finishes_bind; [apply argsManipulators_finishes | intros manipulated st st' Hm].
    apply finishes_bind; [|intros; apply finishes_ret].
    apply mapM_self_finishes.
    eapply argsManipulators_depth; [|exact Hm].
    apply List.Forall_forall. intros x Hx.
    pose proof (le_list_max depth x args Hx). lia.
Qed.

Lemma serializeProjectionStep_finishes expression :
  (depth expression <= S n)%nat ->
  finishes (serializeProjectionStep this self expression).
Proof.
  intros Hdepth. unfold serializeProjectionStep.
  assert (Hobj : forall hash,
             finishes
               (bind (hasProjection hash)
                  (fun present =>
                     if present then ret (Projections hash)
                     else bind (generateProjectionFromExpression this self expression)
                            (fun p => bind (setProjection hash p)
                                        (fun _ => ret (Projections hash)))))).
  { intros hash. apply finishes_bind; [intros st; discriminate | intros present _ _ _].
    destruct present; [apply finishes_ret|].
    apply finishes_bind;
      [now apply generateProjectionFromExpression_finishes | intros p _ _ _].
    apply finishes_bind; [intros st; discriminate | intros; apply finishes_ret]. }
  destruct expression as [v|t|head args]; [|apply Hobj..].
  destruct v; try (apply finishes_bind;
                   [apply addPrimitive_finishes | intros; apply finishes_ret]).
  destruct (canBeStoredInRef n0); [apply finishes_ret|].
  apply finishes_bind; [apply addPrimitive_finishes | intros; apply finishes_ret].
Qed.
End OneLevel.

Lemma depth_positive e : (1 <= depth e)%nat.
Proof. destruct e; simpl; lia. Qed.

Lemma serializeProjection_finishes fuel :
  forall expression,
    (depth expression <= fuel)%nat -> finishes (serializeProjection this fuel expression).
Proof.
  induction fuel as [|fuel IH]; intros expression Hdepth.
  - pose proof (depth_positive expression). lia.
  - simpl. destruct fuel as [|fuel].
    + destruct expression as [v|t|head args]; simpl in Hdepth; try lia.
      unfold serializeProjectionStep.
      destruct v; try (apply finishes_bind;
                       [apply addPrimitive_finishes | intros; apply finishes_ret]).
      destruct (canBeStoredInRef n); [apply finishes_ret|].
      apply finishes_bind; [apply addPrimitive_finishes | intros; apply finishes_ret].
    + apply (serializeProjectionStep_finishes _ (S fuel)); [lia | exact IH | exact Hdepth].
Qed.

Lemma buildTables_finishes fuel :
  (enoughFuel this <= fuel)%nat -> finishes (buildTables this fuel).
Proof.
  unfold enoughFuel. intros Hfuel. unfold buildTables.
  apply finishes_bind.
  { apply finishes_mapM. apply List.Forall_forall. intros name _.
    unfold intermediateTopLevel.
    apply finishes_bind.
    - apply serializeProjection_finishes. unfold getter.
      destruct (JsObject.get (this_getters this) name) as [e|] eqn:Hget; [|simpl; lia].
      apply JsObjectFacts.get_In in Hget.
      pose proof (le_list_max (fun entry : string * node => depth (snd entry))
                    _ _ Hget) as Hle. simpl in Hle. lia.
    - intros proj _ _ _. apply finishes_bind; [|intros; apply finishes_ret].
      destruct (_ || _); [|apply finishes_ret].
      apply finishes_bind; [apply addPrimitive_finishes | intros; apply finishes_ret]. }
  intros tls _ _ _.
  apply finishes_bind; [|intros; apply finishes_ret].
  unfold serializeSetters. apply finishes_mapM. apply List.Forall_forall.
  intros [name setter] Hin. simpl. unfold serializeSetter.
  pose proof (le_list_max
                (fun entry : string * SetterExpression =>
                   list_max (map depth (parts (snd entry)))) _ _ Hin) as Hle.
  simpl in Hle.
  apply finishes_bind.
  - apply finishes_mapM. apply List.Forall_forall. intros token Htoken.
    destruct (isTokenOfType token "key").
    + apply serializeProjection_finishes. simpl. lia.
    + apply serializeProjection_finishes.
      assert (Hin' : In token (parts setter)).
      { clear -Htoken. destruct (parts setter); simpl in *; [tauto | now right]. }
      pose proof (le_list_max depth _ _ Hin'). lia.
  - intros proj _ _ _.
    apply finishes_bind; [apply addPrimitive_finishes | intros t _ _ _].
    apply finishes_bind; [apply addPrimitive_finishes | intros; apply finishes_ret].
Qed.

(** Every compile finishes, with data or with an error, under a bound read
  off the compiler object. *)
Lemma buildProjectionData_finishes fuel :
  (enoughFuel this <= fuel)%nat -> buildProjectionData this fuel <> OutOfFuel.
Proof.
  intros Hfuel. unfold buildProjectionData.
  pose proof (buildTables_finishes fuel Hfuel emptyTables) as Hrun.
  destruct (buildTables this fuel emptyTables) as [[[tls sts] st]| |];
    [discriminate | discriminate | contradiction].
Qed.
End Termination.

(** ** Runs with different bounds *)

Lemma refines_refl {A} (m : M A) : refines m m.
Proof. intros st. now right. Qed.

Lemma refines_bind {A B} (m m' : M A) (k k' : A -> M B) :
  refines m m' -> (forall a, refines (k a) (k' a)) -> refines (bind m k) (bind m' k').
Proof.
  intros Hm Hk st. unfold bind.
  destruct (Hm st) as [->| <-]; [now left|].
  destruct (m st) as [[a st1]| |]; [apply Hk | now right | now right].
Qed.

Lemma refines_mapM {A B} (f f' : A -> M B) xs :
  (forall x, refines (f x) (f' x)) -> refines (mapM f xs) (mapM f' xs).
Proof.
  intros Hf. induction xs as [|x xs IH]; simpl.
  - apply refines_refl.
  - apply refines_bind; [apply Hf | intros y].
    apply refines_bind; [apply IH | intros ys]. apply refines_refl.
Qed.

Ltac refines_step :=
  first
    [ assumption
    | apply refines_refl
    | apply refines_mapM; intros ?
    | apply refines_bind; [ | intros ? ]
    | match goal with
      | |- refines (if ?b then _ else _) (if ?b then _ else _) => destruct b
      | |- refines (match ?x with _ => _ end) (match ?x with _ => _ end) => destruct x
      end ].

Section Fuel.
Context `{Imports}.
Variable this : Compiler.

Section OneLevel.
Variables self self' : node -> M IntermediateReference.
Hypothesis self_refines : forall e, refines (self e) (self' e).

Lemma invalidationPath_refines cond invalidatedPath :
  refines (invalidationPath this self cond invalidatedPath)
          (invalidationPath this self' cond invalidatedPath).
Proof. unfold invalidationPath. repeat first [ apply self_refines | refines_step ]. Qed.

Lemma invalidationPaths_refines pathsThatInvalidate :
  refines (invalidationPaths this self pathsThatInvalidate)
          (invalidationPaths this self' pathsThatInvalidate).
Proof.
  induction pathsThatInvalidate as [|[invalidatedPath cond] rest IH]; simpl.
  - apply refines_refl.
  - apply refines_bind; [apply invalidationPath_refines | intros entry].
    apply refines_bind; [apply IH | intros paths]. apply refines_refl.
Qed.

Lemma generateProjectionFromExpression_refines expression :
  refines (generateProjectionFromExpression this self expression)
          (generateProjectionFromExpression this self' expression).
Proof.
  pose proof invalidationPaths_refines as Hpaths.
  unfold generateProjectionFromExpression.
  destruct expression; repeat first [ apply self_refines | apply Hpaths | refines_step ].
Qed.

Lemma serializeProjectionStep_refines expression :
  refines (serializeProjectionStep this self expression)
          (serializeProjectionStep this self' expression).
Proof.
  pose proof generateProjectionFromExpression_refines as Hgen.
  unfold serializeProjectionStep.
  destruct expression; repeat first [ apply Hgen | refines_step ].
Qed.
End OneLevel.

Lemma serializeProjection_fuel fuel fuel' expression :
  (fuel <= fuel')%nat ->
  refines (serializeProjection this fuel expression)
          (serializeProjection this fuel' expression).
Proof.
  revert fuel' expression.
  induction fuel as [|fuel IH]; intros fuel' expression Hle.
  - intros st. now left.
  - destruct fuel' as [|fuel']; [lia|]. simpl.
    apply serializeProjectionStep_refines. intros e. apply IH. lia.
Qed.

Lemma buildTables_fuel fuel fuel' :
  (fuel <= fuel')%nat -> refines (buildTables this fuel) (buildTables this fuel').
Proof.
  intros Hle. pose proof (fun e => serializeProjection_fuel fuel fuel' e Hle) as Hser.
  unfold buildTables, serializeSetters, intermediateTopLevel, serializeSetter.
  repeat first [ apply Hser | refines_step ].
Qed.

Lemma buildProjectionData_fuel fuel fuel' :
  (fuel <= fuel')%nat ->
  finishes_as (buildProjectionData this fuel) (buildProjectionData this fuel').
Proof.
  intros Hle. unfold buildProjectionData.
  destruct (buildTables_fuel fuel fuel' Hle emptyTables) as [->| <-]; [now left | now right].
Qed.

(** The bound on the nesting is immaterial: two evaluations of
  [buildProjectionData] on the same compiler object that both finish,
  whatever the bounds they ran under, end in the same way, and the one
  bounded by [enoughFuel] finishes. *)
Lemma buildProjectionData_bound_immaterial
    (fuel1 fuel2 : nat) (r1 r2 : result ProjectionData)
    (Hrun1 : buildProjectionData this fuel1 = r1)
    (Hrun2 : buildProjectionData this fuel2 = r2)
    (Hdone1 : r1 <> OutOfFuel) (Hdone2 : r2 <> OutOfFuel) :
  r1 = r2
  /\ (forall pd1 pd2, r1 = Ok pd1 -> r2 = Ok pd2 -> pd1 = pd2)
  /\ buildProjectionData this (enoughFuel this) = r1.
Proof.
  assert (Hany : forall f f',
             buildProjectionData this f <> OutOfFuel ->
             buildProjectionData this f' <> OutOfFuel ->
             buildProjectionData this f = buildProjectionData this f').
  { intros f f' Hf Hf'. destruct (Nat.le_ge_cases f f') as [Hle|Hle].
    - destruct (buildProjectionData_fuel _ _ Hle) as [E|E]; [contradiction | exact E].
    - destruct (buildProjectionData_fuel _ _ Hle) as [E|E]; [contradiction | now symmetry]. }
  subst r1 r2. split; [now apply Hany|]. split.
  - intros pd1 pd2 E1 E2. rewrite (Hany _ _ Hdone1 Hdone2) in E1. congruence.
  - apply Hany; [|exact Hdone1]. apply buildProjectionData_finishes. lia.
Qed.
End Fuel.

End VMCompilerFacts.

(** ** The model store *)

Module RuntimeFacts.
Import Runtime.

Section Store.
Variable model : val.
Variable strict : bool.

Lemma length_update h l o : length (update h l o) = length h.
Proof.
  revert l. induction h as [|o' h IH]; intros [|l]; simpl; auto.
Qed.

Lemma nth_error_update_same h l o :
  (l < length h)%nat -> nth_error (update h l o) l = Some o.
Proof.
  revert l. induction h as [|o' h IH]; intros [|l]; simpl; intros Hl; try lia; auto.
  apply IH. lia.
Qed.

Lemma nth_error_update_other h l l' o :
  l <> l' -> nth_error (update h l o) l' = nth_error h l'.
Proof.
  revert l l'. induction h as [|o' h IH]; intros [|l] [|l'] Hne; simpl; auto.
  congruence.
Qed.

Lemma valid_mono h h1 v : (length h <= length h1)%nat -> valid h v -> valid h1 v.
Proof. destruct v; simpl; auto. lia. Qed.

Lemma getProperty_valid h v k x :
  wf_heap model h -> getProperty h v k = Returned x -> valid h x.
Proof.
  intros [_ Hwf]. destruct v as [| | | | |l]; simpl; try discriminate;
    try (intros [= <-]; exact I).
  destruct (nth_error h l) as [o|] eqn:Ho; [|intros [= <-]; exact I].
  destruct (JsObject.get (properties o) (propertyKey k)) as [y|] eqn:Hy;
    intros [= <-]; [|exact I].
  rewrite List.Forall_forall in Hwf. specialize (Hwf o (nth_error_In _ _ Ho)).
  rewrite List.Forall_forall in Hwf.
  exact (Hwf _ (JsObjectFacts.get_In _ _ _ Hy)).
Qed.

Lemma reduceGet_valid h v keys x :
  wf_heap model h -> valid h v -> reduceGet h v keys = Returned x -> valid h x.
Proof.
  intros Hwf. revert v. induction keys as [|k keys IH]; intros v Hv; simpl.
  - intros [= <-]. exact Hv.
  - destruct (getProperty h v k) as [v'|e] eqn:Hget; [|discriminate].
    apply IH. eapply getProperty_valid; eassumption.
Qed.

Lemma getProperty_Threw h h1 v k e :
  getProperty h v k = Threw e -> getProperty h1 v k = Threw e.
Proof.
  destruct v as [| | | | |l]; simpl; auto; try discriminate.
  destruct (nth_error h l); discriminate.
Qed.

(** Reading a property gives the same value in a grown store, when the value
  is truthy or is read off a primitive. *)
Lemma getProperty_grows h h1 v k x :
  grows h h1 -> valid h v ->
  getProperty h v k = Returned x ->
  truthy x = true \/ isPrimitive v ->
  getProperty h1 v k = Returned x.
Proof.
  intros [_ Hgrow] Hv Hget Hx.
  destruct v as [| | | | |l]; simpl in *; try assumption.
  destruct Hx as [Hx|[]].
  destruct (nth_error h l) as [o|] eqn:Ho.
  - destruct (Hgrow l o Ho) as (o1 & -> & Hprops).
    destruct (JsObject.get (properties o) (propertyKey k)) as [y|] eqn:Hy.
    + injection Hget as <-. now rewrite (Hprops _ _ Hy Hx).
    + injection Hget as <-. discriminate Hx.
  - apply nth_error_None in Ho. lia.
Qed.

Lemma ensurePath_unfold path h :
  ensurePath model strict path h
  = if (length path <? 2)%nat then (h, Returned tt)
    else if (length path <=? 2)%nat then ensureLast model strict path h
    else match ensurePath model strict (dropLast path) h with
         | (h', Returned _) => ensureLast model strict path h'
         | (h', Threw e) => (h', Threw e)
         end.
Proof.
  rewrite ensurePath_equation_1. unfold ensurePath_unfold_clause_1.
  destruct (le_lt_dec 2 (length path)) as [H2|H2].
  - destruct (Nat.ltb_spec (length path) 2); [lia|].
    unfold ensurePath_unfold_clause_1_clause_2.
    destruct (le_lt_dec (length path) 2) as [H3|H3].
    + destruct (Nat.leb_spec (length path) 2); [reflexivity | lia].
    + destruct (Nat.leb_spec (length path) 2); [lia|].
      unfold ensurePath_unfold_clause_1_clause_2_clause_2.
      destruct (ensurePath model strict (dropLast path) h) as [h' [[]|e]]; reflexivity.
  - destruct (Nat.ltb_spec (length path) 2); [reflexivity | lia].
Qed.

(** [ensureLast] leaves the store as it is, or gives a container to a
  property of an object that held a falsy value. *)
Lemma ensureLast_cases path h h' out :
  ensureLast model strict path h = (h', out) ->
  h' = h
  \/ exists l o x,
       getAssignableObject model h path (length path - 2) = Returned (Ref l)
       /\ nth_error h l = Some o
       /\ getProperty h (Ref l) (keyAt path (length path - 2)) = Returned x
       /\ truthy x = false
       /\ h' = written h l o (propertyKey (keyAt path (length path - 2)))
                 (isNumber (keyAt path (length path - 1)))
       /\ out = Returned tt.
Proof.
  unfold ensureLast.
  destruct (getAssignableObject model h path (length path - 2)) as [c|e] eqn:Hc;
    [|intros [= <- _]; now left].
  destruct (getProperty h c (keyAt path (length path - 2))) as [x|e] eqn:Hx;
    [|intros [= <- _]; now left].
  destruct (truthy x) eqn:Htruthy; [intros [= <- _]; now left|].
  unfold assignContainer.
  destruct c as [| | | | |l]; try (intros [= <- _]; now left).
  destruct (nth_error h l) as [o|] eqn:Ho; [|intros [= <- _]; now left].
  intros [= <- <-]. right. exists l, o, x. auto 10.
Qed.

Lemma Forall_update (P : object -> Prop) h l o :
  Forall P h -> P o -> Forall P (update h l o).
Proof.
  intros Hh Ho. revert l. induction Hh as [|o' h Ho' Hh IH]; intros [|l]; simpl;
    constructor; auto.
Qed.

Lemma written_grows h l o k x array :
  wf_heap model h ->
  nth_error h l = Some o ->
  getProperty h (Ref l) k = Returned x ->
  truthy x = false ->
  let h' := written h l o (propertyKey k) array in
  grows h h' /\ wf_heap model h' /\ length h' = S (length h)
  /\ getProperty h' (Ref l) k = Returned (Ref (length h)).
Proof.
  intros [Hmodel Hwf] Ho Hx Hfalsy h'.
  assert (Hl : (l < length h)%nat) by (apply nth_error_Some; congruence).
  assert (Hlen : length h' = S (length h)).
  { unfold h', written. rewrite length_app, length_update. simpl. lia. }
  assert (Hat : nth_error h' l = Some (setOwn o (propertyKey k) (Ref (length h)))).
  { unfold h', written. rewrite nth_error_app1 by (rewrite length_update; exact Hl).
    now apply nth_error_update_same. }
  split; [|split; [|split]].
  - split; [lia|]. intros l' o' Ho'.
    destruct (Nat.eq_dec l l') as [<-|Hne].
    + rewrite Hat. eexists. split; [reflexivity|].
      intros name y Hy Hty. simpl.
      assert (o' = o) as -> by congruence.
      destruct (String.eqb_spec (propertyKey k) name) as [<-|Hname].
      * simpl in Hx. rewrite Ho, Hy in Hx. injection Hx as <-. congruence.
      * now rewrite JsObjectFacts.get_set_other.
    + exists o'. split; [|auto].
      unfold h', written.
      rewrite nth_error_app1
        by (rewrite length_update; apply nth_error_Some; congruence).
      now rewrite nth_error_update_other.
  - split; [eapply valid_mono; [|exact Hmodel]; lia|].
    unfold h', written. apply Forall_app. split; [|repeat constructor].
    fold (written h l o (propertyKey k) array). fold h'.
    apply Forall_update.
    + eapply List.Forall_impl; [|exact Hwf]. intros o' Ho'.
      eapply List.Forall_impl; [|exact Ho']. intros kv Hkv.
      eapply valid_mono; [|exact Hkv]. lia.
    + simpl. apply JsObjectFacts.Forall_set.
      * rewrite List.Forall_forall in Hwf. specialize (Hwf o (nth_error_In _ _ Ho)).
        eapply List.Forall_impl; [|exact Hwf]. intros kv Hkv.
        eapply valid_mono; [|exact Hkv]. lia.
      * simpl. lia.
  - exact Hlen.
  - simpl. rewrite Hat. simpl. now rewrite JsObjectFacts.get_set_same.
Qed.

Lemma grows_refl h : grows h h.
Proof. split; [lia|]. intros l o Ho. exists o. auto. Qed.

Lemma grows_trans h1 h2 h3 : grows h1 h2 -> grows h2 h3 -> grows h1 h3.
Proof.
  intros [L12 G12] [L23 G23]. split; [lia|]. intros l o Ho.
  destruct (G12 l o Ho) as (o2 & Ho2 & P12).
  destruct (G23 l o2 Ho2) as (o3 & Ho3 & P23).
  exists o3. split; [exact Ho3|]. auto.
Qed.

Lemma ensureLast_grows path h h' out :
  wf_heap model h ->
  ensureLast model strict path h = (h', out) ->
  grows h h' /\ wf_heap model h' /\ (length h' = length h -> h' = h).
Proof.
  intros Hwf Hrun.
  destruct (ensureLast_cases _ _ _ _ Hrun) as [->|(l & o & x & _ & Ho & Hx & Hfalsy & -> & _)].
  - auto using grows_refl.
  - destruct (written_grows h l o _ x (isNumber (keyAt path (length path - 1)))
                Hwf Ho Hx Hfalsy) as (Hg & Hwf' & Hlen & _).
    split; [exact Hg|]. split; [exact Hwf'|]. lia.
Qed.

Lemma ensurePath_grows path :
  forall h h' out,
    wf_heap model h ->
    ensurePath model strict path h = (h', out) ->
    grows h h' /\ wf_heap model h' /\ (length h' = length h -> h' = h).
Proof.
  induction path as [path IH] using (induction_ltof1 _ (@length key)).
  unfold ltof in IH. intros h h' out Hwf. rewrite ensurePath_unfold.
  destruct (length path <? 2)%nat eqn:H2.
  { intros [= <- _]. auto using grows_refl. }
  destruct (length path <=? 2)%nat eqn:H3; [now apply ensureLast_grows|].
  apply Nat.leb_gt in H3.
  destruct (ensurePath model strict (dropLast path) h) as [h1 [[]|e]] eqn:Hpre.
  - intros Hlast.
    assert (Hlt : (length (dropLast path) < length path)%nat)
      by (unfold dropLast; rewrite length_firstn; lia).
    destruct (IH _ Hlt _ _ _ Hwf Hpre) as (G1 & W1 & E1).
    destruct (ensureLast_grows _ _ _ _ W1 Hlast) as (G2 & W2 & E2).
    split; [eapply grows_trans; eassumption|]. split; [exact W2|].
    intros Hlen. destruct G1 as [L1 _], G2 as [L2 _].
    rewrite E2 by lia. apply E1. lia.
  - intros [= <- _].
    assert (Hlt : (length (dropLast path) < length path)%nat)
      by (unfold dropLast; rewrite length_firstn; lia).
    exact (IH _ Hlt _ _ _ Hwf Hpre).
Qed.

Lemma reduceGet_snoc h v keys n d :
  (n < length keys)%nat ->
  reduceGet h v (firstn (S n) keys)
  = match reduceGet h v (firstn n keys) with
    | Returned c => getProperty h c (nth n keys d)
    | Threw e => Threw e
    end.
Proof.
  revert v n. induction keys as [|k keys IH]; intros v n Hn; simpl in Hn; [lia|].
  destruct n as [|n]; simpl.
  - now destruct (getProperty h v k).
  - destruct (getProperty h v k) as [v'|e]; [|reflexivity].
    apply IH. lia.
Qed.

(** A run of [ensurePath] that returns and changes nothing does the same in
  any grown store, and walks to the same place. *)
Lemma ensurePath_settled_grows path :
  forall h h1,
    wf_heap model h -> grows h h1 ->
    (2 <= length path)%nat ->
    ensurePath model strict path h = (h, Returned tt) ->
    ensurePath model strict path h1 = (h1, Returned tt)
    /\ reduceGet h1 model (dropLast path) = reduceGet h model (dropLast path)
    /\ exists x, reduceGet h model (dropLast path) = Returned x.
Proof.
  induction path as [path IH] using (induction_ltof1 _ (@length key)).
  unfold ltof in IH. intros h h1 Hwf Hgrow Hlen.
  rewrite (ensurePath_unfold path h), (ensurePath_unfold path h1).
  destruct (Nat.ltb_spec (length path) 2) as [?|_]; [lia|].
  assert (Hlast : forall h0,
             reduceGet h0 model (dropLast path)
             = match getAssignableObject model h0 path (length path - 2) with
               | Returned c => getProperty h0 c (keyAt path (length path - 2))
               | Threw e => Threw e
               end).
  { intros h0. unfold getAssignableObject, dropLast, keyAt.
    replace (length path - 1)%nat with (S (length path - 2)) by lia.
    apply reduceGet_snoc. lia. }
  assert (Hstep : forall c,
             getAssignableObject model h path (length path - 2) = Returned c ->
             getAssignableObject model h1 path (length path - 2) = Returned c ->
             ensureLast model strict path h = (h, Returned tt) ->
             ensureLast model strict path h1 = (h1, Returned tt)
             /\ reduceGet h1 model (dropLast path) = reduceGet h model (dropLast path)
             /\ exists x, reduceGet h model (dropLast path) = Returned x).
  { intros c Hc Hc1 Hrun. rewrite !Hlast, Hc, Hc1.
    assert (Hvc : valid h c).
    { unfold getAssignableObject in Hc. eapply reduceGet_valid; [exact Hwf| |exact Hc].
      apply Hwf. }
    unfold ensureLast in Hrun |- *. rewrite Hc in Hrun. rewrite Hc1.
    destruct (getProperty h c (keyAt path (length path - 2))) as [x|e] eqn:Hx;
      [|discriminate].
    assert (Hx1 : getProperty h1 c (keyAt path (length path - 2)) = Returned x).
    { eapply getProperty_grows; [exact Hgrow|exact Hvc|exact Hx|].
      destruct (truthy x) eqn:Htruthy; [now left|]. right.
      destruct c as [| | | | |l]; simpl; auto.
      unfold assignContainer in Hrun.
      destruct (nth_error h l) as [o|] eqn:Ho.
      - injection Hrun as Hh. exfalso.
        apply (f_equal (@length object)) in Hh.
        rewrite length_app, length_update in Hh. simpl in Hh. lia.
      - apply nth_error_None in Ho. simpl in Hvc. lia. }
    rewrite Hx1. split; [|split; [reflexivity | eauto]].
    destruct (truthy x); [reflexivity|].
    destruct c as [| | | | |l]; simpl in *; try discriminate;
      try (destruct strict; [discriminate | reflexivity]).
    destruct (nth_error h l) as [o|] eqn:Ho.
    - injection Hrun as Hh. exfalso.
      apply (f_equal (@length object)) in Hh.
      rewrite length_app, length_update in Hh. simpl in Hh. lia.
    - apply nth_error_None in Ho. lia. }
  destruct (Nat.leb_spec (length path) 2) as [H3|H3].
  - assert (Hc : forall h0, getAssignableObject model h0 path (length path - 2)
                            = Returned model).
    { intros h0. unfold getAssignableObject.
      replace (length path - 2)%nat with 0%nat by lia. reflexivity. }
    intros Hrun. eapply (Hstep model); auto.
  - assert (Hlt : (length (dropLast path) < length path)%nat)
      by (unfold dropLast; rewrite length_firstn; lia).
    assert (Hlen' : (2 <= length (dropLast path))%nat)
      by (unfold dropLast; rewrite length_firstn; lia).
    destruct (ensurePath model strict (dropLast path) h) as [h' [[]|e]] eqn:Hpre;
      [|discriminate].
    intros Hrun.
    destruct (ensurePath_grows _ _ _ _ Hwf Hpre) as ([L1 _] & W1 & E1).
    destruct (ensureLast_grows _ _ _ _ W1 Hrun) as ([L2 _] & _ & _).
    assert (h' = h) as -> by (apply E1; lia).
    destruct (IH _ Hlt h h1 Hwf Hgrow Hlen' Hpre) as (Hpre1 & Hwalk & c & Hc).
    rewrite Hpre1.
    assert (Hdd : dropLast (dropLast path) = firstn (length path - 2) path).
    { unfold dropLast. rewrite length_firstn, firstn_firstn.
      f_equal. lia. }
    rewrite Hdd in Hwalk, Hc.
    eapply (Hstep c); auto.
    unfold getAssignableObject. now rewrite Hwalk.
Qed.

Lemma ensureLast_after_write path h l o x :
  wf_heap model h ->
  nth_error h l = Some o ->
  getProperty h (Ref l) (keyAt path (length path - 2)) = Returned x ->
  truthy x = false ->
  let h1 := written h l o (propertyKey (keyAt path (length path - 2)))
              (isNumber (keyAt path (length path - 1))) in
  getAssignableObject model h1 path (length path - 2) = Returned (Ref l) ->
  ensureLast model strict path h1 = (h1, Returned tt).
Proof.
  intros Hwf Ho Hx Hfalsy h1 Hc.
  destruct (written_grows h l o _ x (isNumber (keyAt path (length path - 1)))
              Hwf Ho Hx Hfalsy) as (_ & _ & _ & Hread).
  fold h1 in Hread. unfold ensureLast. now rewrite Hc, Hread.
Qed.

(** C4: from every model state, a second [ensurePath(p)] changes nothing: it
  leaves the store in the state the first call left it in, and ends as the
  first call did. *)
Theorem ensurePath_idempotent (path : list key) :
  forall (h h1 : heap) (out : outcome unit),
    wf_heap model h ->
    ensurePath model strict path h = (h1, out) ->
    ensurePath model strict path h1 = (h1, out).
Proof.
  induction path as [path IH] using (induction_ltof1 _ (@length key)).
  unfold ltof in IH. intros h h1 out Hwf.
  rewrite (ensurePath_unfold path h), (ensurePath_unfold path h1).
  destruct (Nat.ltb_spec (length path) 2) as [?|H2]; [now intros [= <- <-]|].
  destruct (Nat.leb_spec (length path) 2) as [H3|H3].
  - intros Hrun.
    destruct (ensureLast_cases _ _ _ _ Hrun)
      as [->|(l & o & x & Hc & Ho & Hx & Hfalsy & -> & ->)]; [exact Hrun|].
    eapply ensureLast_after_write; eauto.
    unfold getAssignableObject in *.
    replace (length path - 2)%nat with 0%nat in * by lia. exact Hc.
  - assert (Hlt : (length (dropLast path) < length path)%nat)
      by (unfold dropLast; rewrite length_firstn; lia).
    assert (Hlen' : (2 <= length (dropLast path))%nat)
      by (unfold dropLast; rewrite length_firstn; lia).
    destruct (ensurePath model strict (dropLast path) h) as [h' [[]|e]] eqn:Hpre.
    + pose proof (IH _ Hlt _ _ _ Hwf Hpre) as Hpre'.
      destruct (ensurePath_grows _ _ _ _ Hwf Hpre) as (_ & Hwf' & _).
      intros Hrun.
      destruct (ensureLast_cases _ _ _ _ Hrun)
        as [->|(l & o & x & Hc & Ho & Hx & Hfalsy & -> & ->)].
      * now rewrite Hpre'.
      * destruct (written_grows h' l o _ x (isNumber (keyAt path (length path - 1)))
                    Hwf' Ho Hx Hfalsy) as (Hgrow & _).
        destruct (ensurePath_settled_grows _ _ _ Hwf' Hgrow Hlen' Hpre')
          as (-> & Hwalk & _).
        eapply ensureLast_after_write; eauto.
        unfold getAssignableObject in *.
        assert (Hdd : dropLast (dropLast path) = firstn (length path - 2) path).
        { unfold dropLast. rewrite length_firstn, firstn_firstn. f_equal. lia. }
        rewrite Hdd in Hwalk. now rewrite Hwalk.
    + intros [= <- <-]. now rewrite (IH _ Hlt _ _ _ Hwf Hpre).
Qed.
End Store.

Lemma ensurePath_idempotent_witness :
  let h0 := [{| isArray := false; properties := [("x", Num 1)] |}] in
  let path := [KStr "a"; KNum 0; KStr "b"] in
  let h1 := [{| isArray := false; properties := [("x", Num 1); ("a", Ref 1)] |};
             {| isArray := true; properties := [("0", Ref 2)] |};
             {| isArray := false; properties := [] |}] in
  ensurePath (Ref 0) false path h0 = (h1, Returned tt)
  /\ ensurePath (Ref 0) false path h1 = (h1, Returned tt).
Proof.
  intros h0 path h1.
  assert (Hrun : ensurePath (Ref 0) false path h0 = (h1, Returned tt))
    by (vm_compute; reflexivity).
  split; [exact Hrun|].
  apply (ensurePath_idempotent (Ref 0) false path h0 h1 (Returned tt)); [|exact Hrun].
  split; simpl; [lia|]. repeat constructor.
Defined.
End RuntimeFacts.


(** ** The instance *)

Module InstanceFacts.
Import Runtime Instance.

Section Machine.
Context {func : Type}.
Variable applyFunc : func -> list val -> heap -> heap * outcome unit.

Local Abbreviation calls := (Instance.calls func applyFunc).
Local Abbreviation applyAll := (Instance.applyAll func applyFunc).
Local Abbreviation endBatchBody := (Instance.endBatchBody func applyFunc).
Local Abbreviation setter := (Instance.setter func applyFunc).

(** A drain that returns has applied the calls in order, and touched nothing
  but the store. *)
Lemma applyAll_Ok (q : list (pending func)) (s s' : instance func) :
  applyAll q s = (s', Ok tt) ->
  s' = {| store := store s'; inBatch := inBatch s; inRecalculate := inRecalculate s;
          batchPending := batchPending s; batchingStrategy := batchingStrategy s;
          listeners := listeners s; log := log s ++ map Applied q |}.
Proof.
  revert s. induction q as [|c q IH]; intros s; simpl.
  - intros [= <-]. destruct s; simpl. now rewrite app_nil_r.
  - unfold andThen, applyCall.
    destruct (applyFunc (pending_func func c) (pending_args func c) (store s))
      as [h [[]|e]]; [|discriminate].
    intros Hrun. rewrite (IH _ Hrun) at 1. simpl.
    now rewrite <- app_assoc.
Qed.

Lemma skipn_nth_error {A} (xs : list A) (i : nat) (x : A) :
  nth_error xs i = Some x -> skipn i xs = x :: skipn (S i) xs.
Proof.
  revert i. induction xs as [|y xs IH]; intros [|i] Hi; simpl in *; try discriminate.
  - now injection Hi as ->.
  - now apply IH.
Qed.

Lemma notifyFrom_passive (fuel i : nat) (s : instance func) :
  passive (listeners s) ->
  (length (listeners s) - i < fuel)%nat ->
  notifyFrom func (calls fuel) i s
  = ({| store := store s; inBatch := inBatch s; inRecalculate := inRecalculate s;
        batchPending := batchPending s; batchingStrategy := batchingStrategy s;
        listeners := listeners s;
        log := log s ++ map Notified (liveIds (skipn i (listeners s))) |},
     Ok tt).
Proof.
  revert i s. induction fuel as [|fuel IH]; intros i s Hpassive Hfuel; [lia|].
  simpl. unfold Instance.notifyFromBody.
  destruct (nth_error (listeners s) i) as [entry|] eqn:Hi.
  - pose proof (proj1 (nth_error_Some (listeners s) i) ltac:(congruence)) as Hlt.
    rewrite (skipn_nth_error _ _ _ Hi).
    destruct entry as [[id body]|].
    + assert (body = []) as ->.
      { unfold passive in Hpassive. rewrite List.Forall_forall in Hpassive.
        exact (Hpassive _ (nth_error_In _ _ Hi)). }
      destruct fuel as [|fuel']; [lia|].
      unfold andThen. cbn [Instance.calls run Instance.runBody].
      rewrite IH; [|exact Hpassive | simpl; lia]. simpl.
      now rewrite <- app_assoc.
    + rewrite IH; [reflexivity | exact Hpassive | lia].
  - apply nth_error_None in Hi. rewrite skipn_all2 by exact Hi.
    destruct s; simpl. now rewrite app_nil_r.
Qed.

(** A recalculation outside a batch, the queue empty and the listeners
  calling nothing of the instance: one recomputation, then every listener
  of the [Set] once, in the order they were added. *)
Lemma recalculate_passive (fuel : nat) (s : instance func) :
  inBatch s = false -> batchPending s = [] ->
  passive (listeners s) ->
  (length (listeners s) + 1 < fuel)%nat ->
  recalculate func (calls fuel) s
  = ({| store := store s; inBatch := false; inRecalculate := false;
        batchPending := []; batchingStrategy := batchingStrategy s;
        listeners := listeners s;
        log := log s ++ Recomputed :: map Notified (liveIds (listeners s)) |},
     Ok tt).
Proof.
  intros Hbatch Hqueue Hpassive Hfuel.
  destruct fuel as [|fuel]; [lia|].
  simpl. unfold Instance.recalculateBody. rewrite Hbatch.
  rewrite notifyFrom_passive; [|exact Hpassive | simpl; lia].
  simpl. rewrite Hqueue, Hbatch. now rewrite <- app_assoc.
Qed.

(** C5, as the code has it: [$endBatch] clears [inBatch].  On an empty queue
  it does nothing more, and does not recompute.  On a queue that is not
  empty it applies the queued calls in the order they were queued, empties
  the queue and calls [recalculate] once (the calls returning); with
  listeners that call nothing of the instance, so that none queues a
  further call, this is exactly one recomputation, followed by one
  notification of each listener. *)
Theorem endBatch_drains_in_order_then_recalculates
    (fuel : nat) (s : instance func) :
  (batchPending s = [] -> endBatchBody (calls fuel) s = (setInBatch false s, Ok tt))
  /\ (forall s',
        batchPending s <> [] ->
        applyAll (batchPending s) (setInBatch false s) = (s', Ok tt) ->
        let drained :=
          {| store := store s'; inBatch := false; inRecalculate := inRecalculate s;
             batchPending := []; batchingStrategy := batchingStrategy s;
             listeners := listeners s;
             log := log s ++ map Applied (batchPending s) |} in
        endBatchBody (calls fuel) s = recalculate func (calls fuel) drained
        /\ (passive (listeners s) -> (length (listeners s) + 2 <= fuel)%nat ->
            endBatchBody (calls fuel) s
            = ({| store := store s'; inBatch := false; inRecalculate := false;
                  batchPending := []; batchingStrategy := batchingStrategy s;
                  listeners := listeners s;
                  log := log s ++ map Applied (batchPending s)
                         ++ Recomputed :: map Notified (liveIds (listeners s)) |},
               Ok tt))).
Proof.
  split.
  - intros Hq. unfold Instance.endBatchBody. simpl. now rewrite Hq.
  - intros s' Hq Hdrain drained.
    assert (Hbody : endBatchBody (calls fuel) s = recalculate func (calls fuel) drained).
    { unfold Instance.endBatchBody. simpl.
      destruct (batchPending s) as [|c q] eqn:Eq; [contradiction|].
      rewrite Hdrain. f_equal.
      rewrite (applyAll_Ok _ _ _ Hdrain). reflexivity. }
    split; [exact Hbody|].
    intros Hpassive Hfuel. rewrite Hbody.
    rewrite recalculate_passive; [|reflexivity | reflexivity | exact Hpassive | simpl; lia].
    unfold drained. cbn [store batchingStrategy listeners log].
    now rewrite <- app_assoc.
Qed.

(** C6, as the code has it.  When [inBatch] or [inRecalculate] is set the call
  of a setter is queued, last, and that is all: a batching strategy, even
  installed, is not invoked.  When neither is set and a strategy is
  installed, the call is queued, [inBatch] is set and the strategy is
  invoked.  When neither is set and no strategy is installed, the mutation
  is applied at once and [recalculate] runs. *)
Theorem setter_enqueues_or_applies
    (fuel : nat) (f : func) (args : list val) (s : instance func) :
  let c := {| pending_func := f; pending_args := args |} in
  let queued := record (Enqueued c) (setBatchPending (batchPending s ++ [c]) s) in
  (inBatch s || inRecalculate s = true ->
   setter (calls fuel) f args s = (queued, Ok tt))
  /\ (inBatch s || inRecalculate s = false ->
      forall body, batchingStrategy s = Some body ->
      setter (calls fuel) f args s
      = run func (calls fuel) body (record StrategyInvoked (setInBatch true queued)))
  /\ (inBatch s || inRecalculate s = false ->
      batchingStrategy s = None ->
      forall h, applyFunc f args (store s) = (h, Returned tt) ->
      setter (calls fuel) f args s
      = recalculate func (calls fuel) (record (Applied c) (setStore h s))
      /\ ((1 <= fuel)%nat ->
          setter (calls fuel) f args s
          = match notifyFrom func (calls (fuel - 1)) 0
                    (record Recomputed
                       (setInRecalculate true (record (Applied c) (setStore h s)))) with
            | (s', Ok _) =>
                match batchPending s' with
                | [] => (setInRecalculate false s', Ok tt)
                | _ :: _ => endBatch func (calls (fuel - 1)) (setInRecalculate false s')
                end
            | (s', Throw e) => (s', Throw e)
            | (s', OutOfFuel) => (s', OutOfFuel)
            end)).
Proof.
  intros c queued. split; [|split].
  - intros Hflags. unfold Instance.setter. rewrite Hflags. simpl.
    apply orb_true_iff in Hflags.
    destruct (inBatch s), (inRecalculate s); simpl; try reflexivity.
    destruct Hflags; discriminate.
  - intros Hflags body Hbody. unfold Instance.setter. rewrite Hflags, Hbody. simpl.
    apply orb_false_iff in Hflags as [-> ->]. simpl. now rewrite Hbody.
  - intros Hflags Hnone h Happly.
    assert (Hrun : setter (calls fuel) f args s
                   = recalculate func (calls fuel) (record (Applied c) (setStore h s))).
    { unfold Instance.setter. rewrite Hflags, Hnone. simpl.
      unfold andThen, applyCall. simpl. now rewrite Happly. }
    split; [exact Hrun|].
    intros Hfuel. rewrite Hrun. destruct fuel as [|fuel]; [lia|].
    simpl. rewrite Nat.sub_0_r. unfold Instance.recalculateBody. simpl.
    apply orb_false_iff in Hflags as [-> _]. reflexivity.
Qed.
End Machine.

Import SampleInstance.

(** C5 fails on the code.  On an empty queue [$endBatch] clears [inBatch] and
  does not recompute.  And one [$endBatch] (here called by the batching
  strategy) recomputes twice when a listener calls a setter during the
  first recomputation. *)
Lemma endBatch_not_exactly_one_recomputation :
Instance.endBatchBody func applyFunc (calls func applyFunc 5) (setInBatch true fresh)
  = (fresh, Ok tt)
  /\ log fresh = []
  /\ log (fst (exec 10 [SetBatchingStrategy (Some [EndBatch]);
                        AddListener 7 [RemoveListener 7; setB (Num 3)];
                        setA (Num 1)] fresh))
     = [Enqueued (callA (Num 1)); StrategyInvoked;
        Applied (callA (Num 1)); Recomputed; Notified 7;
        Enqueued (callB (Num 3));
        Applied (callB (Num 3)); Recomputed].
Proof. split; [|split]; reflexivity. Qed.

Lemma endBatch_drains_in_order_then_recalculates_witness :
  let s := {| store := [{| isArray := false; properties := [] |}];
              inBatch := true; inRecalculate := false;
              batchPending := [callA (Num 1); callB (Num 2)];
              batchingStrategy := None;
              listeners := [Some (7%nat, []); None; Some (9%nat, [])];
              log := [] |} in
Instance.endBatchBody func applyFunc (calls func applyFunc 5) s
  = ({| store := [{| isArray := false; properties := [("a", Num 1); ("b", Num 2)] |}];
        inBatch := false; inRecalculate := false;
        batchPending := []; batchingStrategy := None;
        listeners := [Some (7%nat, []); None; Some (9%nat, [])];
        log := [Applied (callA (Num 1)); Applied (callB (Num 2)); Recomputed;
                Notified 7; Notified 9] |},
     Ok tt).
Proof.
  intros s.
  destruct (endBatch_drains_in_order_then_recalculates applyFunc 5 s) as [_ Hdrain].
  destruct (Instance.applyAll func applyFunc (batchPending s) (setInBatch false s))
    as [s' r] eqn:Hrun.
  assert (Hs' : (s', r)
                = ({| store := [{| isArray := false;
                                   properties := [("a", Num 1); ("b", Num 2)] |}];
                      inBatch := false; inRecalculate := false;
                      batchPending := [callA (Num 1); callB (Num 2)];
                      batchingStrategy := None;
                      listeners := [Some (7%nat, []); None; Some (9%nat, [])];
                      log := [Applied (callA (Num 1)); Applied (callB (Num 2))] |},
                   Ok tt))
    by (rewrite <- Hrun; vm_compute; reflexivity).
  injection Hs' as -> ->.
  destruct (Hdrain _ ltac:(discriminate) Hrun) as [_ Hfinal].
  apply Hfinal.
  - repeat constructor.
  - simpl. lia.
Defined.

(** C6 fails on the code: during a recalculation, outside a batch and with a
  batching strategy installed, the call of a setter is queued and the
  strategy is not invoked.  The state is the one a listener finds itself in
  (second part). *)
Lemma setter_in_recalculate_skips_strategy :
  let s := {| store := [{| isArray := false; properties := [] |}];
              inBatch := false; inRecalculate := true;
              batchPending := []; batchingStrategy := Some [EndBatch];
              listeners := []; log := [] |} in
Instance.setter func applyFunc (calls func applyFunc 5) [KStr "a"] [Num 1] s
  = ({| store := [{| isArray := false; properties := [] |}];
        inBatch := false; inRecalculate := true;
        batchPending := [callA (Num 1)]; batchingStrategy := Some [EndBatch];
        listeners := []; log := [Enqueued (callA (Num 1))] |},
     Ok tt)
  /\ log (fst (exec 10 [SetBatchingStrategy (Some [EndBatch]);
                        AddListener 7 [RemoveListener 7; setB (Num 3)];
                        setA (Num 1)] fresh))
     = [Enqueued (callA (Num 1)); StrategyInvoked;
        Applied (callA (Num 1)); Recomputed; Notified 7;
        Enqueued (callB (Num 3));
        Applied (callB (Num 3)); Recomputed].
Proof. split; reflexivity. Qed.

Lemma setter_enqueues_or_applies_witness :
Instance.setter func applyFunc (calls func applyFunc 5) [KStr "a"] [Num 1]
    (setInBatch true fresh)
  = ({| store := [{| isArray := false; properties := [] |}];
        inBatch := true; inRecalculate := false;
        batchPending := [callA (Num 1)]; batchingStrategy := None;
        listeners := []; log := [Enqueued (callA (Num 1))] |},
     Ok tt)
  /\ Instance.setter func applyFunc (calls func applyFunc 5) [KStr "a"] [Num 1]
       (Instance.setBatchingStrategy func (Some []) fresh)
     = ({| store := [{| isArray := false; properties := [] |}];
           inBatch := true; inRecalculate := false;
           batchPending := [callA (Num 1)]; batchingStrategy := Some [];
           listeners := []; log := [Enqueued (callA (Num 1)); StrategyInvoked] |},
        Ok tt)
  /\ Instance.setter func applyFunc (calls func applyFunc 5) [KStr "a"] [Num 1] fresh
     = ({| store := [{| isArray := false; properties := [("a", Num 1)] |}];
           inBatch := false; inRecalculate := false;
           batchPending := []; batchingStrategy := None;
           listeners := []; log := [Applied (callA (Num 1)); Recomputed] |},
        Ok tt).
Proof.
  split; [|split].
  - exact (proj1 (setter_enqueues_or_applies applyFunc 5 [KStr "a"] [Num 1]
                    (setInBatch true fresh)) eq_refl).
  - exact (proj1 (proj2 (setter_enqueues_or_applies applyFunc 5 [KStr "a"] [Num 1]
                           (Instance.setBatchingStrategy func (Some []) fresh)))
             eq_refl [] eq_refl).
  - destruct (proj2 (proj2 (setter_enqueues_or_applies applyFunc 5 [KStr "a"] [Num 1] fresh))
                eq_refl eq_refl [{| isArray := false; properties := [("a", Num 1)] |}]
                eq_refl) as [Hrun _].
    rewrite Hrun. reflexivity.
Defined.
End InstanceFacts.

(** ** The recursive traversal *)

Module LibraryFacts.
Import Runtime Library.

Lemma has_set {V} (o : list (string * V)) name v n :
  JsObject.has (JsObject.set o name v) n
  = if String.eqb name n then true else JsObject.has o n.
Proof.
  destruct (String.eqb_spec name n) as [->|Hne].
  - apply JsObjectFacts.has_get. exists v. apply JsObjectFacts.get_set_same.
  - destruct (JsObject.has o n) eqn:Hn.
    + apply JsObjectFacts.has_get in Hn as [x Hx].
      apply JsObjectFacts.has_get. exists x. now rewrite JsObjectFacts.get_set_other.
    + apply JsObjectFacts.has_false_get in Hn.
      destruct (JsObject.has (JsObject.set o name v) n) eqn:Hn'; [|reflexivity].
      apply JsObjectFacts.has_get in Hn' as [x Hx].
      rewrite JsObjectFacts.get_set_other in Hx by assumption. congruence.
Qed.

Lemma get_after_set {V} (o : list (string * V)) name v n :
  JsObject.get (JsObject.set o name v) n
  = if String.eqb name n then Some v else JsObject.get o n.
Proof.
  destruct (String.eqb_spec name n) as [->|Hne].
  - apply JsObjectFacts.get_set_same.
  - now apply JsObjectFacts.get_set_other.
Qed.

Lemma existsb_eqb_In name names :
  existsb (String.eqb name) names = true <-> In name names.
Proof.
  rewrite existsb_exists. split.
  - intros (x & Hin & Heq). apply String.eqb_eq in Heq. now subst.
  - intros Hin. exists name. split; [exact Hin | apply String.eqb_refl].
Qed.

(** An assignment to any name but [__proto__] creates or updates an own
  property. *)
Lemma assign_other {V} (o : list (string * V)) name v :
  name <> "__proto__" -> assign o name v = JsObject.set o name v.
Proof.
  intros Hne. unfold assign.
  destruct (String.eqb_spec name "__proto__") as [E|_]; [contradiction | reflexivity].
Qed.

(** An assignment never gives an object an own property [__proto__]. *)
Lemma assign_keeps_accessor {V} (o : list (string * V)) name v :
  JsObject.has o "__proto__" = false -> JsObject.has (assign o name v) "__proto__" = false.
Proof.
  intros Hno. unfold assign.
  destruct (String.eqb_spec name "__proto__") as [->|Hne]; simpl.
  - now rewrite Hno.
  - rewrite has_set. destruct (String.eqb_spec name "__proto__"); [contradiction | exact Hno].
Qed.

Section Traversal.
Variable func : val -> key -> val -> code.
Variable src : list (string * val).
Variable context : val.

(** [resolved.__proto__] reads as [Object.prototype], which is truthy. *)
Lemma isResolved_accessor t :
  JsObject.has (resolved t) "__proto__" = false -> isResolved t "__proto__" = true.
Proof.
  intros Hno. unfold isResolved.
  now rewrite (JsObjectFacts.has_false_get _ _ Hno).
Qed.

(** [loop(key)] on a key that is resolved: nothing changes, and the value is
  what a read of [res] gives. *)
Lemma loopFunction_resolved fuel k t :
  isResolved t (propertyKey k) = true ->
  exists t',
    loopFunction func src context (S fuel) k t = (t', Ok (read (res t) (propertyKey k)))
    /\ resolved t' = resolved t /\ res t' = res t /\ invoked t' = invoked t
    /\ computing t' = computing t
    /\ (reentered t' = reentered t
        \/ In (propertyKey k) (computing t)
           /\ reentered t' = reentered t ++ [(propertyKey k, read (res t) (propertyKey k))]).
Proof.
  intros Hres. simpl. rewrite Hres. eexists. split; [reflexivity|]. simpl.
  repeat split.
  destruct (existsb _ _) eqn:Hin; [right | now left].
  split; [now apply existsb_eqb_In | reflexivity].
Qed.

Lemma advances_refl t b : consistent t -> advances t t b.
Proof. intros Ht. split; [exact Ht|]. split; [auto|]. split; auto. Qed.

Lemma advances_trans t t1 t2 b :
  advances t t1 true -> advances t1 t2 b -> advances t t2 b.
Proof.
  intros (_ & M1 & K1 & C1) (H2 & M2 & K2 & C2).
  split; [exact H2|]. split; [auto|]. split; [auto|].
  intros Hb. rewrite (C2 Hb). now apply C1.
Qed.

Section Code.
Variable loop : key -> traversal -> traversal * result val.
Hypothesis loop_advances :
  forall k t t' r, consistent t -> loop k t = (t', r) -> advances t t' (returned r).

Lemma runCode_advances c :
  forall t t' r,
    consistent t -> runCode loop c t = (t', r) -> advances t t' (returned r).
Proof.
  induction c as [v|k next IH]; intros t t' r Ht; simpl.
  - intros [= <- <-]. now apply advances_refl.
  - destruct (loop k t) as [t1 [v| |]] eqn:Hloop; pose proof (loop_advances _ _ _ _ Ht Hloop) as H1.
    + intros Hrun. eapply advances_trans; [exact H1|].
      eapply IH; [apply H1 | exact Hrun].
    + intros [= <- <-]. exact H1.
    + intros [= <- <-]. exact H1.
Qed.
End Code.

Lemma loopFunction_advances fuel :
  forall k t t' r,
    consistent t ->
    loopFunction func src context fuel k t = (t', r) ->
    advances t t' (returned r)
    /\ (returned r = true -> isResolved t' (propertyKey k) = true).
Proof.
  induction fuel as [|fuel IH]; intros k t t' r Ht.
  - simpl. intros [= <- <-]. split; [now apply advances_refl | discriminate].
  - destruct (isResolved t (propertyKey k)) eqn:Hres.
    + destruct (loopFunction_resolved fuel k t Hres)
        as (t1 & -> & Hr & Hv & Hi & Hc & Hre).
      intros [= <- <-].
      destruct Ht as (H1 & H0 & H2 & H3 & H4 & H5).
      split; [|intros _; unfold isResolved; now rewrite Hr].
      split; [|split; [|split; [|auto]]].
      * unfold consistent. rewrite Hr, Hv, Hi, Hc.
        split; [exact H1|]. split; [exact H0|]. split; [exact H2|].
        split; [exact H3|]. split; [exact H4|].
        intros n v Hin. destruct Hre as [E|[Hcomp E]]; rewrite E in Hin; [eauto|].
        apply in_app_or in Hin as [Hin|[[= <- <-]|[]]]; [eauto|].
        destruct (H4 _ Hcomp) as [_ Hno]. unfold absent, read.
        now rewrite (JsObjectFacts.has_false_get _ _ Hno).
      * intros n. now rewrite Hi.
      * intros n. now rewrite Hr.
    + simpl. rewrite Hres.
      set (name := propertyKey k) in *.
      destruct Ht as (H1 & H0 & H2 & H3 & H4 & H5).
      assert (Hname : name <> "__proto__").
      { intros E. rewrite E in Hres.
        rewrite isResolved_accessor in Hres by exact H0. discriminate. }
      rewrite (assign_other (resolved t) name true Hname).
      set (t1 := {| resolved := JsObject.set (resolved t) name true; res := res t;
                    invoked := invoked t ++ [name]; computing := name :: computing t;
                    reentered := reentered t |}).
      assert (Hunmarked : JsObject.get (resolved t) name <> Some true).
      { intros E. unfold isResolved in Hres. rewrite E in Hres. discriminate. }
      assert (Hfresh : ~ In name (invoked t)).
      { intros Hin. now apply H2 in Hin. }
      assert (Ht1 : consistent t1).
      { unfold consistent. simpl.
        split; [|split; [|split; [|split; [|split]]]].
        - apply List.NoDup_app; auto.
          + constructor; [intros [] | constructor].
          + intros n Hn [<-|[]]. contradiction.
        - rewrite has_set.
          destruct (String.eqb_spec name "__proto__"); [contradiction | exact H0].
        - intros n. rewrite get_after_set.
          destruct (String.eqb_spec name n) as [<-|Hne].
          + split; [|reflexivity]. intros _. apply in_or_app. right. now left.
          + rewrite H2. split.
            * intros Hn. apply in_or_app. now left.
            * intros Hin. apply in_app_or in Hin as [Hin|[<-|[]]]; [exact Hin | contradiction].
        - intros n Hn. apply in_or_app. left. now apply H3.
        - intros n [<-|Hin].
          + split; [apply in_or_app; right; now left|].
            destruct (JsObject.has (res t) name) eqn:Hhas; [|reflexivity].
            apply H3 in Hhas. contradiction.
          + destruct (H4 _ Hin) as [Hi Hno]. split; [|exact Hno].
            apply in_or_app. now left.
        - exact H5. }
      destruct (runCode (loopFunction func src context fuel)
                  (func (read src name) k context) t1) as [t2 [v| |]] eqn:Hrun;
        pose proof (runCode_advances _ (fun k t t' r Ht Hl => proj1 (IH k t t' r Ht Hl))
                      _ _ _ _ Ht1 Hrun) as (Ht2 & Hmono2 & Hkeep2 & Hcomp2);
        intros [= <- <-].
      * specialize (Hcomp2 eq_refl). simpl in Hcomp2.
        destruct Ht2 as (G1 & G0 & G2 & G3 & G4 & G5).
        rewrite (assign_other (res t2) name v Hname).
        assert (Hmarked : JsObject.get (resolved t2) name = Some true).
        { apply G2, Hmono2. simpl. apply in_or_app. right. now left. }
        split; [|intros _; unfold isResolved; simpl; now rewrite Hmarked].
        split; [|split; [|split]].
        -- unfold consistent. simpl. rewrite Hcomp2. simpl.
           split; [exact G1|]. split; [exact G0|]. split; [exact G2|].
           split; [|split; [|exact G5]].
           ++ intros n. rewrite has_set.
              destruct (String.eqb_spec name n) as [<-|Hne]; [|apply G3].
              intros _. now apply G2.
           ++ intros n Hin.
              assert (Hin2 : In n (computing t2)) by (rewrite Hcomp2; now right).
              destruct (G4 _ Hin2) as [Hi Hno]. split; [exact Hi|].
              rewrite has_set. destruct (String.eqb_spec name n) as [<-|Hne]; [|exact Hno].
              destruct (H4 _ Hin) as [Hi' _]. contradiction.
        -- intros n Hn. simpl. apply Hmono2. simpl. apply in_or_app. now left.
        -- intros n Hn. simpl. apply Hkeep2. simpl. rewrite has_set.
           destruct (String.eqb name n); [reflexivity | exact Hn].
        -- intros _. simpl. now rewrite Hcomp2.
      * split; [|discriminate]. split; [exact Ht2|]. split; [|split; [|discriminate]].
        -- intros n Hn. apply Hmono2. simpl. apply in_or_app. now left.
        -- intros n Hn. apply Hkeep2. simpl. rewrite has_set.
           destruct (String.eqb name n); [reflexivity | exact Hn].
      * split; [|discriminate]. split; [exact Ht2|]. split; [|split; [|discriminate]].
        -- intros n Hn. apply Hmono2. simpl. apply in_or_app. now left.
        -- intros n Hn. apply Hkeep2. simpl. rewrite has_set.
           destruct (String.eqb name n); [reflexivity | exact Hn].
Qed.

Lemma forEachKey_advances fuel keys :
  forall t t' r,
    consistent t ->
    forEachKey func src context fuel keys t = (t', r) ->
    consistent t'
    /\ (forall n, In n (invoked t) -> In n (invoked t'))
    /\ (r = Ok tt -> forall k, In k keys -> JsObject.has (resolved t) k = true ->
                                In k (invoked t')).
Proof.
  induction keys as [|k keys IH]; intros t t' r Ht; simpl.
  - intros [= <- <-]. split; [exact Ht|]. split; [auto|]. intros _ k [].
  - destruct (loopFunction func src context fuel (KStr k) t) as [t1 [v| |]] eqn:Hloop;
      destruct (loopFunction_advances _ _ _ _ _ Ht Hloop)
        as ((Ht1 & Hmono & Hkeep & _) & Hres).
    + intros Hrest. destruct (IH _ _ _ Ht1 Hrest) as (Ht' & Hgrow & Hall).
      split; [exact Ht'|]. split; [auto|].
      intros Hr k' [<-|Hin] Hown; [|apply Hall; auto].
      apply Hgrow.
      destruct Ht1 as (_ & _ & G2 & _). apply G2.
      specialize (Hres eq_refl). simpl in Hres. unfold isResolved in Hres.
      apply Hkeep in Hown. apply JsObjectFacts.has_get in Hown as [b Hb].
      rewrite Hb in Hres. now subst b.
    + intros [= <- <-]. split; [exact Ht1|]. split; [auto | discriminate].
    + intros [= <- <-]. split; [exact Ht1|]. split; [auto | discriminate].
Qed.

(** [resolved] after the first loop of [recursiveMapValues]: [false] under
  every key but [__proto__], which gets no property. *)
Lemma marks_start keys (o : list (string * bool)) :
  JsObject.has o "__proto__" = false ->
  (forall n b, JsObject.get o n = Some b -> b = false) ->
  let o' := fold_left (fun o k => assign o k false) keys o in
  JsObject.has o' "__proto__" = false
  /\ (forall n b, JsObject.get o' n = Some b -> b = false)
  /\ (forall k, In k keys -> k <> "__proto__" -> JsObject.has o' k = true)
  /\ (forall k, JsObject.has o k = true -> JsObject.has o' k = true).
Proof.
  revert o. induction keys as [|k keys IH]; intros o Hno Hfalse; simpl.
  - split; [exact Hno|]. split; [exact Hfalse|]. split; [intros k []|auto].
  - destruct (IH (assign o k false)) as (I1 & I2 & I3 & I4).
    + now apply assign_keeps_accessor.
    + intros n b. unfold assign.
      destruct (String.eqb k "__proto__" && negb (JsObject.has o k)); [apply Hfalse|].
      rewrite get_after_set. destruct (String.eqb k n); [now intros [= <-] | apply Hfalse].
    + split; [exact I1|]. split; [exact I2|]. split.
      * intros k' [<-|Hin] Hne; [|now apply I3].
        apply I4. rewrite assign_other by exact Hne. rewrite has_set.
        now rewrite String.eqb_refl.
      * intros k' Hk'. apply I4. unfold assign.
        destruct (String.eqb k "__proto__" && negb (JsObject.has o k)); [exact Hk'|].
        rewrite has_set. destruct (String.eqb k k'); [reflexivity | exact Hk'].
Qed.

Lemma start_consistent keys : consistent (start keys).
Proof.
  destruct (marks_start keys [] eq_refl ltac:(discriminate)) as (M1 & M2 & _).
  unfold consistent, start. simpl.
  split; [constructor|]. split; [exact M1|].
  split; [|split; [discriminate|split; [intros n []|intros n v []]]].
  intros n. split; [|intros []].
  intros Hn. apply M2 in Hn. discriminate.
Qed.
End Traversal.

(** C3 fails on the code.  [recursiveMapValues((val, key, context, loop) =>
  loop(key), {constructor: 1}, null)]: the user function is invoked once,
  for [constructor], and its call of [loop('constructor')], made while that
  key is being computed, returns what [res.constructor] reads as at that
  moment, which is not [undefined]: [res] has no such property of its own
  and inherits one, the function [Object], from [Object.prototype].  The
  call returns [{constructor: Object}].  With the source [{a: 1}] the same
  user function gets [undefined] from [loop('a')]. *)
Theorem reentry_reads_inherited_member :
  recursiveMapValues selfReference [("constructor", Num 1)] Null 3
  = ({| resolved := [("constructor", true)];
        res := [("constructor", Ref 0)];
        invoked := ["constructor"]; computing := [];
        reentered := [("constructor", Ref 0)] |},
     Ok tt)
  /\ inherited "constructor" = Some (Ref 0)
  /\ Ref 0 <> Undefined
  /\ recursiveMapValues selfReference [("a", Num 1)] Null 3
     = ({| resolved := [("a", true)];
           res := [("a", Undefined)];
           invoked := ["a"]; computing := [];
           reentered := [("a", Undefined)] |},
        Ok tt).
Proof.
  split; [reflexivity|]. split; [reflexivity|]. split; [discriminate | reflexivity].
Qed.

Lemma absent_inherited n :
  (In n objectPrototype -> exists l, absent n = Ref l)
  /\ (~ In n objectPrototype -> absent n = Undefined).
Proof.
  unfold absent, read, inherited. simpl JsObject.get.
  assert (Hpos : forall names,
             (In n names -> exists i, position n names = Some i)
             /\ (~ In n names -> position n names = None)).
  { induction names as [|m names [IH1 IH2]]; simpl.
    - split; [intros [] | reflexivity].
      - destruct (String.eqb_spec m n) as [->|Hne].
      + split; [eauto | intros Hno; exfalso; apply Hno; now left].
      + split.
        * intros [E|Hin]; [contradiction|]. destruct (IH1 Hin) as [i ->]. eauto.
        * intros Hno. rewrite IH2; [reflexivity | tauto]. }
  destruct (Hpos objectPrototype) as [P1 P2]. split.
  - intros Hin. destruct (P1 Hin) as [i ->]. eauto.
  - intros Hno. now rewrite (P2 Hno).
Qed.

(** X31.  In every call of [recursiveMapValues], whatever the user function
  does with [loop], the user function is invoked at most once for each
  key, never for [__proto__] and, when the call returns, once for each
  other key of the source: [loopFunction] marks the key in [resolved]
  before it invokes the function, and [resolved.__proto__] reads as
  [Object.prototype].  A [loop(key)] made while the invocation for that key
  has not returned finds the mark, leaves everything as it is and returns
  what [res] reads as under the key at that moment: [undefined], unless
  [Object.prototype] defines the name, and then what it holds there. *)
Theorem traversal_invokes_once_and_reentry_reads_absent
    (func : val -> key -> val -> code) (context : val) (fuel : nat)
    (src : list (string * val)) :
  (let '(t, r) := recursiveMapValues func src context fuel in
   List.NoDup (invoked t)
   /\ ~ In "__proto__" (invoked t)
   /\ (r = Ok tt -> forall name, In name (JsObject.keys src) -> name <> "__proto__" ->
                    In name (invoked t))
   /\ (forall n v, In (n, v) (reentered t) ->
         v = absent n
         /\ (~ In n objectPrototype -> v = Undefined)
         /\ (In n objectPrototype -> exists l, v = Ref l)))
  /\ (forall t k,
        consistent t -> In (propertyKey k) (computing t) ->
        exists t',
          loopFunction func src context (S fuel) k t = (t', Ok (absent (propertyKey k)))
          /\ resolved t' = resolved t /\ res t' = res t
          /\ invoked t' = invoked t /\ computing t' = computing t).
Proof.
  split.
  - unfold recursiveMapValues.
    destruct (forEachKey _ _ _ _ _ _) as [t r] eqn:Hrun.
    destruct (forEachKey_advances _ _ _ _ _ _ _ _ (start_consistent _) Hrun)
      as ((H1 & H0 & H2 & _ & _ & H5) & _ & Hall).
    split; [exact H1|]. split; [|split].
    + intros Hin. apply H2 in Hin.
      rewrite (JsObjectFacts.has_false_get _ _ H0) in Hin. discriminate.
    + intros Hr name Hin Hne. apply (Hall Hr name Hin).
      unfold start. simpl.
      destruct (marks_start (JsObject.keys src) [] eq_refl ltac:(discriminate))
        as (_ & _ & M3 & _).
      now apply M3.
    + intros n v Hin. rewrite (H5 _ _ Hin). split; [reflexivity|].
      destruct (absent_inherited n) as [A1 A2]. split; auto.
  - intros t k Ht Hin.
    destruct Ht as (_ & _ & H2 & _ & H4 & _). destruct (H4 _ Hin) as [Hinv Hno].
    assert (Hres : isResolved t (propertyKey k) = true).
    { unfold isResolved. apply H2 in Hinv. now rewrite Hinv. }
    destruct (loopFunction_resolved func src context fuel k t Hres)
      as (t' & Hrun & Hr & Hv & Hi & Hc & _).
    exists t'. unfold absent. unfold read in Hrun |- *.
    rewrite (JsObjectFacts.has_false_get _ _ Hno) in Hrun. auto.
Qed.

Lemma midway_consistent : consistent midway.
Proof.
  unfold consistent, midway. cbn [resolved res invoked computing reentered].
  split; [|split; [|split; [|split; [|split]]]].
  - constructor; [intros [E|[]]; discriminate E|].
    constructor; [intros []|constructor].
  - reflexivity.
  - intros n. cbn [JsObject.get].
    destruct (String.eqb_spec "a" n) as [<-|Ha]; [split; [left; reflexivity | reflexivity]|].
    destruct (String.eqb_spec "b" n) as [<-|Hb];
      [split; [right; left; reflexivity | reflexivity]|].
    split.
    + destruct (String.eqb "c" n); discriminate.
    + intros [E|[E|[]]]; contradiction.
  - intros n Hn. discriminate Hn.
  - intros n [<-|[<-|[]]]; split; first [reflexivity | simpl; tauto].
  - intros n v [].
Qed.

Lemma traversal_invokes_once_and_reentry_reads_absent_witness :
  exists t',
    loopFunction cyclic [("a", Num 1); ("b", Num 2); ("c", Num 3)] Null 5 (KStr "a") midway
    = (t', Ok Undefined).
Proof.
  destruct (traversal_invokes_once_and_reentry_reads_absent cyclic Null 4
              [("a", Num 1); ("b", Num 2); ("c", Num 3)]) as (_ & H3).
  destruct (H3 midway (KStr "a") midway_consistent) as (t' & Ht' & _).
  - right. left. reflexivity.
  - exists t'. exact Ht'.
Defined.
End LibraryFacts.

(** ** The tables only grow, and nothing in them dangles *)

Module TableFacts.
Import VMCompiler VMCompilerFacts.

Section Accumulation.
Context `{Imports}.
Variable this : Compiler.

Lemma keys_app {V} (o more : list (string * V)) :
  JsObject.keys (o ++ more) = JsObject.keys o ++ JsObject.keys more.
Proof. unfold JsObject.keys. apply map_app. Qed.

Lemma appends_refl st : appends st st.
Proof. repeat split; exists []; now rewrite app_nil_r. Qed.

Lemma appends_trans st1 st2 st3 : appends st1 st2 -> appends st2 st3 -> appends st1 st3.
Proof.
  intros ([a Ha] & [b Hb] & [c Hc]) ([a' Ha'] & [b' Hb'] & [c' Hc']).
  repeat split; [exists (a ++ a') | exists (b ++ b') | exists (c ++ c')];
    rewrite app_assoc; congruence.
Qed.

#[local] Instance accumulates_preorder : PreOrder accumulates.
Proof.
  split.
  - intros st. split; [apply appends_refl | auto].
  - intros st1 st2 st3 [A12 C12] [A23 C23].
    split; [eapply appends_trans; eauto | auto].
Qed.

Lemma resolves_appends st st' r : appends st st' -> resolves st r -> resolves st' r.
Proof.
  intros ([a Ha] & _ & [c Hc]). destruct r as [n|h|h]; simpl; [auto| |].
  - rewrite Ha, keys_app. intros Hin. apply in_or_app. now left.
  - rewrite Hc. intros Hin. apply in_or_app. now left.
Qed.

Lemma resolvesPath_appends st st' e :
  appends st st' -> resolvesPath st e -> resolvesPath st' e.
Proof.
  intros Happ [Hc Hs]. split; [eapply resolves_appends; eauto|].
  eapply List.Forall_impl; [|exact Hs]. intros r. now apply resolves_appends.
Qed.

Lemma resolvesMetaData_appends st st' m :
  appends st st' -> resolvesMetaData st m -> resolvesMetaData st' m.
Proof.
  intros Happ. unfold resolvesMetaData. destruct (md_paths m) as [ps|]; [|auto].
  intros Hps. eapply List.Forall_impl; [|exact Hps].
  intros e. now apply resolvesPath_appends.
Qed.

Lemma resolvesProjection_appends st st' p :
  appends st st' -> resolvesProjection st p -> resolvesProjection st' p.
Proof.
  intros Happ (Ht & Hm & Ha). pose proof Happ as ([a Ea] & [b Eb] & _).
  split; [|split].
  - rewrite Ea, keys_app. apply in_or_app. now left.
  - rewrite Eb, keys_app. apply in_or_app. now left.
  - eapply List.Forall_impl; [|exact Ha]. intros r. now apply resolves_appends.
Qed.

Lemma closed_emptyTables : closed emptyTables.
Proof. split; constructor. Qed.

Lemma addPrimitive_accumulates p st h st' :
  addPrimitive p st = Ok (h, st') ->
  accumulates st st'
  /\ h = exprHash (HValue (defaultTo p VNull))
  /\ In h (JsObject.keys (primitivesByHash st')).
Proof.
  intros Hrun.
  destruct (addPrimitive_Ok p st) as (st1 & Hrun1 & Hhas & Hproj & Hmd & more & Hprim).
  rewrite Hrun in Hrun1. injection Hrun1 as -> ->.
  assert (Happ : appends st st1).
  { split; [exists more; exact Hprim|].
    split; exists []; rewrite app_nil_r; congruence. }
  split; [split; [exact Happ|] | split; [reflexivity | now apply JsObjectFacts.has_In]].
  intros [Cp Cm]. split.
  - rewrite Hproj. eapply List.Forall_impl; [|exact Cp].
    intros kv. now apply resolvesProjection_appends.
  - rewrite Hmd. eapply List.Forall_impl; [|exact Cm].
    intros kv. now apply resolvesMetaData_appends.
Qed.

Lemma addMetaData_accumulates m st h st' :
  addMetaData m st = Ok (h, st') ->
  resolvesMetaData st m ->
  accumulates st st' /\ In h (JsObject.keys (metaDataByHash st')).
Proof.
  unfold addMetaData.
  destruct (JsObject.has _ _) eqn:Hhas; intros [= <- <-] Hm.
  - split; [reflexivity | now apply JsObjectFacts.has_In].
  - match goal with |- accumulates st ?s /\ _ => set (st' := s) end.
    assert (Happ : appends st st').
    { split; [exists []; simpl; now rewrite app_nil_r|].
      split; [|exists []; simpl; now rewrite app_nil_r].
      exists [(exprHash (HMetaData m), m)]. simpl.
      now apply JsObjectFacts.set_absent. }
    split; [split; [exact Happ|] | apply In_keys_set].
    intros [Cp Cm]. split; simpl.
    + eapply List.Forall_impl; [|exact Cp].
      intros kv. now apply resolvesProjection_appends.
    + apply JsObjectFacts.Forall_set.
      * eapply List.Forall_impl; [|exact Cm].
        intros kv. now apply resolvesMetaData_appends.
      * simpl. now apply (resolvesMetaData_appends st).
Qed.

Lemma setProjection_accumulates hash p st u st' :
  setProjection hash p st = Ok (u, st') ->
  resolvesProjection st p ->
  accumulates st st' /\ In hash (JsObject.keys (projectionsByHash st')).
Proof.
  unfold setProjection. intros [= <- <-] Hp.
  match goal with |- accumulates st ?s /\ _ => set (st' := s) end.
  assert (Happ : appends st st').
  { split; [exists []; simpl; now rewrite app_nil_r|].
    split; [exists []; simpl; now rewrite app_nil_r|].
    simpl. rewrite JsObjectFacts.keys_set.
    destruct (JsObject.has _ _); [exists []; now rewrite app_nil_r | now exists [hash]]. }
  split; [split; [exact Happ|] | apply In_keys_set].
  intros [Cp Cm]. split; simpl.
  - apply JsObjectFacts.Forall_set.
    + eapply List.Forall_impl; [|exact Cp].
      intros kv. now apply resolvesProjection_appends.
    + simpl. now apply (resolvesProjection_appends st).
  - eapply List.Forall_impl; [|exact Cm].
    intros kv. now apply resolvesMetaData_appends.
Qed.

(** [xs.map(f)], for an [f] whose results stay good as the tables grow *)
Lemma mapM_accumulates {A B} (f : A -> M B) (P : tables -> A -> B -> Prop) :
  (forall st st' x b, appends st st' -> P st x b -> P st' x b) ->
  (forall x st b st', f x st = Ok (b, st') -> accumulates st st' /\ P st' x b) ->
  forall xs st bs st',
    mapM f xs st = Ok (bs, st') -> accumulates st st' /\ Forall2 (P st') xs bs.
Proof.
  intros Hmono Hf xs. induction xs as [|x xs IH]; intros st bs st' Hrun; simpl in Hrun.
  - apply ret_Ok in Hrun as [<- <-]. split; [reflexivity | constructor].
  - apply bind_Ok in Hrun as (b & st1 & Hx & Hrun).
    apply bind_Ok in Hrun as (bs' & st2 & Hxs & Hrun).
    apply ret_Ok in Hrun as [<- <-].
    apply Hf in Hx as [A1 P1]. apply IH in Hxs as [A2 P2].
    split; [etransitivity; eassumption|].
    constructor; [|exact P2]. eapply Hmono; [apply A2 | exact P1].
Qed.

Section OneLevel.
Variable self : node -> M IntermediateReference.
Hypothesis self_accumulates : forall e st r st',
  self e st = Ok (r, st') -> accumulates st st' /\ resolves st' r.

Lemma mapM_self_accumulates es st rs st' :
  mapM self es st = Ok (rs, st') -> accumulates st st' /\ Forall (resolves st') rs.
Proof.
  intros Hrun.
  apply (mapM_accumulates self (fun st _ r => resolves st r)) in Hrun as [Hacc Hrs].
  - split; [exact Hacc|]. clear -Hrs. induction Hrs; constructor; auto.
  - intros s s' _ r. apply resolves_appends.
  - intros x. apply self_accumulates.
Qed.

Lemma invalidationPath_accumulates cond invalidatedPath st entry st' :
  invalidationPath this self cond invalidatedPath st = Ok (entry, st') ->
  accumulates st st'
  /\ match entry with Some e => resolvesPath st' e | None => True end.
Proof.
  unfold invalidationPath. intros Hrun.
  apply bind_Ok in Hrun as (condProj & st1 & Hcond & Hrun).
  apply self_accumulates in Hcond as [A1 R1].
  apply bind_Ok in Hrun as (rootType & st2 & Hty & Hrun).
  apply dollar_type_state in Hty as ->.
  assert (Hkeep : forall es,
             bind (mapM self es) (fun steps => ret (Some (condProj, steps))) st1
             = Ok (entry, st') ->
             accumulates st st'
             /\ match entry with Some e => resolvesPath st' e | None => True end).
  { intros es Hes. apply bind_Ok in Hes as (steps & st3 & Hsteps & Hes).
    apply ret_Ok in Hes as [<- <-].
    apply mapM_self_accumulates in Hsteps as [A2 R2].
    split; [etransitivity; eassumption|].
    split; [eapply resolves_appends; [apply A2 | exact R1] | exact R2]. }
  destruct (is_type rootType "context"); [now apply Hkeep in Hrun|].
  destruct ((1 <? length invalidatedPath)%nat && is_type rootType "topLevel");
    [now apply Hkeep in Hrun|].
  apply bind_Ok in Hrun as (getOfTopLevel & st3 & Hg & Hrun).
  assert (st3 = st1) as ->.
  { destruct (1 <? length invalidatedPath)%nat; [|now apply ret_Ok in Hg].
    destruct (at_index invalidatedPath 0) as [v|t|head args];
      try (now apply ret_Ok in Hg).
    destruct (String.eqb (t_type head) "get"); [|now apply ret_Ok in Hg].
    apply bind_Ok in Hg as (objType & st4 & Hobj & Hg).
    apply dollar_type_state in Hobj as ->. now apply ret_Ok in Hg. }
  destruct (getOfTopLevel || _); [now apply Hkeep in Hrun|].
  apply ret_Ok in Hrun as [<- <-]. split; [exact A1 | exact I].
Qed.

Lemma invalidationPaths_accumulates pathsThatInvalidate st paths st' :
  invalidationPaths this self pathsThatInvalidate st = Ok (paths, st') ->
  accumulates st st' /\ Forall (resolvesPath st') paths.
Proof.
  revert st paths st'.
  induction pathsThatInvalidate as [|[invalidatedPath cond] rest IH];
    intros st paths st' Hrun; simpl in Hrun.
  - apply ret_Ok in Hrun as [<- <-]. split; [reflexivity | constructor].
  - apply bind_Ok in Hrun as (entry & st1 & Hentry & Hrun).
    apply bind_Ok in Hrun as (paths' & st2 & Hrest & Hrun).
    apply ret_Ok in Hrun as [<- <-].
    apply invalidationPath_accumulates in Hentry as [A1 R1].
    apply IH in Hrest as [A2 R2].
    split; [etransitivity; eassumption|].
    destruct entry as [e|]; [|exact R2].
    constructor; [|exact R2]. eapply resolvesPath_appends; [apply A2 | exact R1].
Qed.

Lemma argsManipulators_state expression currentToken type args st manipulated st' :
  argsManipulators this expression currentToken type args st = Ok (manipulated, st') ->
  st' = st.
Proof.
  unfold argsManipulators.
  destruct (String.eqb type "get"); [now intros [= _ <-]|].
  destruct (String.eqb type "trace").
  - intros Hrun.
    apply bind_Ok in Hrun as (nextSrc & st1 & Hsrc & Hrun).
    apply source_tag_state in Hsrc as ->.
    apply bind_Ok in Hrun as (nextType & st2 & Hty & Hrun).
    apply dollar_type_state in Hty as ->. now apply ret_Ok in Hrun.
  - destruct (_ || _); [now intros [= _ <-]|].
    destruct (String.eqb type "range"); now intros [= _ <-].
Qed.

Lemma generateProjectionFromExpression_accumulates expression st p st' :
  generateProjectionFromExpression this self expression st = Ok (p, st') ->
  accumulates st st' /\ resolvesProjection st' p.
Proof.
  unfold generateProjectionFromExpression.
  destruct expression as [v|t|head args]; [discriminate| |]; intros Hrun.
  all: apply bind_Ok in Hrun as (paths & st1 & Hpaths & Hrun);
    apply bind_Ok in Hrun as (type & st2 & Htype & Hrun);
    apply bind_Ok in Hrun as (md & st3 & Hmd & Hrun);
    apply bind_Ok in Hrun as (manipulated & st4 & Hmanip & Hrun);
    apply bind_Ok in Hrun as (refs & st5 & Hrefs & Hrun);
    apply ret_Ok in Hrun as [<- <-];
    apply invalidationPaths_accumulates in Hpaths as [A1 R1];
    apply addPrimitive_accumulates in Htype as (A2 & _ & R2);
    apply addMetaData_accumulates in Hmd as [A3 R3];
      [|eapply List.Forall_impl; [|exact R1];
        intros e; apply resolvesPath_appends, A2];
    apply argsManipulators_state in Hmanip as ->;
    apply mapM_self_accumulates in Hrefs as [A5 R5].
  all: split; [repeat (etransitivity; [eassumption|]); reflexivity|].
  all: pose proof (proj1 A3) as ([a3 E3] & _); pose proof (proj1 A5) as ([a5 E5] & [b5 F5] & _).
  all: split; [|split]; simpl; [| |exact R5].
  all: try (rewrite E5, E3, !keys_app; apply in_or_app; left; apply in_or_app; now left).
  all: rewrite F5, keys_app; apply in_or_app; now left.
Qed.

Lemma serializeProjectionStep_accumulates expression st r st' :
  serializeProjectionStep this self expression st = Ok (r, st') ->
  accumulates st st' /\ resolves st' r.
Proof.
  assert (Hobj : forall e hash,
             bind (hasProjection hash)
               (fun present =>
                  if present then ret (Projections hash)
                  else bind (generateProjectionFromExpression this self e)
                         (fun p => bind (setProjection hash p)
                                     (fun _ => ret (Projections hash)))) st
             = Ok (r, st') ->
             accumulates st st' /\ resolves st' r).
  { intros e hash Hrun.
    apply bind_Ok in Hrun as (present & st1 & Hhas & Hrun).
    injection Hhas as <- <-.
    destruct (JsObject.has _ _) eqn:Hpresent.
    - apply ret_Ok in Hrun as [<- <-].
      split; [reflexivity | now apply JsObjectFacts.has_In].
    - apply bind_Ok in Hrun as (p & st2 & Hgen & Hrun).
      apply bind_Ok in Hrun as (u & st3 & Hset & Hrun).
      apply ret_Ok in Hrun as [<- <-].
      apply generateProjectionFromExpression_accumulates in Hgen as [A1 R1].
      apply setProjection_accumulates in Hset as [A2 R2]; [|exact R1].
      split; [etransitivity; eassumption | exact R2]. }
  assert (Hprim : forall v,
             bind (addPrimitive v) (fun h => ret (Primitives h)) st = Ok (r, st') ->
             accumulates st st' /\ resolves st' r).
  { intros v Hrun. apply bind_Ok in Hrun as (h & st1 & Hadd & Hrun).
    apply ret_Ok in Hrun as [<- <-].
    apply addPrimitive_accumulates in Hadd as (A1 & _ & R1). now split. }
  unfold serializeProjectionStep.
  destruct expression as [v|t|head args]; [|apply Hobj..].
  destruct v; try apply Hprim.
  destruct (canBeStoredInRef n) eqn:Hfits; [|apply Hprim].
  intros Hrun. apply ret_Ok in Hrun as [<- <-]. split; [reflexivity | exact Hfits].
Qed.
End OneLevel.

Lemma serializeProjection_accumulates fuel expression st r st' :
  serializeProjection this fuel expression st = Ok (r, st') ->
  accumulates st st' /\ resolves st' r.
Proof.
  revert expression st r st'. induction fuel as [|fuel IH]; intros e st r st'; simpl.
  - discriminate.
  - now apply serializeProjectionStep_accumulates.
Qed.

Lemma intermediateTopLevel_accumulates fuel name st tl st' :
  intermediateTopLevel this fuel name st = Ok (tl, st') ->
  accumulates st st' /\ topLevelOk this st' name tl.
Proof.
  unfold intermediateTopLevel, topLevelOk. intros Hrun.
  apply bind_Ok in Hrun as (proj & st1 & Hproj & Hrun).
  apply bind_Ok in Hrun as (nameHash & st2 & Hname & Hrun).
  apply ret_Ok in Hrun as [<- <-]. simpl.
  pose proof (serializeProjection_ref _ _ _ _ _ _ Hproj) as ->.
  apply serializeProjection_accumulates in Hproj as [A1 R1].
  destruct (options_debug this || notDollar name) eqn:Hshown.
  - apply bind_Ok in Hname as (h & st3 & Hadd & Hname).
    apply ret_Ok in Hname as [<- <-].
    apply addPrimitive_accumulates in Hadd as (A2 & Hh & R2).
    split; [etransitivity; eassumption|]. split; [now split|].
    split; [reflexivity|]. eapply resolves_appends; [apply A2 | exact R1].
  - apply ret_Ok in Hname as [<- <-].
    split; [exact A1|]. split; [reflexivity|]. now split.
Qed.

Lemma serializeSetter_accumulates fuel setter name st s st' :
  serializeSetter this fuel setter name st = Ok (s, st') ->
  accumulates st st' /\ setterOk st' (name, setter) s.
Proof.
  unfold serializeSetter, setterOk. intros Hrun.
  apply bind_Ok in Hrun as (projection & st1 & Hproj & Hrun).
  apply bind_Ok in Hrun as (typeHash & st2 & Htype & Hrun).
  apply bind_Ok in Hrun as (nameHash & st3 & Hname & Hrun).
  apply ret_Ok in Hrun as [<- <-].
  apply (mapM_accumulates _ (fun st _ r => resolves st r)) in Hproj as [A1 R1].
  - apply addPrimitive_accumulates in Htype as (A2 & _ & R2).
    apply addPrimitive_accumulates in Hname as (A3 & _ & R3).
    split; [repeat (etransitivity; [eassumption|]); reflexivity|].
    pose proof (proj1 A3) as ([a3 E3] & _).
    split; [rewrite E3, keys_app; apply in_or_app; now left|].
    split; [exact R3|]. split; [|split; [|reflexivity]].
    + assert (A23 : appends st1 st3)
        by (eapply appends_trans; [apply A2 | apply A3]).
      clear -R1 A23. induction R1; constructor; auto.
      eapply resolves_appends; eassumption.
    + symmetry. eapply Forall2_length; eassumption.
  - intros s0 s1 _ r. apply resolves_appends.
  - intros token s0 r s1.
    destruct (isTokenOfType token "key"); apply serializeProjection_accumulates.
Qed.


Lemma topLevelOk_appends st st' name tl :
  appends st st' -> topLevelOk this st name tl -> topLevelOk this st' name tl.
Proof.
  intros Happ (Hname & Href & Hres). split; [|split; [exact Href|]].
  - destruct (fst tl) as [h|]; [|exact Hname].
    destruct Hname as (Hshown & Hh & Hin). split; [exact Hshown|]. split; [exact Hh|].
    destruct Happ as ([a Ea] & _). rewrite Ea, keys_app. apply in_or_app. now left.
  - eapply resolves_appends; eassumption.
Qed.

Lemma setterOk_appends st st' entry s :
  appends st st' -> setterOk st entry s -> setterOk st' entry s.
Proof.
  intros Happ. destruct s as [[[typeHash nameHash] projection] numTokens].
  intros (Ht & Hn & Hp & Hl & Hk). pose proof Happ as ([a Ea] & _).
  split; [rewrite Ea, keys_app; apply in_or_app; now left|].
  split; [rewrite Ea, keys_app; apply in_or_app; now left|].
  split; [|now split].
  eapply List.Forall_impl; [|exact Hp]. intros r. now apply resolves_appends.
Qed.

Lemma buildTables_accumulates fuel tls sts st :
  buildTables this fuel emptyTables = Ok ((tls, sts), st) ->
  closed st
  /\ Forall2 (topLevelOk this st) (getRealGetters this) tls
  /\ Forall2 (setterOk st) (this_setters this) sts.
Proof.
  unfold buildTables, serializeSetters. intros Hrun.
  apply bind_Ok in Hrun as (tls' & st1 & Htls & Hrun).
  apply bind_Ok in Hrun as (sts' & st2 & Hsts & Hrun).
  apply ret_Ok in Hrun as [[= <- <-] <-].
  apply (mapM_accumulates _ (topLevelOk this)) in Htls as [A1 R1].
  - apply (mapM_accumulates _ setterOk) in Hsts as [A2 R2].
    + split; [apply A2, A1, closed_emptyTables|]. split; [|exact R2].
      clear -R1 A2. induction R1; constructor; auto.
      eapply topLevelOk_appends; [apply A2 | eassumption].
    + intros s0 s1 entry s. apply setterOk_appends.
    + intros [name setter] s0 s s1. apply serializeSetter_accumulates.
  - intros s0 s1 name tl. apply topLevelOk_appends.
  - intros name s0 tl s1. apply intermediateTopLevel_accumulates.
Qed.

Lemma buildProjectionData_closed fuel pd :
  buildProjectionData this fuel = Ok pd ->
  exists tls sts st,
    pd = pack this st tls sts
    /\ wf st /\ closed st
    /\ Forall2 (topLevelOk this st) (getRealGetters this) tls
    /\ Forall2 (setterOk st) (this_setters this) sts.
Proof.
  intros Hpd.
  apply buildProjectionData_Ok in Hpd as (tls & sts & st & Hrun & Hwf & ->).
  exists tls, sts, st. split; [reflexivity|]. split; [exact Hwf|].
  now apply buildTables_accumulates in Hrun.
Qed.

Lemma pack_setters st tls sts :
  setters (pack this st tls sts) = map (packSetter st) sts.
Proof. unfold pack. now destruct (metaData2 st). Qed.

Lemma pack_topLevelNames st tls sts :
  topLevelNames (pack this st tls sts) = map (packTopLevelName st) tls.
Proof. unfold pack. now destruct (metaData2 st). Qed.

Lemma pack_topLevelProjections st tls sts :
  topLevelProjections (pack this st tls sts) = map (packTopLevelProjection st) tls.
Proof. unfold pack. now destruct (metaData2 st). Qed.

Lemma pack_paths st tls sts :
  paths (pack this st tls sts)
  = JsObject.values (snd (packMetaDatas st (metaDataByHash st) [])).
Proof.
  unfold pack, metaData2. now destruct (packMetaDatas st (metaDataByHash st) []).
Qed.

Lemma pack_sources st tls sts :
  sources (pack this st tls sts)
  = if options_debug this
    then map sourceOrNull (JsObject.values (projectionsByHash st)) else [].
Proof. unfold pack. now destruct (metaData2 st). Qed.

Lemma indexes_primitive st tls sts h :
  In h (JsObject.keys (primitivesByHash st)) ->
  indexes (primitives (pack this st tls sts)) (indexOf (primitiveHashes st) h).
Proof.
  intros Hin. unfold indexes. rewrite pack_primitives.
  unfold JsObject.values. rewrite length_map.
  pose proof (indexOf_In _ _ Hin) as Hr. unfold primitiveHashes.
  unfold JsObject.keys in Hr |- *. now rewrite length_map in Hr.
Qed.

Lemma indexes_getter st tls sts h :
  In h (JsObject.keys (projectionsByHash st)) ->
  indexes (getters (pack this st tls sts)) (indexOf (projectionHashes st) h).
Proof.
  intros Hin. unfold indexes. rewrite pack_getters.
  unfold JsObject.values. rewrite !length_map.
  pose proof (indexOf_In _ _ Hin) as Hr. unfold projectionHashes.
  unfold JsObject.keys in Hr |- *. now rewrite length_map in Hr.
Qed.

Lemma packRef_packedRef st tls sts r :
  resolves st r -> packedRef (pack this st tls sts) (packRef st r).
Proof.
  destruct r as [n|h|h]; simpl; intros Hr.
  - now left.
  - right. left. eexists. split; [reflexivity|]. now apply indexes_primitive.
  - right. right. eexists. split; [reflexivity|]. now apply indexes_getter.
Qed.

Lemma map_packRef_packedRef st tls sts rs :
  Forall (resolves st) rs ->
  Forall (packedRef (pack this st tls sts)) (map (packRef st) rs).
Proof.
  intros Hrs. apply Forall_map. eapply List.Forall_impl; [|exact Hrs].
  intros r. apply packRef_packedRef.
Qed.

(** X1.  Every row of [getters] is [[type, metaData, ...args]] with [type] an
  index of [primitives], [metaData] an index of the [metaData] array, and
  every argument a packed reference: an integer that fits a reference, a
  tagged index of [primitives] or a tagged index of [getters]. *)
Theorem getters_hold_valid_indices (fuel : nat) (pd : ProjectionData)
    (Hpd : buildProjectionData this fuel = Ok pd) :
  Forall (fun row => exists type md args,
            row = type :: md :: args
            /\ indexes (primitives pd) type
            /\ indexes (metaData pd) md
            /\ Forall (packedRef pd) args)
         (getters pd).
Proof.
  apply buildProjectionData_closed in Hpd as (tls & sts & st & -> & _ & [Cp _] & _).
  rewrite pack_getters at 1. unfold JsObject.values. rewrite map_map.
  apply Forall_map. eapply List.Forall_impl; [|exact Cp].
  intros [k p] (Ht & Hm & Ha). simpl in *.
  eexists _, _, _. split; [reflexivity|].
  split; [now apply indexes_primitive|]. split; [|now apply map_packRef_packedRef].
  unfold indexes. rewrite pack_metaData. cbn [length].
  rewrite length_map, packMetaDatas_length.
  destruct (String.eqb (p_metaData p) EmptyString); [lia|].
  assert (Hin : In (p_metaData p) (mdHashes st)) by (right; exact Hm).
  pose proof (indexOf_In _ _ Hin) as Hr. unfold mdHashes in Hr. cbn [length] in Hr.
  unfold JsObject.keys in Hr. now rewrite length_map in Hr.
Qed.

(** X2.  The rows of [setters] follow [this.setters], one row per setter in the
  same order: [[type, name, numTokens, ...steps]] with [type] and [name]
  indices of [primitives], [numTokens] the number of tokens among the parts
  of the setter less one, and one packed reference for each part after the
  first. *)
Theorem setters_hold_valid_indices (fuel : nat) (pd : ProjectionData)
    (Hpd : buildProjectionData this fuel = Ok pd) :
  Forall2 (fun entry row =>
             exists type name steps,
               row = type :: name
                     :: (Z.of_nat (length (List.filter isToken (parts (snd entry)))) - 1)
                     :: steps
               /\ indexes (primitives pd) type
               /\ indexes (primitives pd) name
               /\ length steps = length (skipn 1 (parts (snd entry)))
               /\ Forall (packedRef pd) steps)
          (this_setters this) (setters pd).
Proof.
  apply buildProjectionData_closed in Hpd as (tls & sts & st & -> & _ & _ & _ & Hs).
  rewrite pack_setters.
  pose proof (indexes_primitive st tls sts) as Hprim.
  pose proof (map_packRef_packedRef st tls sts) as Hrefs.
  revert Hprim Hrefs. generalize (pack this st tls sts) as pd. intros pd Hprim Hrefs.
  induction Hs as [|entry s entries sts' Hs Hrest IH]; simpl.
  - constructor.
  - constructor; [|exact IH].
    destruct s as [[[typeHash nameHash] projection] numTokens].
    destruct Hs as (Ht & Hn & Hp & Hl & ->). simpl.
    eexists _, _, _. split; [reflexivity|].
    split; [now apply Hprim|]. split; [now apply Hprim|].
    split; [now rewrite length_map | now apply Hrefs].
Qed.

Lemma primitive_at_index st h :
  wf st -> In h (JsObject.keys (primitivesByHash st)) ->
  exists v, nth_error (JsObject.values (primitivesByHash st))
              (Z.to_nat (indexOf (primitiveHashes st) h)) = Some v
            /\ exprHash (HValue (defaultTo v VNull)) = h.
Proof.
  intros ((_ & Hkeyed) & _) Hin.
  pose proof (indexOf_lookup _ _ Hin) as Hk.
  unfold primitiveHashes, JsObject.keys, JsObject.values in *.
  rewrite nth_error_map in Hk |- *.
  destruct (nth_error (primitivesByHash st) _) as [[k v]|] eqn:Hnth; [|discriminate].
  simpl in Hk. injection Hk as ->. exists v. split; [reflexivity|].
  rewrite List.Forall_forall in Hkeyed.
  symmetry. exact (Hkeyed _ (nth_error_In _ _ Hnth)).
Qed.

(** X3.  [topLevelNames] and [topLevelProjections] follow [getRealGetters()], one
  entry per top level in the same order.  A name starting with [$] has no
  name index ([-1]) unless the compiler runs in debug mode; any other name
  has the index of the slot of [primitives] that was interned for it.  A top
  level whose getter is an expression or a token points at its row of
  [getters]; one whose getter is an integer that fits a reference has the
  projection index [-1]. *)
Theorem topLevels_follow_getRealGetters (fuel : nat) (pd : ProjectionData)
    (Hpd : buildProjectionData this fuel = Ok pd) :
  Forall2 (fun name z =>
             (options_debug this = false -> notDollar name = false -> z = -1)
             /\ (options_debug this || notDollar name = true ->
                 exprHash (HValue (VStr name)) <> EmptyString ->
                 indexes (primitives pd) z
                 /\ exists v, nth_error (primitives pd) (Z.to_nat z) = Some v
                              /\ exprHash (HValue (defaultTo v VNull))
                                 = exprHash (HValue (VStr name))))
          (getRealGetters this) (topLevelNames pd)
  /\ Forall2 (fun name j =>
                (forall n, getter this name = Scalar (VNum n) ->
                           canBeStoredInRef n = true -> j = -1)
                /\ ((forall v, getter this name <> Scalar v) -> indexes (getters pd) j))
             (getRealGetters this) (topLevelProjections pd).
Proof.
  apply buildProjectionData_closed in Hpd as (tls & sts & st & -> & Hwf & _ & Ht & _).
  rewrite pack_topLevelNames, pack_topLevelProjections, pack_primitives.
  pose proof (indexes_primitive st tls sts) as Hprim.
  pose proof (indexes_getter st tls sts) as Hget.
  rewrite pack_primitives in Hprim.
  revert Hprim Hget. generalize (getters (pack this st tls sts)) as rows.
  intros rows Hprim Hget. split.
  - induction Ht as [|name tl names tls' (Hname & _) Hrest IH]; simpl; constructor;
      [|exact IH].
    unfold packTopLevelName. destruct (fst tl) as [h|].
    + destruct Hname as (Hshown & -> & Hin). split.
      * intros Hd Hn. rewrite Hd, Hn in Hshown. discriminate.
      * intros _ Hne.
        destruct (String.eqb_spec (exprHash (HValue (VStr name))) EmptyString);
          [contradiction|].
        split; [now apply Hprim | now apply primitive_at_index].
    + split; [reflexivity|]. intros Hshown. congruence.
  - induction Ht as [|name tl names tls' (_ & Href & Hres) Hrest IH]; simpl; constructor;
      [|exact IH].
    unfold packTopLevelProjection. rewrite Href. split.
    + intros n Hg Hfits. rewrite Hg. simpl. now rewrite Hfits.
    + intros Hobj. destruct (getter this name) as [v|t|head args];
        [now destruct (Hobj v)| |]; simpl in *; now apply Hget.
Qed.

Lemma addPath_keys path pathByHash hash pathByHash' :
  addPath path pathByHash = (hash, pathByHash') ->
  (exists more, pathByHash' = pathByHash ++ more)
  /\ In hash (JsObject.keys pathByHash')
  /\ forall Q : list Z -> Prop,
       Forall (fun kv => Q (snd kv)) pathByHash -> Q path ->
       Forall (fun kv => Q (snd kv)) pathByHash'.
Proof.
  unfold addPath. destruct (JsObject.has _ _) eqn:Hhas; intros [= <- <-].
  - split; [exists []; now rewrite app_nil_r|].
    split; [now apply JsObjectFacts.has_In | auto].
  - split; [eexists; now apply JsObjectFacts.set_absent|].
    split; [apply In_keys_set|]. intros Q Hall Hp.
    now apply JsObjectFacts.Forall_set.
Qed.

Lemma addPaths_keys st mdPaths pathByHash hashes pathByHash' :
  addPaths st mdPaths pathByHash = (hashes, pathByHash') ->
  (exists more, pathByHash' = pathByHash ++ more)
  /\ Forall (fun h => In h (JsObject.keys pathByHash')) hashes
  /\ forall Q : list Z -> Prop,
       Forall (fun kv => Q (snd kv)) pathByHash ->
       Forall (fun cp => Q (packRef st (fst cp) :: map (packRef st) (snd cp))) mdPaths ->
       Forall (fun kv => Q (snd kv)) pathByHash'.
Proof.
  revert pathByHash hashes pathByHash'.
  induction mdPaths as [|[cond path] rest IH]; intros pbh hashes pbh'; simpl.
  - intros [= <- <-]. split; [exists []; now rewrite app_nil_r|]. split; [constructor | auto].
  - destruct (addPath _ pbh) as [hash pbh1] eqn:Hadd.
    destruct (addPaths st rest pbh1) as [hashes' pbh2] eqn:Hrest.
    intros [= <- <-].
    apply addPath_keys in Hadd as ([m1 E1] & Hin & HQ1).
    apply IH in Hrest as ([m2 E2] & Hall & HQ2).
    split; [exists (m1 ++ m2); rewrite app_assoc; congruence|]. split.
    + constructor; [|exact Hall]. rewrite E2, keys_app. apply in_or_app. now left.
    + intros Q Hpbh Hps. inversion Hps; subst. apply HQ2; auto.
Qed.

Lemma packMetaDatas_keys st records pathByHash packed pathByHash' :
  packMetaDatas st records pathByHash = (packed, pathByHash') ->
  (exists more, pathByHash' = pathByHash ++ more)
  /\ Forall (fun md => (fst md = 0 \/ fst md = InvalidatesFlag)
                       /\ Forall (fun h => In h (JsObject.keys pathByHash')) (snd md))
            packed
  /\ forall Q : list Z -> Prop,
       Forall (fun kv => Q (snd kv)) pathByHash ->
       Forall (fun kv => match md_paths (snd kv) with
                         | Some ps =>
                             Forall (fun cp => Q (packRef st (fst cp)
                                                  :: map (packRef st) (snd cp))) ps
                         | None => True
                         end) records ->
       Forall (fun kv => Q (snd kv)) pathByHash'.
Proof.
  revert pathByHash packed pathByHash'.
  induction records as [|[k md] rest IH]; intros pbh packed pbh'; simpl.
  - intros [= <- <-]. split; [exists []; now rewrite app_nil_r|]. split; [constructor | auto].
  - unfold packMetaData.
    destruct (addPaths st _ pbh) as [hashes pbh1] eqn:Hadd.
    destruct (packMetaDatas st rest pbh1) as [others pbh2] eqn:Hrest.
    intros [= <- <-].
    apply addPaths_keys in Hadd as ([m1 E1] & Hin & HQ1).
    apply IH in Hrest as ([m2 E2] & Hall & HQ2).
    split; [exists (m1 ++ m2); rewrite app_assoc; congruence|]. split.
    + constructor; [|exact Hall]. simpl. split.
      * destruct (md_invalidates md); auto.
      * eapply List.Forall_impl; [|exact Hin]. intros h Hh. simpl in Hh.
        rewrite E2, keys_app. apply in_or_app. now left.
    + intros Q Hpbh Hrecs. inversion Hrecs as [|? ? Hmd Hrecs']; subst. simpl in Hmd.
      apply HQ2; [|exact Hrecs']. apply HQ1; [exact Hpbh|].
      destruct (md_paths md); [exact Hmd | constructor].
Qed.

(** X4.  Every row of [metaData] is [[flags, ...pathIndices]]: the flags are [0]
  or [InvalidatesFlag], and every path index is an index of [paths]. *)
Theorem metaData_rows_index_paths (fuel : nat) (pd : ProjectionData)
    (Hpd : buildProjectionData this fuel = Ok pd) :
  Forall (fun row => exists flags pathIndices,
            row = flags :: pathIndices
            /\ (flags = 0 \/ flags = InvalidatesFlag)
            /\ Forall (indexes (paths pd)) pathIndices)
         (metaData pd).
Proof.
  apply buildProjectionData_closed in Hpd as (tls & sts & st & -> & _).
  rewrite pack_metaData, pack_paths.
  destruct (packMetaDatas st (metaDataByHash st) []) as [packed pbh] eqn:Hpack.
  apply packMetaDatas_keys in Hpack as (_ & Hall & _). simpl.
  constructor; [exists 0, []; auto|].
  apply Forall_map. eapply List.Forall_impl; [|exact Hall].
  intros [flags hashes] [Hflags Hin]. simpl in *.
  exists flags, (map (indexOf (JsObject.keys pbh)) hashes).
  split; [reflexivity|]. split; [exact Hflags|].
  apply Forall_map. eapply List.Forall_impl; [|exact Hin].
  intros h Hh. simpl in Hh. unfold indexes, JsObject.values. rewrite length_map.
  pose proof (indexOf_In _ _ Hh) as Hr. unfold JsObject.keys in Hr |- *.
  now rewrite length_map in Hr.
Qed.

(** X5.  Every entry of [paths] is [[cond, ...steps]], a non-empty row of packed
  references. *)
Theorem paths_hold_packed_references (fuel : nat) (pd : ProjectionData)
    (Hpd : buildProjectionData this fuel = Ok pd) :
  Forall (fun path => path <> [] /\ Forall (packedRef pd) path) (paths pd).
Proof.
  apply buildProjectionData_closed in Hpd as (tls & sts & st & -> & _ & [_ Cm] & _).
  rewrite pack_paths at 1.
  destruct (packMetaDatas st (metaDataByHash st) []) as [packed pbh] eqn:Hpack.
  apply packMetaDatas_keys in Hpack as (_ & _ & HQ). simpl.
  unfold JsObject.values. apply Forall_map.
  apply (HQ (fun path => path <> [] /\ Forall (packedRef (pack this st tls sts)) path));
    [constructor|].
  eapply List.Forall_impl; [|exact Cm].
  intros [k md]. unfold resolvesMetaData. simpl.
  destruct (md_paths md) as [ps|]; [|auto].
  intros Hps. eapply List.Forall_impl; [|exact Hps].
  intros [cond path] [Hc Hs]. simpl in *. split; [discriminate|].
  constructor; [now apply packRef_packedRef | now apply map_packRef_packedRef].
Qed.

(** X6.  Compiling one more expression moves nothing: a hash that had an index in
  a table keeps it, and a stored primitive or metadata record stays as it
  is. *)
Theorem serializeProjection_keeps_indices
    (fuel : nat) (e : node) (st st' : tables) (r : IntermediateReference)
    (Hrun : serializeProjection this fuel e st = Ok (r, st')) :
  (forall h, In h (primitiveHashes st) ->
             indexOf (primitiveHashes st') h = indexOf (primitiveHashes st) h
             /\ JsObject.get (primitivesByHash st') h = JsObject.get (primitivesByHash st) h)
  /\ (forall h, In h (mdHashes st) ->
                indexOf (mdHashes st') h = indexOf (mdHashes st) h)
  /\ (forall h, In h (JsObject.keys (metaDataByHash st)) ->
                JsObject.get (metaDataByHash st') h = JsObject.get (metaDataByHash st) h)
  /\ (forall h, In h (projectionHashes st) ->
                indexOf (projectionHashes st') h = indexOf (projectionHashes st) h).
Proof.
  apply serializeProjection_accumulates in Hrun as [[([a Ea] & [b Eb] & [c Ec]) _] _].
  unfold primitiveHashes, mdHashes, projectionHashes.
  rewrite Ea, Eb, Ec, !keys_app.
  split; [|split; [|split]].
  - intros h Hin. split; [now apply indexOf_app|].
    apply JsObjectFacts.has_In, JsObjectFacts.has_get in Hin as [v Hv].
    rewrite Hv. now apply get_app.
  - intros h Hin. rewrite app_comm_cons. now apply indexOf_app.
  - intros h Hin.
    apply JsObjectFacts.has_In, JsObjectFacts.has_get in Hin as [v Hv].
    rewrite Hv. now apply get_app.
  - intros h Hin. now apply indexOf_app.
Qed.

(** X7.  An expression that was compiled once is never compiled again: met
  again, at any later stage of the tables, it gives the same reference and
  leaves the tables as they are. *)
Theorem serializeProjection_again
    (fuel fuel' : nat) (e : node) (st st' st'' : tables) (r : IntermediateReference)
    (Hrun : serializeProjection this fuel e st = Ok (r, st'))
    (Hlater : appends st' st'') :
  serializeProjection this (S fuel') e st'' = Ok (r, st'').
Proof.
  pose proof (serializeProjection_ref _ _ _ _ _ _ Hrun) as ->.
  apply serializeProjection_accumulates in Hrun as [_ Hres].
  apply (resolves_appends _ _ _ Hlater) in Hres.
  assert (Hprim : forall v,
             resolves st'' (Primitives (exprHash (HValue (defaultTo v VNull)))) ->
             bind (addPrimitive v) (fun h => ret (Primitives h)) st''
             = Ok (Primitives (exprHash (HValue (defaultTo v VNull))), st'')).
  { intros v Hin. unfold bind. rewrite addPrimitive_present; [reflexivity|].
    now apply JsObjectFacts.has_In. }
  destruct e as [v|t|head args].
  - simpl in *. destruct v; try (now apply Hprim).
    destruct (canBeStoredInRef n); [reflexivity | now apply Hprim].
  - apply serializeProjection_present; [discriminate|].
    now apply JsObjectFacts.has_In.
  - apply serializeProjection_present; [discriminate|].
    now apply JsObjectFacts.has_In.
Qed.

(** *** What the builder does with the arguments and the paths of a node *)

Lemma generateProjectionFromExpression_args fuel head args st p st' manipulated :
  generateProjectionFromExpression this (serializeProjection this fuel)
    (Expr head args) st = Ok (p, st') ->
  (forall st0, argsManipulators this (Expr head args) head (t_type head) args st0
               = Ok (manipulated, st0)) ->
  p_args p = map refOf manipulated.
Proof.
  unfold generateProjectionFromExpression. intros Hrun Hmanip.
  apply bind_Ok in Hrun as (paths & st1 & Hpaths & Hrun).
  apply bind_Ok in Hrun as (type & st2 & Htype & Hrun).
  apply bind_Ok in Hrun as (md & st3 & Hmd & Hrun).
  apply bind_Ok in Hrun as (manipulated' & st4 & Hm & Hrun).
  apply bind_Ok in Hrun as (refs & st5 & Hrefs & Hrun).
  apply ret_Ok in Hrun as [<- <-]. simpl.
  rewrite Hmanip in Hm. injection Hm as <- <-.
  eapply mapM_serializeProjection_refs; eassumption.
Qed.

(** X8.  A [range] node is compiled with three arguments, [end], [start] and
  [step]: a [start] that is missing (or [null]) is [0] and a [step] that is
  missing is [1]. *)
Theorem range_arguments_defaulted
    (fuel : nat) (head : token) (args : list node)
    (st st' : tables) (p : IntermediateProjection)
    (Hrange : t_type head = "range")
    (Hrun : generateProjectionFromExpression this (serializeProjection this fuel)
              (Expr head args) st = Ok (p, st')) :
  p_args p = [refOf (at_index args 0);
              refOf (defaultToNode (at_index args 1) (VNum 0));
              refOf (defaultToNode (at_index args 2) (VNum 1))]
  /\ (length args = 1%nat ->
      p_args p = [refOf (at_index args 0); refOf (Scalar (VNum 0)); refOf (Scalar (VNum 1))])
  /\ (length args = 2%nat ->
      p_args p = [refOf (at_index args 0);
                  refOf (defaultToNode (at_index args 1) (VNum 0));
                  refOf (Scalar (VNum 1))]).
Proof.
  assert (Hargs : p_args p = [refOf (at_index args 0);
                              refOf (defaultToNode (at_index args 1) (VNum 0));
                              refOf (defaultToNode (at_index args 2) (VNum 1))]).
  { apply (generateProjectionFromExpression_args _ _ _ _ _ _
             [at_index args 0; defaultToNode (at_index args 1) (VNum 0);
              defaultToNode (at_index args 2) (VNum 1)] Hrun).
    intros st0. unfold argsManipulators. rewrite Hrange. reflexivity. }
  split; [exact Hargs|]. rewrite Hargs.
  split; intros Hlen; destruct args as [|a [|b [|c args]]]; try discriminate; reflexivity.
Qed.

(** X9.  An [and], [or] or [ternary] node is compiled with one more argument in
  front of its own: the [$id] of its head token when the token is tracked,
  [-1] when it is not. *)
Theorem logical_arguments_carry_id
    (fuel : nat) (head : token) (args : list node)
    (st st' : tables) (p : IntermediateProjection)
    (Htype : t_type head = "and" \/ t_type head = "or" \/ t_type head = "ternary")
    (Hrun : generateProjectionFromExpression this (serializeProjection this fuel)
              (Expr head args) st = Ok (p, st')) :
  p_args p = refOf (Scalar (if t_tracked head then t_id head else VNum (-1)))
             :: map refOf args.
Proof.
  apply (generateProjectionFromExpression_args _ _ _ _ _ _
           (Scalar (if t_tracked head then t_id head else VNum (-1)) :: args) Hrun).
  intros st0. unfold argsManipulators.
  destruct Htype as [-> | [-> | ->]]; reflexivity.
Qed.

(** X10.  An invalidation path that starts at the [context] token is kept with a
  [0] inserted after the token; one that starts at the [topLevel] token and
  goes on is kept with its second step, the name of a top level, replaced by
  the index of that top level; the [topLevel] token alone is discarded. *)
Theorem context_and_topLevel_paths_rewritten
    (fuel : nat) (cond : node) (invalidatedPath : list node) (t : token)
    (st st' : tables)
    (entry : option (IntermediateReference * list IntermediateReference))
    (Hroot : at_index invalidatedPath 0 = Tok t)
    (Hrun : invalidationPath this (serializeProjection this fuel) cond invalidatedPath st
            = Ok (entry, st')) :
  (t_type t = "context" ->
   entry = Some (refOf cond,
                 refOf (Tok t) :: refOf (Scalar (VNum 0))
                 :: map refOf (skipn 1 invalidatedPath)))
  /\ (t_type t = "topLevel" -> (1 < length invalidatedPath)%nat ->
      entry = Some (refOf cond,
                    refOf (Tok t)
                    :: refOf (Scalar (topLevelToIndex this (at_index invalidatedPath 1)))
                    :: map refOf (skipn 2 invalidatedPath)))
  /\ (t_type t = "topLevel" -> length invalidatedPath = 1%nat -> entry = None).
Proof.
  unfold invalidationPath in Hrun. rewrite Hroot in Hrun.
  apply bind_Ok in Hrun as (condProj & st1 & Hcond & Hrun).
  apply serializeProjection_ref in Hcond as ->.
  apply bind_Ok in Hrun as (rootType & st2 & Hty & Hrun).
  apply ret_Ok in Hty as [<- <-].
  split; [|split].
  - intros Htype. rewrite Htype in Hrun.
    change (is_type (Some "context") "context") with true in Hrun. cbv beta iota in Hrun.
    apply bind_Ok in Hrun as (steps & st3 & Hsteps & Hrun).
    apply ret_Ok in Hrun as [<- <-].
    apply mapM_serializeProjection_refs in Hsteps as ->. reflexivity.
  - intros Htype Hlen. rewrite Htype in Hrun.
    apply Nat.ltb_lt in Hlen. rewrite Hlen in Hrun.
    change (is_type (Some "topLevel") "context") with false in Hrun.
    change (is_type (Some "topLevel") "topLevel") with true in Hrun.
    cbn [andb] in Hrun. cbv beta iota in Hrun.
    apply bind_Ok in Hrun as (steps & st3 & Hsteps & Hrun).
    apply ret_Ok in Hrun as [<- <-].
    apply mapM_serializeProjection_refs in Hsteps as ->. reflexivity.
  - intros Htype Hlen. rewrite Htype, Hlen in Hrun.
    change (is_type (Some "topLevel") "context") with false in Hrun.
    change (is_type (Some "topLevel") "root") with false in Hrun.
    change (1 <? 1)%nat with false in Hrun.
    cbn [andb orb bind ret] in Hrun. now injection Hrun as <- _.
Qed.

End Accumulation.

#[local] Existing Instance Sample.sample.

Lemma getters_hold_valid_indices_witness :
  Forall (fun row => exists type md args,
            row = type :: md :: args
            /\ indexes (primitives Sample.compiled2) type
            /\ indexes (metaData Sample.compiled2) md
            /\ Forall (packedRef Sample.compiled2) args)
         (getters Sample.compiled2).
Proof.
  assert (Hpd : buildProjectionData Sample.model2 5 = Ok Sample.compiled2)
    by (vm_compute; reflexivity).
  exact (getters_hold_valid_indices Sample.model2 5 Sample.compiled2 Hpd).
Defined.

Lemma setters_hold_valid_indices_witness :
  Forall2 (fun entry row =>
             exists type name steps,
               row = type :: name
                     :: (Z.of_nat (length (List.filter isToken (parts (snd entry)))) - 1)
                     :: steps
               /\ indexes (primitives Sample.compiled2) type
               /\ indexes (primitives Sample.compiled2) name
               /\ length steps = length (skipn 1 (parts (snd entry)))
               /\ Forall (packedRef Sample.compiled2) steps)
          [("setA", Sample.setA)] [[5; 6; 0; 16777218]].
Proof.
  assert (Hpd : buildProjectionData Sample.model2 5 = Ok Sample.compiled2)
    by (vm_compute; reflexivity).
  exact (setters_hold_valid_indices Sample.model2 5 Sample.compiled2 Hpd).
Defined.

Lemma topLevels_follow_getRealGetters_witness :
  Forall2 (fun name z =>
             (options_debug Sample.model2 = false -> notDollar name = false -> z = -1)
             /\ (options_debug Sample.model2 || notDollar name = true ->
                 exprHash (HValue (VStr name)) <> EmptyString ->
                 indexes (primitives Sample.compiled2) z
                 /\ exists v, nth_error (primitives Sample.compiled2) (Z.to_nat z) = Some v
                              /\ exprHash (HValue (defaultTo v VNull))
                                 = exprHash (HValue (VStr name))))
          ["x"; "$hidden"] [4; -1].
Proof.
  assert (Hpd : buildProjectionData Sample.model2 5 = Ok Sample.compiled2)
    by (vm_compute; reflexivity).
  exact (proj1 (topLevels_follow_getRealGetters Sample.model2 5 Sample.compiled2 Hpd)).
Defined.

Lemma metaData_rows_index_paths_witness :
  Forall (fun row => exists flags pathIndices,
            row = flags :: pathIndices
            /\ (flags = 0 \/ flags = InvalidatesFlag)
            /\ Forall (indexes (paths Sample.compiled2)) pathIndices)
         [[0]; [0]; [1; 0]].
Proof.
  assert (Hpd : buildProjectionData Sample.model2 5 = Ok Sample.compiled2)
    by (vm_compute; reflexivity).
  exact (metaData_rows_index_paths Sample.model2 5 Sample.compiled2 Hpd).
Defined.

Lemma paths_hold_packed_references_witness :
  Forall (fun path => path <> [] /\ Forall (packedRef Sample.compiled2) path)
         [[16777216; 33554432; 16777218]].
Proof.
  assert (Hpd : buildProjectionData Sample.model2 5 = Ok Sample.compiled2)
    by (vm_compute; reflexivity).
  exact (paths_hold_packed_references Sample.model2 5 Sample.compiled2 Hpd).
Defined.

Lemma serializeProjection_keeps_indices_witness :
  exists r1 st1 r2 st2,
    serializeProjection Sample.model1 3 Sample.root emptyTables = Ok (r1, st1)
    /\ serializeProjection Sample.model1 3 Sample.get_a st1 = Ok (r2, st2)
    /\ indexOf (primitiveHashes st2) "v:'root'" = indexOf (primitiveHashes st1) "v:'root'"
    /\ indexOf (projectionHashes st2) "e:*root/00undefined<>"
       = indexOf (projectionHashes st1) "e:*root/00undefined<>".
Proof.
  destruct (serializeProjection Sample.model1 3 Sample.root emptyTables)
    as [[r1 st1]| |] eqn:Hrun1; try (vm_compute in Hrun1; discriminate Hrun1).
  destruct (serializeProjection Sample.model1 3 Sample.get_a st1)
    as [[r2 st2]| |] eqn:Hrun2;
    try (exfalso; vm_compute in Hrun1; injection Hrun1 as <- <-;
         vm_compute in Hrun2; discriminate Hrun2).
  exists r1, st1, r2, st2. split; [reflexivity|]. split; [exact Hrun2|].
  destruct (serializeProjection_keeps_indices Sample.model1 3 Sample.get_a st1 st2 r2 Hrun2)
    as (Hp & _ & _ & Hg).
  vm_compute in Hrun1. injection Hrun1 as <- <-.
  split; [apply Hp | apply Hg]; left; reflexivity.
Defined.

Lemma serializeProjection_again_witness :
  exists r st',
    serializeProjection Sample.model1 3 Sample.get_a emptyTables = Ok (r, st')
    /\ serializeProjection Sample.model1 1 Sample.get_a st' = Ok (r, st').
Proof.
  destruct (serializeProjection Sample.model1 3 Sample.get_a emptyTables)
    as [[r st']| |] eqn:Hrun; try (vm_compute in Hrun; discriminate Hrun).
  exists r, st'. split; [reflexivity|].
  apply (serializeProjection_again Sample.model1 3 0 Sample.get_a emptyTables st' st' r Hrun).
  apply appends_refl.
Defined.

Lemma range_arguments_defaulted_witness :
  exists p st,
    generateProjectionFromExpression Sample.model1 (serializeProjection Sample.model1 2)
      (Expr (Sample.tok "range") [Scalar (VNum 5)]) emptyTables = Ok (p, st)
    /\ p_args p = [Ints 5; Ints 0; Ints 1].
Proof.
  destruct (generateProjectionFromExpression Sample.model1
              (serializeProjection Sample.model1 2)
              (Expr (Sample.tok "range") [Scalar (VNum 5)]) emptyTables)
    as [[p st]| |] eqn:Hrun; try (vm_compute in Hrun; discriminate Hrun).
  exists p, st. split; [reflexivity|].
  exact (proj1 (range_arguments_defaulted Sample.model1 2 (Sample.tok "range")
                  [Scalar (VNum 5)] emptyTables st p eq_refl Hrun)).
Defined.

Lemma logical_arguments_carry_id_witness :
  exists p st,
    generateProjectionFromExpression Sample.model1 (serializeProjection Sample.model1 2)
      (Expr (Sample.tok "or") [Sample.str "a"; Scalar (VNum 2)]) emptyTables = Ok (p, st)
    /\ p_args p = [Primitives "v:-1"; Primitives "v:'a'"; Ints 2].
Proof.
  destruct (generateProjectionFromExpression Sample.model1
              (serializeProjection Sample.model1 2)
              (Expr (Sample.tok "or") [Sample.str "a"; Scalar (VNum 2)]) emptyTables)
    as [[p st]| |] eqn:Hrun; try (vm_compute in Hrun; discriminate Hrun).
  exists p, st. split; [reflexivity|].
  exact (logical_arguments_carry_id Sample.model1 2 (Sample.tok "or")
           [Sample.str "a"; Scalar (VNum 2)] emptyTables st p
           (or_intror (or_introl eq_refl)) Hrun).
Defined.

Lemma context_and_topLevel_paths_rewritten_witness :
  exists st,
    invalidationPath Sample.model1 (serializeProjection Sample.model1 2)
      (Scalar (VBool true)) [Tok (Sample.tok "context"); Sample.str "a"] emptyTables
    = Ok (Some (Primitives "v:true",
                [Projections "e:*context/00undefined<>"; Ints 0; Primitives "v:'a'"]), st).
Proof.
  destruct (invalidationPath Sample.model1 (serializeProjection Sample.model1 2)
              (Scalar (VBool true)) [Tok (Sample.tok "context"); Sample.str "a"] emptyTables)
    as [[entry st]| |] eqn:Hrun; try (vm_compute in Hrun; discriminate Hrun).
  exists st. f_equal. f_equal.
  exact (proj1 (context_and_topLevel_paths_rewritten Sample.model1 2 (Scalar (VBool true))
                  [Tok (Sample.tok "context"); Sample.str "a"] (Sample.tok "context")
                  emptyTables st entry eq_refl Hrun) eq_refl).
Defined.

End TableFacts.

(** ** Writing to the model: [ensurePath] and [set] *)

Module StoreFacts.
Import Runtime RuntimeFacts.

Section Store.
Variable model : val.
Variable strict : bool.

Lemma dropLast_firstn (path : list key) (n : nat) :
  (n <= length path - 1)%nat -> firstn n (dropLast path) = firstn n path.
Proof.
  intros Hn. unfold dropLast. rewrite firstn_firstn. f_equal. lia.
Qed.

Lemma length_dropLast (path : list key) : length (dropLast path) = (length path - 1)%nat.
Proof. unfold dropLast. rewrite length_firstn. lia. Qed.

(** The slot of the one before last key holds a truthy value: the last step
  of [ensurePath] changes nothing. *)
Lemma ensureLast_existing (path : list key) (h : heap) (x : val) :
  (2 <= length path)%nat ->
  reduceGet h model (dropLast path) = Returned x ->
  truthy x = true ->
  ensureLast model strict path h = (h, Returned tt).
Proof.
  intros Hlen Hx Htruthy. unfold dropLast in Hx.
  replace (length path - 1)%nat with (S (length path - 2)) in Hx by lia.
  rewrite (reduceGet_snoc _ _ _ _ (KStr "undefined")) in Hx by lia.
  unfold ensureLast, getAssignableObject, keyAt.
  destruct (reduceGet h model (firstn (length path - 2) path)) as [c|e]; [|discriminate].
  now rewrite Hx, Htruthy.
Qed.

Lemma ensurePath_existing (path : list key) (h : heap) :
  (forall n, (1 <= n < length path)%nat ->
     exists x, reduceGet h model (firstn n path) = Returned x /\ truthy x = true) ->
  ensurePath model strict path h = (h, Returned tt).
Proof.
  remember (length path) as len eqn:Hlen.
  revert path Hlen. induction len as [len IH] using lt_wf_ind.
  intros path Hlen Hexists. rewrite ensurePath_unfold, <- Hlen.
  destruct (Nat.ltb_spec len 2) as [|Hge]; [reflexivity|].
  assert (Hlast : ensureLast model strict path h = (h, Returned tt)).
  { destruct (Hexists (len - 1)%nat) as (x & Hx & Htruthy); [lia|].
    apply (ensureLast_existing path h x); [lia| |exact Htruthy].
    unfold dropLast. now rewrite <- Hlen. }
  destruct (Nat.leb_spec len 2) as [|Hgt]; [exact Hlast|].
  rewrite (IH (len - 1)%nat); [exact Hlast | lia | |].
  - rewrite length_dropLast. lia.
  - intros n Hn. rewrite dropLast_firstn by lia. apply Hexists. lia.
Qed.

(** X11.  On a path whose every step but the last already leads to a truthy value,
  [ensurePath] returns and leaves the store as it is. *)
Theorem ensurePath_leaves_existing_path (path : list key) (h : heap)
    (Hexists : forall n, (1 <= n < length path)%nat ->
                 exists x, reduceGet h model (firstn n path) = Returned x
                           /\ truthy x = true) :
  ensurePath model strict path h = (h, Returned tt).
Proof.
  remember (length path) as len eqn:Hlen.
  revert path Hlen Hexists. induction len as [len IH] using lt_wf_ind.
  intros path Hlen Hexists. rewrite ensurePath_unfold, <- Hlen.
  destruct (Nat.ltb_spec len 2) as [|Hge]; [reflexivity|].
  assert (Hlast : ensureLast model strict path h = (h, Returned tt)).
  { destruct (Hexists (len - 1)%nat) as (x & Hx & Htruthy); [lia|].
    apply (ensureLast_existing path h x); [lia| |exact Htruthy].
    unfold dropLast. now rewrite <- Hlen. }
  destruct (Nat.leb_spec len 2) as [|Hgt]; [exact Hlast|].
  rewrite (IH (len - 1)%nat); [exact Hlast | lia | |].
  - rewrite length_dropLast. lia.
  - intros n Hn. rewrite dropLast_firstn by lia. apply Hexists. lia.
Qed.

(** X12.  When the path exists up to the parent of its last key and the slot that
  should hold this parent is falsy ([undefined], [null], [false], [0] or
  the empty string), [ensurePath] puts a fresh empty container there,
  whatever was in the slot: an array when the last key is a number, a plain
  object when it is a string.  The keys that lead to the slot, the key of
  the slot included, are ordinary for the containers they are read from. *)
Theorem ensurePath_fills_falsy_slot
    (path : list key) (h : heap) (l : nat) (o : object) (x : val)
    (Hlen : (2 <= length path)%nat)
    (Hordinary : ordinaryWalk h model (dropLast path) = true)
    (Hexists : forall n, (1 <= n < length path - 1)%nat ->
                 exists y, reduceGet h model (firstn n path) = Returned y
                           /\ truthy y = true)
    (Hparent : reduceGet h model (firstn (length path - 2) path) = Returned (Ref l))
    (Hobject : nth_error h l = Some o)
    (Hslot : getProperty h (Ref l) (keyAt path (length path - 2)) = Returned x)
    (Hfalsy : truthy x = false) :
  let slot := propertyKey (keyAt path (length path - 2)) in
  let array := isNumber (keyAt path (length path - 1)) in
  ensurePath model strict path h
  = (update h l (setOwn o slot (Ref (length h)))
       ++ [{| isArray := array; properties := [] |}],
     Returned tt).
Proof.
  intros slot array.
  assert (Hlast : ensureLast model strict path h
                  = (update h l (setOwn o slot (Ref (length h)))
                       ++ [{| isArray := array; properties := [] |}],
                     Returned tt)).
  { unfold ensureLast, getAssignableObject. rewrite Hparent, Hslot, Hfalsy.
    unfold assignContainer. now rewrite Hobject. }
  rewrite ensurePath_unfold.
  destruct (Nat.ltb_spec (length path) 2) as [|_]; [lia|].
  destruct (Nat.leb_spec (length path) 2) as [|Hgt]; [exact Hlast|].
  rewrite ensurePath_existing; [exact Hlast|].
  intros n Hn. rewrite length_dropLast in Hn. rewrite dropLast_firstn by lia.
  apply Hexists. lia.
Qed.

Lemma getProperty_update_other (h : heap) (l : nat) (o : object) (v : val) (k : key) :
  v <> Ref l -> getProperty (update h l o) v k = getProperty h v k.
Proof.
  intros Hne. destruct v as [| | | | |l']; try reflexivity.
  simpl. rewrite nth_error_update_other; [reflexivity | congruence].
Qed.

(** Replacing a container the walk does not read from does not change the
  walk. *)
Lemma reduceGet_update (h : heap) (l : nat) (o : object) (keys : list key) (v : val) :
  ~ In (Ref l) (readFrom h v keys) ->
  reduceGet (update h l o) v keys = reduceGet h v keys.
Proof.
  revert v. induction keys as [|p keys IH]; intros v Hnot; simpl in *; [reflexivity|].
  rewrite getProperty_update_other by (intros ->; apply Hnot; now left).
  destruct (getProperty h v p) as [v'|e]; [|reflexivity].
  apply IH. intros Hin. apply Hnot. now right.
Qed.

Lemma reduceGet_last (h : heap) (v : val) (path : list key) :
  path <> [] ->
  reduceGet h v path
  = match reduceGet h v (dropLast path) with
    | Returned c => getProperty h c (keyAt path (length path - 1))
    | Threw e => Threw e
    end.
Proof.
  intros Hne. assert (0 < length path)%nat by (destruct path; simpl; [congruence | lia]).
  unfold dropLast, keyAt.
  rewrite <- (reduceGet_snoc h v path (length path - 1) (KStr "undefined")) by lia.
  replace (S (length path - 1)) with (length path) by lia.
  now rewrite firstn_all.
Qed.

Lemma get_deleteKey_same {V} (o : list (string * V)) (k : string) :
  List.NoDup (JsObject.keys o) -> JsObject.get (deleteKey o k) k = None.
Proof.
  induction o as [|[k' v] o IH]; simpl; [reflexivity|].
  intros Hnd. apply NoDup_cons_iff in Hnd as [Hk' Hnd].
  destruct (String.eqb_spec k' k) as [->|Hne].
  - apply JsObjectFacts.has_false_get.
    destruct (JsObject.has o k) eqn:Hhas; [|reflexivity].
    apply JsObjectFacts.has_In in Hhas. contradiction.
  - simpl. destruct (String.eqb_spec k' k); [contradiction | now apply IH].
Qed.

Lemma get_deleteKey_other {V} (o : list (string * V)) (k k' : string) :
  k <> k' -> JsObject.get (deleteKey o k) k' = JsObject.get o k'.
Proof.
  intros Hne. induction o as [|[k1 v] o IH]; simpl; [reflexivity|].
  destruct (String.eqb_spec k1 k) as [->|Hk1]; simpl.
  - destruct (String.eqb_spec k k'); [contradiction | reflexivity].
  - now rewrite IH.
Qed.


(** X14.  [set(path, undefined)] deletes: under the same conditions (the keys of
  the path ordinary for the containers they are read from), the last key
  is removed from the container and reading the path gives [undefined]; the
  other properties of the container are as they were. *)
Theorem set_undefined_deletes
    (path : list key) (h h1 : heap) (l : nat) (o : object)
    (Hpath : path <> [])
    (Hensure : ensurePath model strict path h = (h1, Returned tt))
    (Hordinary : ordinaryWalk h1 model path = true)
    (Hparent : reduceGet h1 model (dropLast path) = Returned (Ref l))
    (Hobject : nth_error h1 l = Some o)
    (Hkeys : List.NoDup (JsObject.keys (properties o)))
    (Hfresh : ~ In (Ref l) (readFrom h1 model (dropLast path))) :
  let last := propertyKey (keyAt path (length path - 1)) in
  let o' := {| isArray := isArray o; properties := deleteKey (properties o) last |} in
  let h2 := update h1 l o' in
  set model strict path Undefined h = (h2, Returned tt)
  /\ JsObject.has (properties o') last = false
  /\ reduceGet h2 model path = Returned Undefined
  /\ (forall name, name <> last ->
        JsObject.get (properties o') name = JsObject.get (properties o) name).
Proof.
  intros last o' h2.
  assert (Hl : (l < length h1)%nat) by (apply nth_error_Some; congruence).
  assert (Hgone : JsObject.get (properties o') last = None)
    by (now apply get_deleteKey_same).
  split; [|split; [|split]].
  - unfold set, getAssignableObject. rewrite Hensure.
    fold (dropLast path). rewrite Hparent. unfold applySetter. now rewrite Hobject.
  - destruct (JsObject.has (properties o') last) eqn:Hhas; [|reflexivity].
    apply JsObjectFacts.has_get in Hhas as [v Hv]. congruence.
  - rewrite reduceGet_last by exact Hpath.
    unfold h2. rewrite reduceGet_update by exact Hfresh. rewrite Hparent.
    simpl. rewrite nth_error_update_same by exact Hl. fold last. now rewrite Hgone.
  - intros name Hne. simpl. now apply get_deleteKey_other.
Qed.

(** X15.  [set] on a path whose steps before the last lead, through containers
  and ordinary keys, to a value that is not a container, the last key being
  a number or a name that [Object.prototype] does not define.  On
  [undefined] and [null] it throws a [TypeError].  On a boolean, a number or
  a string, deleting is a no-op (for a string in strict code: when the key
  is not [length] or the index of a character); storing a value is silently
  dropped when the template runs as sloppy code and is a [TypeError] when it
  runs as strict code.  The store stays as [ensurePath] left it in every
  case. *)
Theorem set_on_primitive
    (path : list key) (value : val) (h h1 : heap) (p : val)
    (Hensure : ensurePath model strict path h = (h1, Returned tt))
    (Hordinary : ordinaryWalk h1 model (dropLast path) = true)
    (Hparent : reduceGet h1 model (dropLast path) = Returned p)
    (Hprimitive : isPrimitive p)
    (Hlast : ordinary false (keyAt path (length path - 1)) = true)
    (Hstring : forall s, p = Str s -> value = Undefined -> strict = true ->
                 ownOfString s (propertyKey (keyAt path (length path - 1))) = false) :
  set model strict path value h
  = (h1,
     match p with
     | Undefined | Null => Threw TypeError
     | _ => match value with
            | Undefined => Returned tt
            | _ => if strict then Threw TypeError else Returned tt
            end
     end).
Proof.
  unfold set, getAssignableObject. rewrite Hensure.
  fold (dropLast path). rewrite Hparent. unfold applySetter.
  destruct p; try reflexivity; try (destruct value; reflexivity).
  destruct Hprimitive.
Qed.

Lemma Forall_deleteKey {V} (P : string * V -> Prop) (o : list (string * V)) (k : string) :
  Forall P o -> Forall P (deleteKey o k).
Proof.
  induction 1 as [|[k' v] o Hx Ho IH]; simpl; [constructor|].
  destruct (String.eqb k' k); [exact Ho | now constructor].
Qed.

Lemma wf_heap_update (h : heap) (l : nat) (o : object) :
  wf_heap model h ->
  Forall (fun kv => valid h (snd kv)) (properties o) ->
  wf_heap model (update h l o).
Proof.
  intros [Hmodel Hall] Ho.
  assert (Hvalid : forall v, valid h v -> valid (update h l o) v)
    by (intros v; apply valid_mono; rewrite length_update; lia).
  split; [now apply Hvalid|].
  apply Forall_update.
  - eapply List.Forall_impl; [|exact Hall]. intros o' Ho'.
    eapply List.Forall_impl; [|exact Ho']. intros kv. apply Hvalid.
  - eapply List.Forall_impl; [|exact Ho]. intros kv. apply Hvalid.
Qed.

(** X16.  [set] keeps the store well formed: starting from a model whose
  references all lead to containers of the store, and given a value that is
  a primitive or such a reference, it leaves a model of the same kind,
  whether it returns or throws; and it removes no container. *)
Theorem set_keeps_store_wellformed
    (path : list key) (value : val) (h h' : heap) (out : outcome unit)
    (Hwf : wf_heap model h)
    (Hvalue : valid h value)
    (Hset : set model strict path value h = (h', out)) :
  wf_heap model h' /\ (length h <= length h')%nat.
Proof.
  unfold set in Hset.
  destruct (ensurePath model strict path h) as [h1 [[]|e]] eqn:Hensure.
  2: { injection Hset as <- <-.
       destruct (ensurePath_grows _ _ _ _ _ _ Hwf Hensure) as ([Hle _] & Hwf1 & _).
       now split. }
  destruct (ensurePath_grows _ _ _ _ _ _ Hwf Hensure) as ([Hle _] & Hwf1 & _).
  assert (Hvalue1 : valid h1 value) by (eapply valid_mono; eassumption).
  destruct (getAssignableObject model h1 path (length path - 1)) as [object_|e];
    [|injection Hset as <- <-; now split].
  unfold applySetter in Hset.
  destruct object_ as [| | | | |l];
    try (injection Hset as <- <-; now split);
    try (destruct value; injection Hset as <- <-; now split).
  destruct (nth_error h1 l) as [o|] eqn:Hobject; [|injection Hset as <- <-; now split].
  injection Hset as <- <-. rewrite length_update. split; [|exact Hle].
  apply wf_heap_update; [exact Hwf1|].
  assert (Ho : Forall (fun kv => valid h1 (snd kv)) (properties o)).
  { destruct Hwf1 as [_ Hall]. rewrite List.Forall_forall in Hall.
    apply Hall. eapply nth_error_In; eassumption. }
  destruct value; simpl;
    try (apply JsObjectFacts.Forall_set; [exact Ho | exact Hvalue1]).
  now apply Forall_deleteKey.
Qed.
End Store.

Lemma ensurePath_leaves_existing_path_witness :
  let h := [{| isArray := false; properties := [("a", Ref 1)] |};
            {| isArray := false; properties := [("b", Num 1); ("c", Num 2)] |}] in
  ensurePath (Ref 0) false [KStr "a"; KStr "b"; KStr "z"] h = (h, Returned tt).
Proof.
  intros h. apply ensurePath_leaves_existing_path.
  intros n Hn. simpl in Hn.
  assert (Hcases : n = 1%nat \/ n = 2%nat) by lia.
  destruct Hcases as [-> | ->]; eexists; split; reflexivity.
Defined.

Lemma ensurePath_fills_falsy_slot_witness :
  ensurePath (Ref 0) false [KStr "a"; KStr "b"; KNum 0]
    [{| isArray := false; properties := [("a", Ref 1)] |};
     {| isArray := false; properties := [("b", Num 0)] |}]
  = ([{| isArray := false; properties := [("a", Ref 1)] |};
      {| isArray := false; properties := [("b", Ref 2)] |};
      {| isArray := true; properties := [] |}],
     Returned tt).
Proof.
  apply (ensurePath_fills_falsy_slot (Ref 0) false [KStr "a"; KStr "b"; KNum 0]
           [{| isArray := false; properties := [("a", Ref 1)] |};
            {| isArray := false; properties := [("b", Num 0)] |}]
           1 {| isArray := false; properties := [("b", Num 0)] |} (Num 0)).
  - simpl. lia.
  - reflexivity.
  - intros n Hn. simpl in Hn. assert (n = 1%nat) as -> by lia.
    eexists. split; reflexivity.
  - reflexivity.
  - reflexivity.
  - reflexivity.
  - reflexivity.
Defined.


Lemma set_undefined_deletes_witness :
  let h := [{| isArray := false; properties := [("a", Ref 1)] |};
            {| isArray := false; properties := [("b", Num 1); ("c", Num 2)] |}] in
  let h2 := [{| isArray := false; properties := [("a", Ref 1)] |};
             {| isArray := false; properties := [("c", Num 2)] |}] in
  set (Ref 0) false [KStr "a"; KStr "b"] Undefined h = (h2, Returned tt)
  /\ reduceGet h2 (Ref 0) [KStr "a"; KStr "b"] = Returned Undefined.
Proof.
  intros h h2.
  destruct (set_undefined_deletes (Ref 0) false [KStr "a"; KStr "b"] h h
              1 {| isArray := false; properties := [("b", Num 1); ("c", Num 2)] |})
    as (Hset & _ & Hread & _).
  - discriminate.
  - reflexivity.
  - reflexivity.
  - reflexivity.
  - reflexivity.
  - simpl. constructor; [intros [E|[]]; discriminate E|].
    constructor; [intros []|constructor].
  - simpl. intros [E|[]]. discriminate E.
  - split; [exact Hset | exact Hread].
Defined.

Lemma set_on_primitive_witness :
  let h := [{| isArray := false; properties := [("a", Ref 1)] |};
            {| isArray := false; properties := [("b", Num 1); ("c", Num 2)] |}] in
  set (Ref 0) true [KStr "a"; KStr "b"; KStr "z"] (Num 3) h = (h, Threw TypeError)
  /\ set (Ref 0) false [KStr "a"; KStr "b"; KStr "z"] (Num 3) h = (h, Returned tt).
Proof.
  intros h. split.
  - exact (set_on_primitive (Ref 0) true [KStr "a"; KStr "b"; KStr "z"] (Num 3) h h (Num 1)
             eq_refl eq_refl eq_refl I eq_refl ltac:(discriminate)).
  - exact (set_on_primitive (Ref 0) false [KStr "a"; KStr "b"; KStr "z"] (Num 3) h h (Num 1)
             eq_refl eq_refl eq_refl I eq_refl ltac:(discriminate)).
Defined.

Lemma set_keeps_store_wellformed_witness :
  wf_heap (Ref 0)
    [{| isArray := false; properties := [("x", Ref 1)] |};
     {| isArray := true; properties := [("0", Str "v")] |}].
Proof.
  assert (Hwf : wf_heap (Ref 0) [{| isArray := false; properties := [("x", Num 0)] |}]).
  { split; [simpl; lia|]. repeat constructor. }
  exact (proj1 (set_keeps_store_wellformed (Ref 0) false [KStr "x"; KNum 0] (Str "v")
                  [{| isArray := false; properties := [("x", Num 0)] |}] _ _ Hwf I eq_refl)).
Defined.
End StoreFacts.

(** ** Batches and listeners *)

Module BatchFacts.
Import Runtime Instance InstanceFacts.

Section Machine.
Context {func : Type}.
Variable applyFunc : func -> list val -> heap -> heap * outcome unit.

Local Abbreviation calls := (Instance.calls func applyFunc).
Local Abbreviation applyAll := (Instance.applyAll func applyFunc).
Local Abbreviation runBody := (Instance.runBody func applyFunc).
Local Abbreviation runAction := (Instance.runAction func applyFunc).
Local Abbreviation endBatchBody := (Instance.endBatchBody func applyFunc).

(** Calls of setters made while a batch is open or a recalculation is under
  way are queued, in order, and that is all. *)
Lemma callSetters_queued
    (self : Calls func) (cs : list (pending func)) (s : instance func) :
  inBatch s || inRecalculate s = true ->
  runBody self (callSetters cs) s
  = ({| store := store s; inBatch := inBatch s; inRecalculate := inRecalculate s;
        batchPending := batchPending s ++ cs; batchingStrategy := batchingStrategy s;
        listeners := listeners s; log := log s ++ map Enqueued cs |},
     Ok tt).
Proof.
  revert s. induction cs as [|c cs IH]; intros s Hflags.
  - simpl. destruct s; simpl. now rewrite !app_nil_r.
  - destruct c as [f args]. simpl. unfold andThen at 1. unfold Instance.setter.
    rewrite Hflags. simpl.
    replace (negb (inBatch s) && negb (inRecalculate s)) with false
      by (destruct (inBatch s), (inRecalculate s); simpl in *; congruence).
    unfold callSetters in IH. rewrite IH by exact Hflags. simpl.
    now rewrite <- !app_assoc.
Qed.

(** X17.  While a batch is open or a recalculation is under way, calling setters
  only queues the calls, in the order they are made: the model is not
  touched, nothing is recomputed and no batching strategy is invoked. *)
Theorem setters_in_batch_only_queue
    (self : Calls func) (cs : list (pending func)) (s : instance func)
    (Hflags : inBatch s || inRecalculate s = true) :
  runBody self (callSetters cs) s
  = ({| store := store s; inBatch := inBatch s; inRecalculate := inRecalculate s;
        batchPending := batchPending s ++ cs; batchingStrategy := batchingStrategy s;
        listeners := listeners s; log := log s ++ map Enqueued cs |},
     Ok tt).
Proof.
  revert s Hflags. induction cs as [|c cs IH]; intros s Hflags.
  - simpl. destruct s; simpl. now rewrite !app_nil_r.
  - destruct c as [f args]. simpl. unfold andThen at 1. unfold Instance.setter.
    rewrite Hflags. simpl.
    replace (negb (inBatch s) && negb (inRecalculate s)) with false
      by (destruct (inBatch s), (inRecalculate s); simpl in *; congruence).
    unfold callSetters in IH. rewrite IH by exact Hflags. simpl.
    now rewrite <- !app_assoc.
Qed.

(** X18.  A recalculation outside a batch recomputes once and then calls every
  listener of the [Set] once, in the order the listeners were added.  With
  listeners that call nothing of the instance and an empty queue, that is
  all it does; and inside a batch [recalculate] does nothing at all. *)
Theorem recalculate_notifies_listeners_in_order (fuel : nat) (s : instance func) :
  (inBatch s = true -> recalculate func (calls (S fuel)) s = (s, Ok tt))
  /\ (inBatch s = false -> batchPending s = [] ->
      passive (listeners s) ->
      (length (listeners s) + 1 < fuel)%nat ->
      recalculate func (calls fuel) s
      = ({| store := store s; inBatch := false; inRecalculate := false;
            batchPending := []; batchingStrategy := batchingStrategy s;
            listeners := listeners s;
            log := log s ++ Recomputed :: map Notified (liveIds (listeners s)) |},
         Ok tt)).
Proof.
  split.
  - intros Hbatch. simpl. unfold Instance.recalculateBody. now rewrite Hbatch.
  - intros Hbatch Hqueue Hpassive Hfuel.
    destruct fuel as [|fuel]; [lia|].
    simpl. unfold Instance.recalculateBody. rewrite Hbatch.
    rewrite notifyFrom_passive; [|exact Hpassive | simpl; lia].
    simpl. rewrite Hqueue, Hbatch. now rewrite <- app_assoc.
Qed.

(** X19.  [$runInBatch] around user code that calls setters: the calls are queued
  while the code runs, then applied in the order they were made, and the
  model is recomputed once, after the last of them; the listeners (here
  listeners that call nothing of the instance) are notified once each.
  Around code that calls no setter, [$runInBatch] recomputes nothing. *)
Theorem runInBatch_applies_in_order_and_recomputes_once
    (fuel : nat) (cs : list (pending func)) (s s' : instance func)
    (Hidle : inRecalculate s = false)
    (Hqueue : batchPending s = [])
    (Hpassive : passive (listeners s))
    (Hfuel : (length (listeners s) + 3 < fuel)%nat)
    (Hcalls : cs <> [])
    (Happly : applyAll cs
                {| store := store s; inBatch := false; inRecalculate := false;
                   batchPending := cs; batchingStrategy := batchingStrategy s;
                   listeners := listeners s; log := log s ++ map Enqueued cs |}
              = (s', Ok tt)) :
  runAction (calls fuel) (RunInBatch (callSetters cs)) s
  = ({| store := store s'; inBatch := false; inRecalculate := false;
        batchPending := []; batchingStrategy := batchingStrategy s;
        listeners := listeners s;
        log := log s ++ map Enqueued cs ++ map Applied cs
               ++ Recomputed :: map Notified (liveIds (listeners s)) |},
     Ok tt)
  /\ runAction (calls fuel) (RunInBatch []) s = (setInBatch false s, Ok tt).
Proof.
  destruct fuel as [|fuel]; [lia|]. split.
  - cbn [Instance.runAction]. unfold andThen at 1. unfold andThen at 1.
    cbn [Instance.calls run].
    rewrite callSetters_queued by reflexivity.
    cbn [endBatch Instance.calls]. unfold Instance.endBatchBody.
    cbn [setInBatch store inBatch inRecalculate batchPending batchingStrategy
         listeners log].
    rewrite Hqueue, Hidle. cbn [app].
    destruct cs as [|c cs']; [contradiction|].
    unfold setInBatch.
    cbn [store inBatch inRecalculate batchPending batchingStrategy listeners log].
    rewrite Happly. rewrite (applyAll_Ok _ _ _ _ Happly).
    pose proof (recalculate_passive applyFunc fuel
                         (setBatchPending []
                            {| store := store s'; inBatch := false; inRecalculate := false;
                               batchPending := c :: cs';
                               batchingStrategy := batchingStrategy s;
                               listeners := listeners s;
                               log := (log s ++ map Enqueued (c :: cs'))
                                      ++ map Applied (c :: cs') |})) as Hrecalc.
    cbn [setBatchPending store inBatch inRecalculate batchPending batchingStrategy
         listeners log] in Hrecalc |- *.
    rewrite Hrecalc; [|reflexivity | reflexivity | exact Hpassive | lia].
    now rewrite <- !app_assoc.
  - cbn [Instance.runAction]. unfold andThen at 1. unfold andThen at 1.
    destruct fuel as [|fuel]; [lia|].
    cbn [Instance.calls run Instance.runBody endBatch].
    unfold Instance.endBatchBody. cbn [setInBatch batchPending].
    rewrite Hqueue. reflexivity.
Qed.

Lemma applyAll_Throw (q : list (pending func)) (s s' : instance func) (e : error) :
  applyAll q s = (s', Throw e) ->
  inBatch s' = inBatch s /\ batchPending s' = batchPending s
  /\ exists done c rest,
       q = done ++ c :: rest /\ log s' = log s ++ map Applied done.
Proof.
  revert s. induction q as [|c q IH]; intros s; simpl; [discriminate|].
  unfold andThen, applyCall.
  destruct (applyFunc (pending_func func c) (pending_args func c) (store s))
    as [h [[]|e']].
  - intros Hrun. apply IH in Hrun as (Hb & Hq & done & c' & rest & -> & Hlog).
    simpl in *. split; [exact Hb|]. split; [exact Hq|].
    exists (c :: done), c', rest. split; [reflexivity|].
    rewrite Hlog. simpl. now rewrite <- app_assoc.
  - intros [= <- <-]. simpl. split; [reflexivity|]. split; [reflexivity|].
    exists [], c, q. split; [reflexivity|]. simpl. now rewrite app_nil_r.
Qed.

(** X20.  When a queued call throws, [$endBatch] throws with it and leaves the
  whole queue in place, the calls it has already applied included: nothing
  is recomputed, [inBatch] is cleared, and the next [$endBatch] will apply
  those calls again. *)
Theorem endBatch_failed_setter_keeps_queue
    (fuel : nat) (s s' : instance func) (e : error)
    (Hthrow : applyAll (batchPending s) (setInBatch false s) = (s', Throw e)) :
  endBatchBody (calls fuel) s = (s', Throw e)
  /\ inBatch s' = false
  /\ batchPending s' = batchPending s
  /\ exists done c rest,
       batchPending s = done ++ c :: rest
       /\ log s' = log s ++ map Applied done.
Proof.
  split.
  - unfold Instance.endBatchBody. cbn [setInBatch batchPending].
    destruct (batchPending s) as [|c q] eqn:Hq; [discriminate|].
    now rewrite Hthrow.
  - apply applyAll_Throw in Hthrow as (Hb & Hq & Hdone). auto.
Qed.
End Machine.

Import SampleInstance.

Lemma setters_in_batch_only_queue_witness :
  exec 1 (callSetters [callA (Num 1); callB (Num 2)]) (setInBatch true fresh)
  = ({| store := [{| isArray := false; properties := [] |}];
        inBatch := true; inRecalculate := false;
        batchPending := [callA (Num 1); callB (Num 2)];
        batchingStrategy := None; listeners := [];
        log := [Enqueued (callA (Num 1)); Enqueued (callB (Num 2))] |},
     Ok tt).
Proof.
  exact (setters_in_batch_only_queue applyFunc (Instance.calls func applyFunc 1)
           [callA (Num 1); callB (Num 2)] (setInBatch true fresh) eq_refl).
Defined.

Lemma recalculate_notifies_listeners_in_order_witness :
  let s := {| store := [{| isArray := false; properties := [] |}];
              inBatch := false; inRecalculate := false;
              batchPending := []; batchingStrategy := None;
              listeners := [Some (7%nat, []); None; Some (9%nat, [])];
              log := [] |} in
  recalculate func (Instance.calls func applyFunc 5) s
  = ({| store := [{| isArray := false; properties := [] |}];
        inBatch := false; inRecalculate := false;
        batchPending := []; batchingStrategy := None;
        listeners := [Some (7%nat, []); None; Some (9%nat, [])];
        log := [Recomputed; Notified 7; Notified 9] |},
     Ok tt).
Proof.
  intros s.
  apply (proj2 (recalculate_notifies_listeners_in_order applyFunc 5 s)).
  - reflexivity.
  - reflexivity.
  - repeat constructor.
  - simpl. lia.
Defined.

Lemma runInBatch_applies_in_order_and_recomputes_once_witness :
  exec 5 [RunInBatch (callSetters [callA (Num 1); callB (Num 2)])] fresh
  = ({| store := [{| isArray := false; properties := [("a", Num 1); ("b", Num 2)] |}];
        inBatch := false; inRecalculate := false;
        batchPending := []; batchingStrategy := None; listeners := [];
        log := [Enqueued (callA (Num 1)); Enqueued (callB (Num 2));
                Applied (callA (Num 1)); Applied (callB (Num 2)); Recomputed] |},
     Ok tt).
Proof.
  unfold exec. cbn [Instance.runBody]. unfold andThen at 1.
  rewrite (proj1 (runInBatch_applies_in_order_and_recomputes_once applyFunc 5
                    [callA (Num 1); callB (Num 2)] fresh
                    {| store := [{| isArray := false;
                                    properties := [("a", Num 1); ("b", Num 2)] |}];
                       inBatch := false; inRecalculate := false;
                       batchPending := [callA (Num 1); callB (Num 2)];
                       batchingStrategy := None; listeners := [];
                       log := [Enqueued (callA (Num 1)); Enqueued (callB (Num 2));
                               Applied (callA (Num 1)); Applied (callB (Num 2))] |}
                    eq_refl eq_refl ltac:(constructor) ltac:(simpl; lia)
                    ltac:(discriminate) eq_refl)).
  reflexivity.
Defined.

Lemma endBatch_failed_setter_keeps_queue_witness :
  let broken := {| pending_func := [KStr "a"; KStr "b"; KStr "c"];
                   pending_args := [Num 1] |} in
  let s := {| store := [{| isArray := false; properties := [] |}];
              inBatch := true; inRecalculate := false;
              batchPending := [callA (Num 5); broken; callB (Num 2)];
              batchingStrategy := None; listeners := []; log := [] |} in
Instance.endBatchBody func applyFunc (Instance.calls func applyFunc 5) s
  = ({| store := [{| isArray := false; properties := [("a", Num 5)] |}];
        inBatch := false; inRecalculate := false;
        batchPending := [callA (Num 5); broken; callB (Num 2)];
        batchingStrategy := None; listeners := [];
        log := [Applied (callA (Num 5))] |},
     Throw TypeError).
Proof.
  intros broken s.
  exact (proj1 (endBatch_failed_setter_keeps_queue applyFunc 5 s _ TypeError eq_refl)).
Defined.
End BatchFacts.

(** ** The library of collection functions *)

Module CollectionsFacts.
Import Collections.

Lemma own_fields (fields : list (string * data)) :
  List.NoDup (JsObject.keys fields) ->
  map (fun key => (key, read fields key)) (JsObject.keys fields) = fields.
Proof.
  induction fields as [|[k v] fields IH]; simpl; [reflexivity|].
  intros Hnd. apply NoDup_cons_iff in Hnd as [Hk Hnd].
  unfold read at 1. simpl. rewrite String.eqb_refl. f_equal.
  rewrite <- (IH Hnd) at 2. apply map_ext_in. intros k' Hin.
  unfold read. simpl.
  destruct (String.eqb_spec k k') as [->|_]; [contradiction | reflexivity].
Qed.

Lemma ownProperties_object (fields : list (string * data)) :
  List.NoDup (JsObject.keys fields) -> ownProperties (DObj fields) = Returned fields.
Proof. intros Hnd. simpl. now rewrite own_fields. Qed.

Lemma keys_append {V} (o more : list (string * V)) :
  JsObject.keys (o ++ more) = JsObject.keys o ++ JsObject.keys more.
Proof. unfold JsObject.keys. apply map_app. Qed.


(** *** Assignments to an object under construction *)

(** Under any name but [__proto__] an assignment creates or updates an own
  property. *)
Lemma assignProperty_plain (acc : building) (name : string) (v : data) :
  plainName name = true ->
  assignProperty acc name v
  = {| own := JsObject.set (own acc) name v; proto := proto acc |}.
Proof. intros Hname. unfold assignProperty. fold (plainName name). now rewrite Hname. Qed.

Lemma fold_assign_plain (writes : list (string * data)) (acc : building) :
  forallb (fun kv => plainName (fst kv)) writes = true ->
  fold_left (fun a kv => assignProperty a (fst kv) (snd kv)) writes acc
  = {| own := fold_left (fun o kv => JsObject.set o (fst kv) (snd kv)) writes (own acc);
       proto := proto acc |}.
Proof.
  revert acc. induction writes as [|[k v] writes IH]; intros acc Hplain; simpl.
  - now destruct acc.
  - simpl in Hplain. apply andb_true_iff in Hplain as [Hk Hrest].
    rewrite assignProperty_plain by exact Hk. now rewrite IH.
Qed.


Section Callback.
Variable func : callback.
Variable context : data.
(** What the user function returns for the property [k] holding [v]. *)
Variable g : string -> data -> data.









(** *** [groupBy] *)

(** [acc[group][k]] on the accumulator of [groupBy] *)
Lemma get_groups (acc : list (string * building)) (group : string) :
  JsObject.get (map (fun g => (fst g, DObj (own (snd g)))) acc) group
  = option_map (fun b => DObj (own b)) (JsObject.get acc group).
Proof.
  induction acc as [|[group' fields] acc IH]; simpl; [reflexivity|].
  destruct (String.eqb group' group); [reflexivity | exact IH].
Qed.

(** One step of [groupBy], within the model. *)
Lemma groupStep_files (acc : list (string * building)) (k v r : _) :
  func v (DStr k) context = Returned r ->
  plainName k = true ->
  existsb (String.eqb (toString r)) Runtime.objectPrototype = false ->
  groupStep func context acc (k, v)
  = Some (Returned
            (JsObject.set acc (toString r)
               (let group := match JsObject.get acc (toString r) with
                             | Some fields => fields
                             | None => empty
                             end in
                {| own := JsObject.set (own group) k v; proto := proto group |}))).
Proof.
  intros Hfunc Hk Hr. unfold groupStep. cbn [fst snd]. rewrite Hfunc. cbv zeta.
  destruct (JsObject.get acc (toString r)) as [group|].
  - now rewrite assignProperty_plain by exact Hk.
  - rewrite Hr. now rewrite assignProperty_plain by exact Hk.
Qed.

Lemma reduce_groupBy (props done : list (string * data))
    (acc : list (string * building)) :
  List.NoDup (JsObject.keys (done ++ props)) ->
  (forall k v, In (k, v) props -> func v (DStr k) context = Returned (g k v)) ->
  (forall k v, In (k, v) props ->
     plainName k = true
     /\ existsb (String.eqb (toString (g k v))) Runtime.objectPrototype = false) ->
  (forall group k v,
      match JsObject.get acc group with
      | Some fields => JsObject.get (own fields) k
      | None => None
      end = Some v
      <-> In (k, v) done /\ toString (g k v) = group) ->
  exists acc',
    reduceWithin (groupStep func context) props acc = Some (Returned acc')
    /\ forall group k v,
         match JsObject.get acc' group with
         | Some fields => JsObject.get (own fields) k
         | None => None
         end = Some v
         <-> In (k, v) (done ++ props) /\ toString (g k v) = group.
Proof.
  revert done acc.
  induction props as [|[k0 v0] props IH]; intros done acc Hnd Hfunc Hplain Hinv.
  - exists acc. split; [reflexivity|]. now rewrite app_nil_r.
  - destruct (Hplain k0 v0 ltac:(now left)) as [Hk0 Hg0].
    set (g0 := toString (g k0 v0)) in *.
    set (group0 := match JsObject.get acc g0 with Some fields => fields | None => empty end).
    cbn [reduceWithin].
    rewrite (groupStep_files acc k0 v0 (g k0 v0)
               (Hfunc k0 v0 ltac:(now left)) Hk0 Hg0).
    fold g0. fold group0.
    destruct (IH (done ++ [(k0, v0)])
                (JsObject.set acc g0
                   {| own := JsObject.set (own group0) k0 v0; proto := proto group0 |}))
      as (acc' & Hrun & Hinv').
    + now rewrite <- app_assoc.
    + intros k v Hin. apply Hfunc. now right.
    + intros k v Hin. apply Hplain. now right.
    + intros group k v.
      assert (Hlook : match JsObject.get
                              (JsObject.set acc g0
                                 {| own := JsObject.set (own group0) k0 v0;
                                    proto := proto group0 |}) group with
                      | Some fields => JsObject.get (own fields) k
                      | None => None
                      end
                      = if String.eqb g0 group && String.eqb k0 k then Some v0
                        else match JsObject.get acc group with
                             | Some fields => JsObject.get (own fields) k
                             | None => None
                             end).
      { destruct (String.eqb_spec g0 group) as [<-|Hg]; simpl.
        - rewrite JsObjectFacts.get_set_same. simpl.
          destruct (String.eqb_spec k0 k) as [<-|Hk].
          + apply JsObjectFacts.get_set_same.
          + rewrite JsObjectFacts.get_set_other by exact Hk.
            unfold group0. now destruct (JsObject.get acc g0).
        - now rewrite JsObjectFacts.get_set_other by exact Hg. }
      rewrite Hlook. clear Hlook.
      assert (Hfresh : forall v', ~ In (k0, v') done).
      { intros v' Hin. rewrite keys_append in Hnd. simpl in Hnd.
        apply NoDup_remove_2 in Hnd. apply Hnd. apply in_or_app. left.
        unfold JsObject.keys. apply in_map_iff. now exists (k0, v'). }
      destruct (String.eqb_spec g0 group) as [<-|Hg]; simpl.
      * destruct (String.eqb_spec k0 k) as [<-|Hk].
        -- split.
           ++ intros [= <-]. split; [apply in_or_app; right; now left | reflexivity].
           ++ intros [Hin _]. apply in_app_or in Hin as [Hin|[[= <-]|[]]];
                [now destruct (Hfresh v) | reflexivity].
        -- rewrite Hinv. split.
           ++ intros [Hin Hgrp]. split; [apply in_or_app; now left | exact Hgrp].
           ++ intros [Hin Hgrp]. apply in_app_or in Hin as [Hin|[[= <- <-]|[]]];
                [now split | contradiction].
      * rewrite Hinv. split.
        -- intros [Hin Hgrp]. split; [apply in_or_app; now left | exact Hgrp].
        -- intros [Hin Hgrp]. apply in_app_or in Hin as [Hin|[[= <- <-]|[]]];
             [now split | contradiction].
    + exists acc'. split; [exact Hrun|]. intros group k v.
      rewrite Hinv'. now rewrite <- app_assoc.
Qed.

(** X24.  [groupBy] refuses an array.  On an object whose keys are not
  [__proto__], with a user function that names no group after a member of
  [Object.prototype], it files every property, with its key and its value,
  in the group named by what the user function returned for it, and in no
  other group: the groups partition the properties of the source. *)
Theorem groupBy_files_each_property (fields : list (string * data))
    (Hkeys : List.NoDup (JsObject.keys fields))
    (Hfunc : forall k v, In (k, v) fields ->
                         func v (DStr k) context = Returned (g k v))
    (Hplain : forall k v, In (k, v) fields -> plainName k = true)
    (Hprintable : forall k v, In (k, v) fields -> printable (g k v) = true)
    (Hgroups : forall k v, In (k, v) fields ->
                 existsb (String.eqb (toString (g k v))) Runtime.objectPrototype = false) :
  (forall items,
      groupBy func (DArr items) context
      = Some (Threw (JsError "groupBy only works on objects")))
  /\ exists result,
       groupBy func (DObj fields) context = Some (Returned result)
       /\ forall group k v,
            member result group k = Some v
            <-> In (k, v) fields /\ toString (g k v) = group.
Proof.
  split; [reflexivity|].
  unfold groupBy. rewrite ownProperties_object by exact Hkeys.
  destruct (reduce_groupBy fields [] []) as (acc & Hrun & Hinv);
    [exact Hkeys | exact Hfunc | | |].
  - intros k v Hin. split; [eapply Hplain | eapply Hgroups]; exact Hin.
  - intros group k v. simpl. split; [discriminate | intros [[] _]].
  - rewrite Hrun. eexists. split; [reflexivity|].
    intros group k v. rewrite <- Hinv. unfold member. rewrite get_groups.
    now destruct (JsObject.get acc group).
Qed.

(** *** [mapKeys] and [keyBy]: the last write wins *)

Lemma get_app_or {V} (a b : list (string * V)) (k : string) :
  JsObject.get (a ++ b) k
  = match JsObject.get a k with Some v => Some v | None => JsObject.get b k end.
Proof.
  induction a as [|[k' v'] a IH]; simpl; [reflexivity|].
  destruct (String.eqb k' k); [reflexivity | exact IH].
Qed.

Lemma get_set {V} (o : list (string * V)) (k k' : string) (v : V) :
  JsObject.get (JsObject.set o k v) k'
  = if String.eqb k k' then Some v else JsObject.get o k'.
Proof.
  destruct (String.eqb_spec k k') as [<-|Hne].
  - apply JsObjectFacts.get_set_same.
  - now apply JsObjectFacts.get_set_other.
Qed.

Lemma fold_set_get {V} (writes acc : list (string * V)) (k : string) :
  JsObject.get (fold_left (fun a kv => JsObject.set a (fst kv) (snd kv)) writes acc) k
  = match JsObject.get (rev writes) k with
    | Some v => Some v
    | None => JsObject.get acc k
    end.
Proof.
  revert acc. induction writes as [|[k' v'] writes IH]; intros acc; simpl; [reflexivity|].
  rewrite IH, get_app_or, get_set. simpl.
  destruct (JsObject.get (rev writes) k); [reflexivity|].
  now destruct (String.eqb k' k).
Qed.

(** The value found under [k] after a series of writes is that of the last
  write to [k]. *)
Lemma get_rev_last {V} (writes : list (string * V)) (k : string) (v : V) :
  JsObject.get (rev writes) k = Some v
  <-> exists i, nth_error writes i = Some (k, v)
                /\ forall j x, (i < j)%nat -> nth_error writes j = Some x -> fst x <> k.
Proof.
  induction writes as [|[k' v'] writes IH] using rev_ind; [simpl|].
  - split; [discriminate | intros ([|i] & Hi & _); discriminate].
  - rewrite rev_app_distr. simpl.
    destruct (String.eqb_spec k' k) as [->|Hne].
    + split.
      * intros [= ->]. exists (length writes). split.
        -- rewrite nth_error_app2 by lia. now rewrite Nat.sub_diag.
        -- intros j x Hj Hx. exfalso.
           assert (nth_error (writes ++ [(k, v)]) j <> None) by congruence.
           apply nth_error_Some in H. rewrite length_app in H. simpl in H. lia.
      * intros (i & Hi & Hlast).
        destruct (Nat.lt_ge_cases i (length writes)) as [Hlt|Hge].
        -- exfalso. apply (Hlast (length writes) (k, v') Hlt); [|reflexivity].
           rewrite nth_error_app2 by lia. now rewrite Nat.sub_diag.
        -- assert (i = length writes) as ->.
           { assert (nth_error (writes ++ [(k, v')]) i <> None) by congruence.
             apply nth_error_Some in H. rewrite length_app in H. simpl in H. lia. }
           rewrite nth_error_app2 in Hi by lia. rewrite Nat.sub_diag in Hi.
           now injection Hi as ->.
    + rewrite IH. split.
      * intros (i & Hi & Hlast).
        assert (Hlt : (i < length writes)%nat) by (apply nth_error_Some; congruence).
        exists i. split; [now rewrite nth_error_app1|].
        intros j x Hj Hx.
        destruct (Nat.lt_ge_cases j (length writes)) as [Hjl|Hjg].
        -- rewrite nth_error_app1 in Hx by exact Hjl. eapply Hlast; eassumption.
        -- rewrite nth_error_app2 in Hx by exact Hjg.
           destruct (j - length writes)%nat as [|n]; simpl in Hx.
           ++ now injection Hx as <-.
           ++ now destruct n.
      * intros (i & Hi & Hlast).
        assert (Hlt : (i < length writes)%nat).
        { destruct (Nat.lt_ge_cases i (length writes)) as [Hlt|Hge]; [exact Hlt|].
          rewrite nth_error_app2 in Hi by exact Hge.
          destruct (i - length writes)%nat as [|n]; simpl in Hi.
          - injection Hi as -> _. contradiction.
          - now destruct n. }
        rewrite nth_error_app1 in Hi by exact Hlt.
        exists i. split; [exact Hi|].
        intros j x Hj Hx. apply (Hlast j x Hj).
        rewrite nth_error_app1; [exact Hx|]. apply nth_error_Some. congruence.
Qed.

Lemma reduce_writes {A} (name : A -> data -> data) (key : A -> data) (entries : list (A * data))
    (acc : building) :
  (forall a v, In (a, v) entries -> func v (key a) context = Returned (name a v)) ->
  reduce (fun acc av =>
            match func (snd av) (key (fst av)) context with
            | Returned r => Returned (assignProperty acc (toString r) (snd av))
            | Threw e => Threw e
            end) entries acc
  = Returned (fold_left (fun a kv => assignProperty a (fst kv) (snd kv))
                (map (fun av => (toString (name (fst av) (snd av)), snd av)) entries) acc).
Proof.
  revert acc. induction entries as [|[a v] entries IH]; intros acc Hfunc; simpl.
  - reflexivity.
  - rewrite (Hfunc a v) by now left. apply IH.
    intros a' v' Hin. apply Hfunc. now right.
Qed.

Lemma forallb_writes {A} (name : A -> data -> data) (entries : list (A * data)) :
  (forall a v, In (a, v) entries -> plainName (toString (name a v)) = true) ->
  forallb (fun kv : string * data => plainName (fst kv))
    (map (fun av => (toString (name (fst av) (snd av)), snd av)) entries) = true.
Proof.
  intros Hplain. apply forallb_forall. intros [k v] Hin.
  apply in_map_iff in Hin as ([a v'] & [= <- <-] & Hin). simpl. now apply Hplain.
Qed.

(** X25.  [mapKeys] on an object, with a user function that returns no
  [__proto__]: a property of the result is a value of the source, found
  under the key the user function returned for it; when the function
  returns the same key for several properties, the last of them, in the
  order of the keys of the source, is the one that stays. *)
Theorem mapKeys_last_property_wins (fields : list (string * data))
    (Hkeys : List.NoDup (JsObject.keys fields))
    (Hfunc : forall k v, In (k, v) fields ->
                         func v (DStr k) context = Returned (g k v))
    (Hprintable : forall k v, In (k, v) fields -> printable (g k v) = true)
    (Hplain : forall k v, In (k, v) fields -> plainName (toString (g k v)) = true) :
  exists result,
    mapKeys func (DObj fields) context = Returned result
    /\ forall newKey v,
         property result newKey = Some v
         <-> exists i k,
               nth_error fields i = Some (k, v)
               /\ toString (g k v) = newKey
               /\ forall j k' v', (i < j)%nat -> nth_error fields j = Some (k', v') ->
                                  toString (g k' v') <> newKey.
Proof.
  unfold mapKeys. rewrite ownProperties_object by exact Hkeys.
  rewrite (reduce_writes g DStr) by exact Hfunc.
  rewrite fold_assign_plain by (apply forallb_writes; exact Hplain).
  eexists. split; [reflexivity|]. intros newKey v. simpl.
  rewrite fold_set_get. simpl.
  set (writes := map (fun av => (toString (g (fst av) (snd av)), snd av)) fields).
  transitivity (JsObject.get (rev writes) newKey = Some v);
    [now destruct (JsObject.get (rev writes) newKey)|].
  rewrite get_rev_last. unfold writes. split.
  - intros (i & Hi & Hlast). rewrite nth_error_map in Hi.
    destruct (nth_error fields i) as [[k v1]|] eqn:Hnth; [|discriminate].
    simpl in Hi. injection Hi as Hk ->. exists i, k. split; [exact Hnth|].
    split; [exact Hk|]. intros j k' v' Hj Hnj.
    apply (Hlast j (toString (g k' v'), v') Hj). rewrite nth_error_map. now rewrite Hnj.
  - intros (i & k & Hi & Hk & Hlast). exists i. split.
    + rewrite nth_error_map, Hi. simpl. now rewrite Hk.
    + intros j x Hj Hx. rewrite nth_error_map in Hx.
      destruct (nth_error fields j) as [[k' v']|] eqn:Hnj; [|discriminate].
      injection Hx as <-. simpl. eapply Hlast; eassumption.
Qed.
End Callback.

Section KeyBy.
Variable func : callback.
Variable context : data.
(** What the user function returns for the element [v] at the index [i]. *)
Variable g : nat -> data -> data.

(** The elements [reduce] goes through, in order: those of the indices that
  are not holes. *)
Lemma In_elementsFrom (items : list (option data)) (start i : nat) (v : data) :
  In (i, v) (elementsFrom start items)
  <-> (start <= i)%nat /\ nth_error items (i - start) = Some (Some v).
Proof.
  revert start. induction items as [|[x|] items IH]; intros start; simpl.
  - split; [intros [] | intros [_ H]; now destruct (i - start)%nat].
  - rewrite IH. split.
    + intros [[= <- <-]|[Hle Hnth]].
      * split; [lia|]. now rewrite Nat.sub_diag.
      * split; [lia|]. replace (i - start)%nat with (S (i - S start)) by lia. exact Hnth.
    + intros [Hle Hnth]. destruct (i - start)%nat as [|n] eqn:Hn.
      * left. simpl in Hnth. injection Hnth as <-. f_equal. lia.
      * right. split; [lia|]. replace (i - S start)%nat with n by lia. exact Hnth.
  - rewrite IH. split.
    + intros [Hle Hnth]. split; [lia|].
      replace (i - start)%nat with (S (i - S start)) by lia. exact Hnth.
    + intros [Hle Hnth]. destruct (i - start)%nat as [|n] eqn:Hn; [discriminate|].
      split; [lia|]. replace (i - S start)%nat with n by lia. exact Hnth.
Qed.

(** The indices go up along [elementsFrom]. *)
Lemma elementsFrom_sorted (items : list (option data)) (start : nat) :
  forall a b x y,
    (a < b)%nat ->
    nth_error (elementsFrom start items) a = Some x ->
    nth_error (elementsFrom start items) b = Some y ->
    (fst x < fst y)%nat.
Proof.
  revert start. induction items as [|[x0|] items IH]; intros start a b x y Hab Ha Hb; simpl in *.
  - now destruct a.
  - destruct b as [|b]; [lia|]. simpl in Hb.
    destruct a as [|a]; simpl in Ha.
    + injection Ha as <-. simpl.
      apply nth_error_In in Hb. destruct y as [j w].
      apply In_elementsFrom in Hb as [Hle _]. simpl. lia.
    + eapply IH; [|exact Ha | exact Hb]. lia.
  - eapply IH; eassumption.
Qed.

(** X26.  [keyBy] on an array, with a user function that returns no
  [__proto__]: a property of the result is an element of the array, found
  under the key the user function returned for it; of the elements that
  were given the same key, the last one stays.  The holes of the array are
  skipped.  On anything but an array [keyBy] throws a [TypeError]. *)
Theorem keyBy_last_element_wins (items : list (option data))
    (Hfunc : forall i v, nth_error items i = Some (Some v) ->
                         func v (DNum (Z.of_nat i)) context = Returned (g i v))
    (Hprintable : forall i v, nth_error items i = Some (Some v) -> printable (g i v) = true)
    (Hplain : forall i v, nth_error items i = Some (Some v) ->
                          plainName (toString (g i v)) = true) :
  (exists result,
      keyBy func (DArr items) context = Returned result
      /\ forall key v,
           property result key = Some v
           <-> exists i,
                 nth_error items i = Some (Some v)
                 /\ toString (g i v) = key
                 /\ forall j v', (i < j)%nat -> nth_error items j = Some (Some v') ->
                                 toString (g j v') <> key)
  /\ (forall fields, keyBy func (DObj fields) context = Threw JsTypeError)
  /\ keyBy func DNull context = Threw JsTypeError.
Proof.
  split; [|split; reflexivity].
  assert (Hin : forall i v, In (i, v) (elementsFrom 0 items)
                            <-> nth_error items i = Some (Some v)).
  { intros i v. rewrite In_elementsFrom. rewrite Nat.sub_0_r. split; [tauto|].
    intros H. split; [lia | exact H]. }
  unfold keyBy.
  rewrite (reduce_writes func context g (fun i => DNum (Z.of_nat i)))
    by (intros i v Hi; apply Hfunc; now apply Hin).
  rewrite fold_assign_plain
    by (apply forallb_writes; intros i v Hi; apply Hplain; now apply Hin).
  eexists. split; [reflexivity|]. intros key v. simpl.
  rewrite fold_set_get. simpl.
  set (entries := elementsFrom 0 items) in *.
  set (writes := map (fun av : nat * data => (toString (g (fst av) (snd av)), snd av))
                   entries).
  transitivity (JsObject.get (rev writes) key = Some v);
    [now destruct (JsObject.get (rev writes) key)|].
  rewrite get_rev_last. unfold writes. split.
  - intros (a & Ha & Hlast). rewrite nth_error_map in Ha.
    destruct (nth_error entries a) as [[i v1]|] eqn:Hnth; [|discriminate].
    simpl in Ha. injection Ha as Hk ->. exists i.
    split; [apply Hin; eapply nth_error_In; exact Hnth|].
    split; [exact Hk|]. intros j v' Hj Hnj.
    apply Hin in Hnj. apply In_nth_error in Hnj as [b Hb].
    assert (Hab : (a < b)%nat).
    { destruct (Nat.lt_ge_cases a b) as [Hlt|Hge]; [exact Hlt|]. exfalso.
      destruct (Nat.eq_dec a b) as [->|Hne].
      - rewrite Hnth in Hb. injection Hb as -> _. lia.
      - pose proof (elementsFrom_sorted items 0 b a _ _ ltac:(lia) Hb Hnth) as Hlt.
        simpl in Hlt. lia. }
    apply (Hlast b (toString (g j v'), v') Hab). rewrite nth_error_map. now rewrite Hb.
  - intros (i & Hi & Hk & Hlast).
    apply Hin in Hi. apply In_nth_error in Hi as [a Ha]. exists a. split.
    + rewrite nth_error_map, Ha. simpl. now rewrite Hk.
    + intros b x Hab Hx. rewrite nth_error_map in Hx.
      destruct (nth_error entries b) as [[j v']|] eqn:Hnb; [|discriminate].
      injection Hx as <-. simpl.
      pose proof (elementsFrom_sorted items 0 a b _ _ Hab Ha Hnb) as Hlt. simpl in Hlt.
      apply (Hlast j v' Hlt). apply Hin. eapply nth_error_In. exact Hnb.
Qed.
End KeyBy.

(** *** [assign] and [defaults] *)






(** *** [range] *)

Lemma nearestDouble_exact (z : Z) : exact z = true -> nearestDouble z = z.
Proof. intros Hz. unfold nearestDouble. now rewrite Hz. Qed.

Lemma exact_bounds (z : Z) :
  exact z = true <-> - 9007199254740992 <= z <= 9007199254740992.
Proof. unfold exact. rewrite Z.leb_le. lia. Qed.

Lemma map_seq_shift (f : nat -> Z) (n : nat) :
  map f (seq 1 n) = map (fun i => f (S i)) (seq 0 n).
Proof. rewrite <- seq_shift. now rewrite map_map. Qed.

Lemma rangeLoop_up (end_ step : Z) (n : nat) :
  0 < step -> Z.abs end_ + step <= 9007199254740992 ->
  forall val fuel,
    - 9007199254740992 <= val ->
    Z.to_nat ((end_ - val + step - 1) / step) = n ->
    (n < fuel)%nat ->
    rangeLoop fuel end_ step val = Some (map (fun i => val + Z.of_nat i * step) (seq 0 n)).
Proof.
  intros Hstep Hbound. induction n as [|n IH]; intros val fuel Hval Hn Hfuel;
    (destruct fuel as [|fuel]; [lia|]); cbn [rangeLoop].
  - assert (Hq : (end_ - val + step - 1) / step <= 0) by lia.
    assert (Hge : end_ <= val).
    { destruct (Z.le_gt_cases end_ val) as [|Hlt]; [assumption|].
      assert (1 <= (end_ - val + step - 1) / step)
        by (apply Z.div_le_lower_bound; lia).
      lia. }
    destruct (Z.ltb_spec 0 step), (Z.ltb_spec val end_), (Z.ltb_spec step 0),
      (Z.ltb_spec end_ val); simpl; try lia; reflexivity.
  - assert (Hq : 1 <= (end_ - val + step - 1) / step) by lia.
    assert (Hlt : val < end_).
    { destruct (Z.lt_ge_cases val end_) as [|Hge]; [assumption|].
      assert ((end_ - val + step - 1) / step <= 0).
      { apply Z.lt_succ_r. apply Z.div_lt_upper_bound; lia. }
      lia. }
    destruct (Z.ltb_spec 0 step); [|lia]. destruct (Z.ltb_spec val end_); [|lia]. simpl.
    rewrite nearestDouble_exact by (apply exact_bounds; lia).
    rewrite (IH (val + step)); [| lia | | lia].
    + cbn [seq map]. f_equal. f_equal; [lia|]. rewrite map_seq_shift.
      apply map_ext. intros i. lia.
    + replace (end_ - (val + step) + step - 1) with (end_ - val + step - 1 + (-1) * step)
        by lia.
      rewrite Z.div_add by lia. lia.
Qed.

Lemma rangeLoop_down (end_ step : Z) (n : nat) :
  step < 0 -> Z.abs end_ - step <= 9007199254740992 ->
  forall val fuel,
    val <= 9007199254740992 ->
    Z.to_nat ((val - end_ - step - 1) / (- step)) = n ->
    (n < fuel)%nat ->
    rangeLoop fuel end_ step val = Some (map (fun i => val + Z.of_nat i * step) (seq 0 n)).
Proof.
  intros Hstep Hbound. induction n as [|n IH]; intros val fuel Hval Hn Hfuel;
    (destruct fuel as [|fuel]; [lia|]); cbn [rangeLoop].
  - assert (Hq : (val - end_ - step - 1) / (- step) <= 0) by lia.
    assert (Hge : val <= end_).
    { destruct (Z.le_gt_cases val end_) as [|Hlt]; [assumption|].
      assert (1 <= (val - end_ - step - 1) / (- step))
        by (apply Z.div_le_lower_bound; lia).
      lia. }
    destruct (Z.ltb_spec 0 step), (Z.ltb_spec val end_), (Z.ltb_spec step 0),
      (Z.ltb_spec end_ val); simpl; try lia; reflexivity.
  - assert (Hq : 1 <= (val - end_ - step - 1) / (- step)) by lia.
    assert (Hlt : end_ < val).
    { destruct (Z.lt_ge_cases end_ val) as [|Hge]; [assumption|].
      assert ((val - end_ - step - 1) / (- step) <= 0).
      { apply Z.lt_succ_r. apply Z.div_lt_upper_bound; lia. }
      lia. }
    destruct (Z.ltb_spec 0 step); [lia|]. destruct (Z.ltb_spec step 0); [|lia].
    destruct (Z.ltb_spec end_ val); [|lia]. simpl.
    rewrite nearestDouble_exact by (apply exact_bounds; lia).
    rewrite (IH (val + step)); [| lia | | lia].
    + cbn [seq map]. f_equal. f_equal; [lia|]. rewrite map_seq_shift.
      apply map_ext. intros i. lia.
    + replace (val + step - end_ - step - 1)
        with (val - end_ - step - 1 + (-1) * (- step)) by lia.
      rewrite Z.div_add by lia. lia.
Qed.

(** The loop that counts by [1] from [2^53] does not leave it: [2^53 + 1]
  is not a double, and the sum is rounded back to [2^53]. *)
Lemma rangeLoop_stuck (fuel : nat) :
  rangeLoop fuel 9007199254740994 1 9007199254740992 = None.
Proof.
  induction fuel as [|fuel IH]; [reflexivity|].
  cbn [rangeLoop].
  replace (nearestDouble (9007199254740992 + 1)) with 9007199254740992
    by (vm_compute; reflexivity).
  rewrite IH. reflexivity.
Qed.

(** X28.  [range(end, start, step)], on integers up to [2^53] that the loop does
  not leave ([end] and [step] together stay within [2^53]), is [start],
  [start + step], ... for as long as [end] is not reached: going up to it
  when [step] is positive, down to it when [step] is negative; [end]
  itself is never in.  A [step] of [0] gives the empty array.  With [end]
  alone the array is [0], ..., [end - 1].  Beyond [2^53] the loop need not
  end: [range(2^53 + 2, 2^53, 1)] adds [1] to [2^53] for ever. *)
Theorem range_counts_from_start_by_step (end_ : Z) (start step : option Z) :
  let from := match start with Some s => s | None => 0 end in
  let by_ := match step with Some s => s | None => 1 end in
  (exact from = true -> Z.abs end_ + Z.abs by_ <= 9007199254740992 ->
   (by_ = 0 -> forall fuel, range (S fuel) end_ start step = Some [])
   /\ (0 < by_ ->
       let n := Z.to_nat ((end_ - from + by_ - 1) / by_) in
       forall fuel, (n < fuel)%nat ->
         range fuel end_ start step
         = Some (map (fun i => from + Z.of_nat i * by_) (seq 0 n)))
   /\ (by_ < 0 ->
       let n := Z.to_nat ((from - end_ - by_ - 1) / (- by_)) in
       forall fuel, (n < fuel)%nat ->
         range fuel end_ start step
         = Some (map (fun i => from + Z.of_nat i * by_) (seq 0 n)))
   /\ (forall fuel res,
         range fuel end_ start step = Some res ->
         Forall (fun x => if 0 <? by_ then from <= x < end_ else end_ < x <= from) res))
  /\ (Z.abs end_ < 9007199254740992 ->
      forall fuel, (Z.to_nat end_ < fuel)%nat ->
        range fuel end_ None None = Some (map Z.of_nat (seq 0 (Z.to_nat end_))))
  /\ (forall fuel,
        range fuel 9007199254740994 (Some 9007199254740992) (Some 1) = None).
Proof.
  intros from by_. split; [|split].
  - intros Hfrom Hbound. apply exact_bounds in Hfrom.
    unfold range. fold from by_.
    assert (Hzero : by_ = 0 -> forall fuel, rangeLoop (S fuel) end_ by_ from = Some []).
    { intros -> fuel. reflexivity. }
    assert (Hup : 0 < by_ ->
                  forall fuel, (Z.to_nat ((end_ - from + by_ - 1) / by_) < fuel)%nat ->
                    rangeLoop fuel end_ by_ from
                    = Some (map (fun i => from + Z.of_nat i * by_)
                              (seq 0 (Z.to_nat ((end_ - from + by_ - 1) / by_))))).
    { intros Hpos fuel Hfuel. apply rangeLoop_up; try lia. }
    assert (Hdown : by_ < 0 ->
                    forall fuel, (Z.to_nat ((from - end_ - by_ - 1) / (- by_)) < fuel)%nat ->
                      rangeLoop fuel end_ by_ from
                      = Some (map (fun i => from + Z.of_nat i * by_)
                                (seq 0 (Z.to_nat ((from - end_ - by_ - 1) / (- by_)))))).
    { intros Hneg fuel Hfuel. apply rangeLoop_down; try lia. }
    split; [exact Hzero|]. split; [exact Hup|]. split; [exact Hdown|].
    intros fuel res Hres.
    assert (Hsame : forall n fuel',
               (n < fuel')%nat ->
               rangeLoop fuel' end_ by_ from
               = Some (map (fun i => from + Z.of_nat i * by_) (seq 0 n)) ->
               res = map (fun i => from + Z.of_nat i * by_) (seq 0 n)).
    { intros n fuel' Hn Hrun.
      assert (Hmono : forall f1 f2 e s v r,
                 (f1 <= f2)%nat -> rangeLoop f1 e s v = Some r -> rangeLoop f2 e s v = Some r).
      { induction f1 as [|f1 IHf]; intros f2 e s v r Hle; [discriminate|].
        destruct f2 as [|f2]; [lia|]. cbn [rangeLoop].
        destruct ((0 <? s) && (v <? e) || (s <? 0) && (e <? v)); [|auto].
        destruct (rangeLoop f1 e s (nearestDouble (v + s))) as [r1|] eqn:Hr1; [|discriminate].
        rewrite (IHf f2 e s _ r1 ltac:(lia) Hr1). auto. }
      destruct (Nat.le_ge_cases fuel fuel') as [Hle|Hle].
      - rewrite (Hmono _ _ _ _ _ _ Hle Hres) in Hrun. congruence.
      - rewrite (Hmono _ _ _ _ _ _ Hle Hrun) in Hres. congruence. }
    destruct (Z.ltb_spec 0 by_) as [Hpos|Hnonpos].
    + rewrite (Hsame _ _ (Nat.lt_succ_diag_r _) (Hup Hpos _ (Nat.lt_succ_diag_r _))).
      apply Forall_map, List.Forall_forall.
      intros i Hi. apply in_seq in Hi. simpl.
      assert (Hq : Z.of_nat i < (end_ - from + by_ - 1) / by_) by lia.
      assert (Hmul : by_ * ((end_ - from + by_ - 1) / by_) <= end_ - from + by_ - 1)
        by (apply Z.mul_div_le; lia).
      nia.
    + destruct (Z.eq_dec by_ 0) as [Hz|Hnz].
      * assert (res = []) as ->; [|constructor].
        destruct fuel as [|fuel]; [discriminate|].
        rewrite (Hzero Hz) in Hres. congruence.
      * assert (Hneg : by_ < 0) by lia.
        rewrite (Hsame _ _ (Nat.lt_succ_diag_r _) (Hdown Hneg _ (Nat.lt_succ_diag_r _))).
        apply Forall_map, List.Forall_forall.
        intros i Hi. apply in_seq in Hi. simpl.
        assert (Hq : Z.of_nat i < (from - end_ - by_ - 1) / (- by_)) by lia.
        assert (Hmul : (- by_) * ((from - end_ - by_ - 1) / (- by_)) <= from - end_ - by_ - 1)
          by (apply Z.mul_div_le; lia).
        nia.
  - intros Hend fuel Hfuel. unfold range.
    rewrite (rangeLoop_up end_ 1 (Z.to_nat end_)); try lia.
    + f_equal. apply map_ext. intros i. lia.
    + replace (end_ - 0 + 1 - 1) with end_ by lia. now rewrite Z.div_1_r.
  - intros fuel. apply rangeLoop_stuck.
Qed.

(** *** [keys], [values] and [size] *)



(** *** [checkTypes] *)

Lemma existsb_In (types : list string) (t : string) :
  existsb (fun type => String.eqb type t) types = true <-> In t types.
Proof.
  rewrite existsb_exists. split.
  - intros (x & Hin & Heq). now apply String.eqb_eq in Heq as <-.
  - intros Hin. exists t. split; [exact Hin | apply String.eqb_refl].
Qed.

Lemma existsb_same {A} (f f' : A -> bool) (xs : list A) :
  (forall x, f x = f' x) -> existsb f xs = existsb f' xs.
Proof.
  intros Hsame. induction xs as [|x xs IH]; simpl; [reflexivity|].
  now rewrite Hsame, IH.
Qed.

(** X30.  [checkTypes] takes an array for an ['array'] only, never for an
  ['object']; and it takes [null], like a plain object, for an
  ['object']. *)
Theorem checkTypes_arrays_and_null (types : list string) :
  (forall items, checkTypes (DArr items) types = Returned tt <-> In "array" types)
  /\ (checkTypes DNull types = Returned tt <-> In "object" types)
  /\ (forall fields, checkTypes (DObj fields) types = Returned tt <-> In "object" types)
  /\ (forall input, checkTypes input types = Returned tt
                    \/ checkTypes input types = Threw JsTypeError).
Proof.
  assert (Hplain : forall input,
             isArray input = false ->
             checkTypes input types = Returned tt <-> In (typeOf input) types).
  { intros input Hno. unfold checkTypes. rewrite Hno. rewrite <- existsb_In.
    rewrite (existsb_same _ (fun type => String.eqb type (typeOf input)))
      by (intros type; now rewrite andb_false_r, andb_true_r).
    destruct (existsb _ types); split; congruence. }
  split; [|split; [|split]].
  - intros items. unfold checkTypes. rewrite <- existsb_In. simpl.
    rewrite (existsb_same _ (fun type => String.eqb type "array"))
      by (intros type; now rewrite andb_false_r, andb_true_r, orb_false_r).
    destruct (existsb _ types); split; congruence.
  - now apply (Hplain DNull).
  - intros fields. now apply (Hplain (DObj fields)).
  - intros input. unfold checkTypes. destruct (existsb _ types); auto.
Qed.



Lemma groupBy_files_each_property_witness :
  exists result,
    groupBy (fun v _ _ => Returned (match v with
                                    | DNum n => DStr (if Z.odd n then "odd" else "even")
                                    | _ => DNull
                                    end))
      (DObj [("a", DNum 1); ("b", DNum 2); ("c", DNum 3)]) DNull = Some (Returned result)
    /\ member result "odd" "c" = Some (DNum 3).
Proof.
  destruct (groupBy_files_each_property
              (fun v _ _ => Returned (match v with
                                      | DNum n => DStr (if Z.odd n then "odd" else "even")
                                      | _ => DNull
                                      end))
              DNull
              (fun _ v => match v with
                          | DNum n => DStr (if Z.odd n then "odd" else "even")
                          | _ => DNull
                          end)
              [("a", DNum 1); ("b", DNum 2); ("c", DNum 3)])
    as (_ & result & Hrun & Hmember).
  - repeat (constructor; [simpl; intuition discriminate|]); constructor.
  - intros k v _. reflexivity.
  - intros k v [[= <- <-]|[[= <- <-]|[[= <- <-]|[]]]]; reflexivity.
  - intros k v [[= <- <-]|[[= <- <-]|[[= <- <-]|[]]]]; reflexivity.
  - intros k v [[= <- <-]|[[= <- <-]|[[= <- <-]|[]]]]; reflexivity.
  - exists result. split; [exact Hrun|]. apply Hmember.
    split; [right; right; now left | reflexivity].
Defined.

Lemma mapKeys_last_property_wins_witness :
  exists result,
    mapKeys (fun _ _ _ => Returned (DStr "x"))
      (DObj [("a", DNum 1); ("b", DNum 2)]) DNull = Returned result
    /\ property result "x" = Some (DNum 2).
Proof.
  destruct (mapKeys_last_property_wins (fun _ _ _ => Returned (DStr "x")) DNull
              (fun _ _ => DStr "x") [("a", DNum 1); ("b", DNum 2)])
    as (result & Hrun & Hproperty).
  - repeat (constructor; [simpl; intuition discriminate|]); constructor.
  - intros k v _. reflexivity.
  - intros k v _. reflexivity.
  - intros k v _. reflexivity.
  - exists result. split; [exact Hrun|]. apply Hproperty.
    exists 1%nat, "b". split; [reflexivity|]. split; [reflexivity|].
    intros [|[|j]] k' v' Hj Hnth; try lia. destruct j; discriminate Hnth.
Defined.

Lemma keyBy_last_element_wins_witness :
  exists result,
    keyBy (fun v _ _ => Returned v) (DArr [Some (DStr "p"); None; Some (DStr "q")]) DNull
    = Returned result
    /\ property result "q" = Some (DStr "q").
Proof.
  destruct (keyBy_last_element_wins (fun v _ _ => Returned v) DNull (fun _ v => v)
              [Some (DStr "p"); None; Some (DStr "q")])
    as ((result & Hrun & Hproperty) & _).
  - intros i v _. reflexivity.
  - intros [|[|[|i]]] v Hi; simpl in Hi; try discriminate Hi.
    + now injection Hi as <-.
    + now injection Hi as <-.
    + now destruct i.
  - intros [|[|[|i]]] v Hi; simpl in Hi; try discriminate Hi.
    + now injection Hi as <-.
    + now injection Hi as <-.
    + now destruct i.
  - exists result. split; [exact Hrun|]. apply Hproperty.
    exists 2%nat. split; [reflexivity|]. split; [reflexivity|].
    intros [|[|[|j]]] v' Hj Hnth; try lia. destruct j; discriminate Hnth.
Defined.


Lemma range_counts_from_start_by_step_witness :
  range 6 5 None None = Some [0; 1; 2; 3; 4]
  /\ range 4 0 (Some 6) (Some (-2)) = Some [6; 4; 2].
Proof.
  split.
  - exact (proj1 (proj2 (range_counts_from_start_by_step 5 None None))
             ltac:(lia) 6%nat ltac:(simpl; lia)).
  - destruct (proj1 (range_counts_from_start_by_step 0 (Some 6) (Some (-2)))
                eq_refl ltac:(simpl; lia)) as (_ & _ & Hdown & _).
    exact (Hdown ltac:(lia) 4%nat ltac:(vm_compute; lia)).
Defined.
End CollectionsFacts.
